(** * FoundryVTT local relay server: connection registry, request correlator,
      authentication gate and REST facade

    A shallow embedding of
    - [server/src/auth/secureApiKeyManager.ts]   (class [SecureApiKeyManager]),
    - [server/src/auth/enhancedApiKeyManager.ts] (class [EnhancedApiKeyManager]),
    - [server/src/websocket/webSocketHandler.ts] (class [WebSocketHandler]),
    - [server/src/routes/restApiRouter.ts]       (class [RestApiRouter]),
    followed by the properties of the specification, each one proved or
    refuted on the embedding, and by further properties of the same code.

    Conventions.
    - A JavaScript string is the list of its UTF-16 code units ([list N]),
      so that [length] is the [.length] of the source.
    - [Date] values and [Date.now()] are milliseconds, in [Z]; every handler
      takes the current time as an argument.
    - The [Map]s whose iteration order the code relies on ([clients],
      [pendingRequests]) are association lists in insertion order; the key
      store of the managers, only ever looked up, is a [gmap].
    - Mutable members of a class are the fields of a state record; methods
      are computations of a state-and-exception monad, in which [throw] and
      [try_catch] stand for the exceptions of the source. *)

From Stdlib Require Import ZArith NArith String Ascii List Bool Lia.
From stdpp Require Import base decidable option list numbers gmap.
Import ListNotations.
Local Open Scope Z_scope.

(** ** Strings and values *)

Abbreviation JsString := (list N).

(** An ASCII literal of the source, as code units. *)
Definition lit (s : string) : JsString :=
  map N_of_ascii (list_ascii_of_string s).

(** [!s] for a string [s]: only the empty string is falsy. *)
Definition is_empty (s : JsString) : bool :=
  match s with [] => true | _ => false end.

(** A property of an object obtained from [JSON.parse], as far as the server
    looks at it: absent, a string, or some other value of which only the
    truthiness is ever observed. *)
Inductive JsVal :=
| VUndefined
| VString (s : JsString)
| VOther (isTruthy : bool).

Definition truthy (v : JsVal) : bool :=
  match v with
  | VUndefined => false
  | VString s => negb (is_empty s)
  | VOther b => b
  end.

(** [v === 'literal'] *)
Definition strictEq (v : JsVal) (s : JsString) : bool :=
  match v with
  | VString s' => bool_decide (s' = s)
  | _ => false
  end.

#[global] Instance JsVal_eq_dec : EqDecision JsVal.
Proof. solve_decision. Defined.

(** ** Exceptions, and the monad of methods *)

Inductive Exn :=
| RangeError      (* ERR_CRYPTO_TIMING_SAFE_EQUAL_LENGTH *)
| SyntaxError     (* JSON.parse *)
| TypeError       (* property access on null, dangling reference *)
| IOError.        (* file system, decryption *)

Inductive Res (A : Type) :=
| Ok (a : A)
| Throw (e : Exn).
Arguments Ok {A} a.
Arguments Throw {A} e.

Section Monad.
Context {S : Type}.

(** A method of an object with members [S]: it returns or throws, and
    leaves the members as they were at that moment (nothing is rolled back
    by a [throw]). *)
Definition M (A : Type) : Type := S -> Res A * S.

Definition ret {A} (a : A) : M A := fun s => (Ok a, s).
Definition throw {A} (e : Exn) : M A := fun s => (Throw e, s).
Definition bind {A B} (m : M A) (k : A -> M B) : M B :=
  fun s => match m s with
           | (Ok a, s') => k a s'
           | (Throw e, s') => (Throw e, s')
           end.
Definition try_catch {A} (m : M A) (h : Exn -> M A) : M A :=
  fun s => match m s with
           | (Ok a, s') => (Ok a, s')
           | (Throw e, s') => h e s'
           end.
Definition gets {A} (f : S -> A) : M A := fun s => (Ok (f s), s).
Definition modify (f : S -> S) : M unit := fun s => (Ok tt, f s).

(** [for (const x of l) body(x)] *)
Fixpoint forEach {A} (l : list A) (body : A -> M unit) : M unit :=
  match l with
  | [] => ret tt
  | x :: l' => bind (body x) (fun _ => forEach l' body)
  end.
End Monad.
Arguments M S A : clear implicits.

Notation "'let*' x ':=' m 'in' k" := (bind m (fun x => k))
  (at level 10, x pattern, m at level 100, k at level 200).
Notation "m ';;' k" := (bind m (fun _ => k))
  (at level 100, k at level 200, right associativity).

(** Running a method of a member object inside a method of its owner. *)
Definition zoom {S T A} (proj : S -> T) (upd : T -> S -> S) (m : M T A) : M S A :=
  fun s => let (r, t') := m (proj s) in (r, upd t' s).

(** ** [Map<string, V>], in insertion order *)

Module JsMap.
Definition t (V : Type) : Type := list (JsString * V).

Section Ops.
Context {V : Type}.

Fixpoint get (k : JsString) (m : t V) : option V :=
  match m with
  | [] => None
  | (k', v) :: m' => if decide (k' = k) then Some v else get k m'
  end.

Definition has (k : JsString) (m : t V) : bool :=
  match get k m with Some _ => true | None => false end.

(** [set] keeps the position of a key that is present and appends a new
    key at the end. *)
Fixpoint set (k : JsString) (v : V) (m : t V) : t V :=
  match m with
  | [] => [(k, v)]
  | (k', v') :: m' =>
      if decide (k' = k) then (k, v) :: m' else (k', v') :: set k v m'
  end.

(** [delete] removes the entry of a key. *)
Fixpoint delete (k : JsString) (m : t V) : t V :=
  match m with
  | [] => []
  | (k', v') :: m' =>
      if decide (k' = k) then delete k m' else (k', v') :: delete k m'
  end.

Definition keys (m : t V) : list JsString := map fst m.
Definition entries (m : t V) : list (JsString * V) := m.
Definition size (m : t V) : nat := length m.

(** Keys are unique; every map built from the empty one is so. *)
Definition wf (m : t V) : Prop := NoDup (keys m).
End Ops.
End JsMap.

(** ** The authentication gate *)

(** [interface ApiKey]; [metadata], never read by the gate, is left out. *)
Record ApiKey := mkApiKey {
  ak_id : JsString;
  ak_key : JsString;
  ak_name : JsString;
  ak_createdAt : Z;
  ak_lastUsed : option Z;
  ak_active : bool
}.

Definition touch (now : Z) (k : ApiKey) : ApiKey :=
  mkApiKey (ak_id k) (ak_key k) (ak_name k) (ak_createdAt k) (Some now) (ak_active k).

(** [Buffer.from('...')] of an ASCII literal: its bytes. *)
Definition Buffer_from (s : string) : list N := lit s.

(** [crypto.timingSafeEqual(a, b)]: Node throws a [RangeError] when the two
    buffers differ in byte length, and compares them otherwise. *)
Definition timingSafeEqual {S} (a b : list N) : M S bool :=
  if Nat.eqb (length a) (length b)
  then ret (bool_decide (a = b))
  else throw RangeError.

(** A code unit in the class [[a-zA-Z0-9_-]]. *)
Definition inClass (c : N) : bool :=
  ((97 <=? c) && (c <=? 122) || (65 <=? c) && (c <=? 90) ||
   (48 <=? c) && (c <=? 57) || (c =? 95) || (c =? 45))%N.

(** [/^[a-zA-Z0-9_-]{8,}$/.test(s)]: the pattern is anchored at both ends and
    has no flag, so it matches exactly the strings of at least eight code
    units that are all in the class. *)
Definition validPattern_test (s : JsString) : bool :=
  forallb inClass s && Nat.leb 8 (length s).

Module EnhancedApiKeyManager.
Record t := mk {
  apiKeys : gmap JsString ApiKey;
  initialized : bool
}.

(** The write of [lastUsed] goes through the object stored under [key];
    the deferred [saveApiKeysAsync] catches its own failure and touches no
    member. *)
Definition validateApiKey (now : Z) (key : JsString) : M t bool :=
  let* self := gets id in
  if negb (initialized self) then ret false
  else match apiKeys self !! key with
       | None => ret false
       | Some apiKey =>
           if negb (ak_active apiKey) then ret false
           else modify (fun s => mk (<[key := touch now apiKey]> (apiKeys s))
                                    (initialized s)) ;;
                ret true
       end.

Definition validateFoundryWorldId (worldId : JsString) : M t bool :=
  if is_empty worldId || Nat.ltb (length worldId) 8 then ret false
  else
    try_catch
      (let* isValidLength :=
         timingSafeEqual
           (Buffer_from (if Nat.leb 8 (length worldId) then "valid" else "invalid"))
           (Buffer_from "valid") in
       if negb isValidLength then ret false
       else ret (validPattern_test worldId))
      (fun _ => ret false).

Definition isValidKey (now : Z) (key : JsString) : M t bool :=
  let* managed := validateApiKey now key in
  if managed then ret true
  else
    let* world := validateFoundryWorldId key in
    if world then ret true else ret false.
End EnhancedApiKeyManager.

Module SecureApiKeyManager.
Record t := mk {
  apiKeys : gmap JsString ApiKey;
  isInitialized : bool
}.

(** [loadApiKeys] reads and decrypts the key file, or creates a default
    key when there is none; [storage] is what that yields: the table of
    keys, or the exception of a failed read or decryption. *)
Definition loadApiKeys (storage : Res (gmap JsString ApiKey)) : M t unit :=
  match storage with
  | Ok keys => modify (fun s => mk keys (isInitialized s))
  | Throw e => throw e
  end.

Definition initializeAsync (storage : Res (gmap JsString ApiKey)) : M t unit :=
  try_catch
    (loadApiKeys storage ;;
     modify (fun s => mk (apiKeys s) true))
    (fun e => throw e).

Definition validateApiKey (storage : Res (gmap JsString ApiKey))
    (now : Z) (key : JsString) : M t bool :=
  let* self := gets id in
  (if negb (isInitialized self) then initializeAsync storage else ret tt) ;;
  let* self := gets id in
  match apiKeys self !! key with
  | None => ret false
  | Some apiKey =>
      if negb (ak_active apiKey) then ret false
      else modify (fun s => mk (<[key := touch now apiKey]> (apiKeys s))
                               (isInitialized s)) ;;
           ret true
  end.

Definition validateFoundryWorldId (worldId : JsString) : M t bool :=
  let* isValidLength :=
    timingSafeEqual
      (Buffer_from (if Nat.leb 8 (length worldId) then "valid" else "invalid"))
      (Buffer_from "valid") in
  if negb isValidLength then ret false
  else ret (validPattern_test worldId).

Definition isValidKey (storage : Res (gmap JsString ApiKey))
    (now : Z) (key : JsString) : M t bool :=
  let* managed := validateApiKey storage now key in
  if managed then ret true
  else
    let* world := validateFoundryWorldId key in
    if world then ret true else ret false.
End SecureApiKeyManager.

(** ** The key table and its file *)

(** [class EnhancedApiKeyManager] as a whole ([server/src/auth/
    enhancedApiKeyManager.ts]): the methods that manage the keys, beside
    the gate above.  [listApiKeys] and the saved file show the order of the
    [Map], so [apiKeys] is here a [JsMap]; the file at [apiKeysFile] and the
    saves deferred with [setImmediate] are part of the state.  [metadata] is
    left out, as in [ApiKey].  A call runs to its end before the next one
    starts: two calls that overlap at an [await] are not modelled. *)
Module KeyStore.

(** What is found at the path [apiKeysFile]: no file; something the loader
    throws on before it touches [apiKeys] (the directory cannot be made, the
    file cannot be read, its text is no JSON, or no array); or the array of
    keys a save has written there. *)
Inductive KeysFile :=
  | Missing
  | Unreadable
  | Stored (keys : list ApiKey).

Record t := mk {
  apiKeys : JsMap.t ApiKey;
  initialized : bool;
  apiKeysFile : KeysFile;
  writeFails : bool;           (* [writeFile] and [writeFileSync] throw *)
  immediates : nat             (* callbacks queued with [setImmediate] *)
}.

Definition with_apiKeys f (s : t) :=
  mk (f (apiKeys s)) (initialized s) (apiKeysFile s) (writeFails s) (immediates s).
Definition with_initialized b (s : t) :=
  mk (apiKeys s) b (apiKeysFile s) (writeFails s) (immediates s).
Definition with_apiKeysFile f (s : t) :=
  mk (apiKeys s) (initialized s) f (writeFails s) (immediates s).
Definition with_immediates f (s : t) :=
  mk (apiKeys s) (initialized s) (apiKeysFile s) (writeFails s) (f (immediates s)).

(** [Array.from(this.apiKeys.values())] *)
Definition values (s : t) : list ApiKey := map snd (apiKeys s).

(** What [crypto.randomBytes(32)] and [crypto.randomUUID()] return at a
    call. *)
Record Fresh := mkFresh {
  keyBytes : list N;
  uuid : JsString
}.

(** [buffer.toString('hex')]: two lower-case digits for each byte. *)
Definition hexDigit (n : N) : N :=
  if (n <? 10)%N then (48 + n)%N else (87 + n)%N.
Definition toString_hex (bytes : list N) : JsString :=
  flat_map (fun b => [hexDigit (b / 16); hexDigit (b mod 16)]%N) bytes.

(** [saveApiKeysSync] logs a failed write and goes on. *)
Definition saveApiKeysSync : M t unit :=
  try_catch
    (let* self := gets id in
     if writeFails self then throw IOError
     else modify (with_apiKeysFile (Stored (values self))))
    (fun _ => ret tt).

(** [saveApiKeysAsync] logs a failed write and throws it again. *)
Definition saveApiKeysAsync : M t unit :=
  try_catch
    (let* self := gets id in
     if writeFails self then throw IOError
     else modify (with_apiKeysFile (Stored (values self))))
    (fun e => throw e).

Definition generateApiKeySync (now : Z) (fresh : Fresh) (name : JsString)
    : M t ApiKey :=
  let key := lit "fvtt_" ++ toString_hex (keyBytes fresh) in
  let apiKey := mkApiKey (uuid fresh) key name now None true in
  modify (with_apiKeys (JsMap.set key apiKey)) ;;
  saveApiKeysSync ;;
  ret apiKey.

Definition generateApiKey (now : Z) (fresh : Fresh) (name : JsString)
    : M t ApiKey :=
  generateApiKeySync now fresh name.

Definition createDefaultKeySync (now : Z) (fresh : Fresh) : M t unit :=
  generateApiKeySync now fresh (lit "default-server") ;;
  ret tt.

(** The loader clears the table only once the file is read and parsed;
    whatever it throws is logged, and the table is as it stood then. *)
Definition loadApiKeysSync (now : Z) (fresh : Fresh) : M t unit :=
  try_catch
    (let* file := gets apiKeysFile in
     match file with
     | Unreadable => throw IOError
     | Stored keys =>
         modify (with_apiKeys (fun _ => [])) ;;
         forEach keys (fun key =>
           modify (with_apiKeys (JsMap.set (ak_key key) key)))
     | Missing => createDefaultKeySync now fresh
     end)
    (fun _ => ret tt).

Definition initializeSync (now : Z) (fresh : Fresh) : M t unit :=
  try_catch
    (loadApiKeysSync now fresh ;;
     modify (with_initialized true))
    (fun _ => modify (with_initialized true)).

(** [new EnhancedApiKeyManager(path)], over what is at [path]. *)
Definition new (file : KeysFile) (writeFails : bool) (now : Z) (fresh : Fresh) : t :=
  snd (initializeSync now fresh (mk [] false file writeFails 0)).

(** The write of [lastUsed] goes through the object stored under [key];
    the save is put off to the next turn of the event loop. *)
Definition validateApiKey (now : Z) (key : JsString) : M t bool :=
  let* self := gets id in
  if negb (initialized self) then ret false
  else match JsMap.get key (apiKeys self) with
       | None => ret false
       | Some apiKey =>
           if negb (ak_active apiKey) then ret false
           else modify (with_apiKeys (JsMap.set key (touch now apiKey))) ;;
                modify (with_immediates S) ;;
                ret true
       end.

(** A callback queued by [validateApiKey] runs: it saves, and logs a failure
    of the save. *)
Definition runImmediate : M t unit :=
  let* n := gets immediates in
  match n with
  | O => ret tt
  | S n' =>
      modify (with_immediates (fun _ => n')) ;;
      try_catch saveApiKeysAsync (fun _ => ret tt)
  end.

Definition deactivate (k : ApiKey) : ApiKey :=
  mkApiKey (ak_id k) (ak_key k) (ak_name k) (ak_createdAt k) (ak_lastUsed k) false.

Definition revokeApiKey (key : JsString) : M t bool :=
  let* keys := gets apiKeys in
  match JsMap.get key keys with
  | None => ret false
  | Some apiKey =>
      modify (with_apiKeys (JsMap.set key (deactivate apiKey))) ;;
      saveApiKeysAsync ;;
      ret true
  end.

Definition deleteApiKey (key : JsString) : M t bool :=
  let* keys := gets apiKeys in
  let deleted := JsMap.has key keys in
  modify (with_apiKeys (JsMap.delete key)) ;;
  (if deleted then saveApiKeysAsync else ret tt) ;;
  ret deleted.

(** [key.substring(0, n) + '...'] *)
Definition maskApiKey (key : JsString) : JsString :=
  if Nat.leb (length key) 12 then firstn 4 key ++ lit "..."
  else firstn 12 key ++ lit "...".

Definition listApiKeys (s : t) : list ApiKey :=
  map (fun key => mkApiKey (ak_id key) (maskApiKey (ak_key key)) (ak_name key)
                    (ak_createdAt key) (ak_lastUsed key) (ak_active key))
      (values s).

(** [existingKey.active = false] is a write to the object found under
    [oldKey] when the method started.  That object is still the one stored
    there, unless the key string just generated is [oldKey] itself: then
    [set] has put the new object in its place, and the write is to an
    object the table no longer holds. *)
Definition rotateApiKey (now : Z) (fresh : Fresh) (oldKey : JsString)
    : M t (option ApiKey) :=
  let* keys := gets apiKeys in
  match JsMap.get oldKey keys with
  | None => ret None
  | Some existingKey =>
      let* newKey := generateApiKey now fresh (ak_name existingKey) in
      (if bool_decide (ak_key newKey = oldKey) then ret tt
       else modify (with_apiKeys (JsMap.set oldKey (deactivate existingKey)))) ;;
      saveApiKeysAsync ;;
      ret (Some newKey)
  end.

(** The members as the gate above has them. *)
Definition view (s : t) : EnhancedApiKeyManager.t :=
  EnhancedApiKeyManager.mk (list_to_map (apiKeys s)) (initialized s).

(** [validateFoundryWorldId] reads and writes no member. *)
Definition validateFoundryWorldId (worldId : JsString) : M t bool :=
  zoom view (fun _ s => s) (EnhancedApiKeyManager.validateFoundryWorldId worldId).

Definition isValidKey (now : Z) (key : JsString) : M t bool :=
  let* managed := validateApiKey now key in
  if managed then ret true
  else
    let* world := validateFoundryWorldId key in
    if world then ret true else ret false.

Record SecurityInfo := mkInfo {
  totalKeys : nat;
  activeKeys : nat;
  encryptedStorage : bool;
  filePermissions : string;
  timingSafeValidation : bool;
  cryptographicKeyGeneration : bool
}.

Definition getSecurityInfo (s : t) : SecurityInfo :=
  mkInfo (JsMap.size (apiKeys s))
    (length (filter (fun k => ak_active k = true) (values s)))
    false "600 (owner read/write only)" true true.

Definition destroy : M t unit :=
  modify (with_apiKeys (fun _ => [])) ;;
  modify (with_initialized false).

(** *** The calls a program can make on a manager *)

Inductive Call :=
  | GenerateApiKey (now : Z) (fresh : Fresh) (name : JsString)
  | ValidateApiKey (now : Z) (key : JsString)
  | IsValidKey (now : Z) (key : JsString)
  | RevokeApiKey (key : JsString)
  | DeleteApiKey (key : JsString)
  | RotateApiKey (now : Z) (fresh : Fresh) (oldKey : JsString)
  | Destroy
  | Immediate                    (* the event loop runs a queued callback *)
  | DiskChanges (writeFails : bool).   (* the file becomes (un)writable *)

Definition call (s : t) (c : Call) : t :=
  match c with
  | GenerateApiKey now fresh name => snd (generateApiKey now fresh name s)
  | ValidateApiKey now key => snd (validateApiKey now key s)
  | IsValidKey now key => snd (isValidKey now key s)
  | RevokeApiKey key => snd (revokeApiKey key s)
  | DeleteApiKey key => snd (deleteApiKey key s)
  | RotateApiKey now fresh oldKey => snd (rotateApiKey now fresh oldKey s)
  | Destroy => snd (destroy s)
  | Immediate => snd (runImmediate s)
  | DiskChanges w =>
      mk (apiKeys s) (initialized s) (apiKeysFile s) w (immediates s)
  end.

Definition calls (s : t) (cs : list Call) : t := fold_left call cs s.

(** The calls that end with a save of the table. *)
Definition saves (s : t) (c : Call) : bool :=
  match c with
  | GenerateApiKey _ _ _ => true
  | RevokeApiKey key | DeleteApiKey key | RotateApiKey _ _ key =>
      JsMap.has key (apiKeys s)
  | Immediate => negb (Nat.eqb (immediates s) 0)
  | _ => false
  end.

(** Every key is stored under its own string. *)
Definition self_keyed (m : JsMap.t ApiKey) : Prop :=
  Forall (fun e => ak_key (snd e) = fst e) m.

(** The table of a manager is tidy: no key string twice, and each key under
    its own. *)
Definition tidy (s : t) : Prop :=
  JsMap.wf (apiKeys s) /\ self_keyed (apiKeys s).

(** The table the loader builds from the array of a file: each key under
    its own string, a later one taking the place of an earlier one with the
    same string. *)
Definition loaded (keys : list ApiKey) : JsMap.t ApiKey :=
  fold_left (fun m key => JsMap.set (ak_key key) key m) keys [].

(** What [randomBytes(32)] returns: thirty-two bytes. *)
Definition bytes32 (bytes : list N) : Prop :=
  length bytes = 32%nat /\ Forall (fun b => (b < 256)%N) bytes.

End KeyStore.

(** ** The connection registry, the dispatcher and the correlator *)

Module WebSocketHandler.

(** References to the objects the handler shares with the event loop. *)
Abbreviation SockId := nat.
Abbreviation ClientRef := nat.
Abbreviation TimerId := nat.
Abbreviation PromiseId := nat.

(** [interface WebSocketClient].  A record is an object: the registry and
    the listeners of its socket hold a reference to the same one. *)
Record WebSocketClient := mkClient {
  id : JsString;
  socket : SockId;
  authenticated : bool;
  token : option JsString;
  lastPing : option Z
}.

(** [interface WebSocketMessage], for the messages the server builds. *)
Record WebSocketMessage := mkMessage {
  type : JsString;
  requestId : option JsString;
  fields : list (JsString * JsVal)
}.

(** What [JSON.parse] made of an inbound frame, through the four
    properties [handleMessage] reads. *)
Record InboundMessage := mkInbound {
  in_type : JsVal;
  in_requestId : JsVal;
  in_error : JsVal;
  in_status : JsVal;
  in_fields : list (JsString * JsVal)
}.

Inductive RawData :=
  | Malformed                       (* not JSON: [JSON.parse] throws *)
  | JsonNull                        (* the text [null] *)
  | Json (message : InboundMessage).

Inductive ReadyState := CONNECTING | OPEN | CLOSING | CLOSED.

(** A socket of the [ws] library, as the handler can observe and drive it:
    the frames handed to [send], the calls of [close], whether [send]
    throws, and the listeners [handleConnection] registered, which close
    over the client record and the client id. *)
Record WebSocket := mkSocket {
  readyState : ReadyState;
  sent : list WebSocketMessage;
  closeCalls : list (Z * string);
  sendThrows : bool;
  listeners : option (ClientRef * JsString)
}.

(** The [Error] values the correlator rejects with. *)
Inductive Failure :=
  | NoClientsConnected              (* 'No FoundryVTT clients connected' *)
  | RequestTimeout (timeoutMs : Z)  (* `Request timeout after ${timeoutMs}ms` *)
  | SendFailed                      (* 'Failed to send message to FoundryVTT' *)
  | RequestExpired                  (* 'Request expired during cleanup' *)
  | PeerError (e : JsVal)           (* new Error(message.error) *)
  | UnknownPeerError.               (* 'Unknown error from FoundryVTT' *)

Inductive Settlement :=
  | Resolved (value : InboundMessage)
  | Rejected (reason : Failure).

(** An entry of [pendingRequests]: [resolve] and [reject] are those of the
    promise [promise]. *)
Record PendingRequest := mkPending {
  promise : PromiseId;
  timeout : TimerId;
  timestamp : Z
}.

(** The callback handed to [setTimeout]: it closes over the message (whose
    [requestId] is set by then), [reject] and [timeoutMs]. *)
Record TimerCallback := mkCallback {
  cb_requestId : JsString;
  cb_promise : PromiseId;
  cb_timeoutMs : Z
}.

Record State := mkState {
  clients : JsMap.t ClientRef;
  pendingRequests : JsMap.t PendingRequest;
  apiKeyManager : EnhancedApiKeyManager.t;
  heap : list WebSocketClient;                 (* client records *)
  sockets : list WebSocket;
  timers : list (TimerId * TimerCallback);     (* armed timers *)
  nextTimer : TimerId;
  settlements : list (PromiseId * Settlement); (* calls of resolve/reject *)
  nextPromise : PromiseId
}.

Definition with_clients f (s : State) :=
  mkState (f (clients s)) (pendingRequests s) (apiKeyManager s) (heap s)
    (sockets s) (timers s) (nextTimer s) (settlements s) (nextPromise s).
Definition with_pendingRequests f (s : State) :=
  mkState (clients s) (f (pendingRequests s)) (apiKeyManager s) (heap s)
    (sockets s) (timers s) (nextTimer s) (settlements s) (nextPromise s).
Definition with_apiKeyManager f (s : State) :=
  mkState (clients s) (pendingRequests s) (f (apiKeyManager s)) (heap s)
    (sockets s) (timers s) (nextTimer s) (settlements s) (nextPromise s).
Definition with_heap f (s : State) :=
  mkState (clients s) (pendingRequests s) (apiKeyManager s) (f (heap s))
    (sockets s) (timers s) (nextTimer s) (settlements s) (nextPromise s).
Definition with_sockets f (s : State) :=
  mkState (clients s) (pendingRequests s) (apiKeyManager s) (heap s)
    (f (sockets s)) (timers s) (nextTimer s) (settlements s) (nextPromise s).
Definition with_timers f (s : State) :=
  mkState (clients s) (pendingRequests s) (apiKeyManager s) (heap s)
    (sockets s) (f (timers s)) (nextTimer s) (settlements s) (nextPromise s).
Definition with_nextTimer f (s : State) :=
  mkState (clients s) (pendingRequests s) (apiKeyManager s) (heap s)
    (sockets s) (timers s) (f (nextTimer s)) (settlements s) (nextPromise s).
Definition with_settlements f (s : State) :=
  mkState (clients s) (pendingRequests s) (apiKeyManager s) (heap s)
    (sockets s) (timers s) (nextTimer s) (f (settlements s)) (nextPromise s).
Definition with_nextPromise f (s : State) :=
  mkState (clients s) (pendingRequests s) (apiKeyManager s) (heap s)
    (sockets s) (timers s) (nextTimer s) (settlements s) (f (nextPromise s)).

(** *** The run-time the handler stands on *)

(** Reading a property of the object behind a reference. *)
Definition deref (c : ClientRef) : M State WebSocketClient :=
  let* h := gets heap in
  match h !! c with
  | Some client => ret client
  | None => throw TypeError
  end.

Definition socket_readyState (ws : SockId) : M State ReadyState :=
  let* ss := gets sockets in
  match ss !! ws with
  | Some s => ret (readyState s)
  | None => throw TypeError
  end.

(** [ws.close(code, reason)]: an open socket starts its closing handshake;
    its 'close' event comes later, from the event loop. *)
Definition socket_close (ws : SockId) (code : Z) (reason : string) : M State unit :=
  modify (with_sockets (fun ss =>
    match ss !! ws with
    | Some s =>
        <[ws := mkSocket
                  (match readyState s with OPEN => CLOSING | r => r end)
                  (sent s) (closeCalls s ++ [(code, reason)])
                  (sendThrows s) (listeners s)]> ss
    | None => ss
    end)).

(** [ws.send(JSON.stringify(message))] *)
Definition socket_send (ws : SockId) (message : WebSocketMessage) : M State unit :=
  let* ss := gets sockets in
  match ss !! ws with
  | Some s =>
      if sendThrows s then throw IOError
      else modify (with_sockets (fun ss =>
             <[ws := mkSocket (readyState s) (sent s ++ [message])
                       (closeCalls s) (sendThrows s) (listeners s)]> ss))
  | None => throw TypeError
  end.

(** [ws.on('message' | 'close' | 'error', ...)] *)
Definition socket_on (ws : SockId) (client : ClientRef) (clientId : JsString)
    : M State unit :=
  modify (with_sockets (fun ss =>
    match ss !! ws with
    | Some s =>
        <[ws := mkSocket (readyState s) (sent s) (closeCalls s)
                  (sendThrows s) (Some (client, clientId))]> ss
    | None => ss
    end)).

(** [setTimeout(callback, timeoutMs)] *)
Definition setTimeout (callback : TimerCallback) : M State TimerId :=
  let* t := gets nextTimer in
  modify (with_timers (fun ts => ts ++ [(t, callback)])) ;;
  modify (with_nextTimer S) ;;
  ret t.

(** [clearTimeout(t)]: a timer that is cleared never runs its callback. *)
Definition clearTimeout (t : TimerId) : M State unit :=
  modify (with_timers (filter (fun x => fst x <> t))).

(** [new Promise(...)]: the promise whose settling functions the executor
    receives. *)
Definition newPromise : M State PromiseId :=
  let* p := gets nextPromise in
  modify (with_nextPromise S) ;;
  ret p.

(** A call of the [resolve] or [reject] function of promise [p]. *)
Definition settle (p : PromiseId) (s : Settlement) : M State unit :=
  modify (with_settlements (fun l => l ++ [(p, s)])).

(** *** [class WebSocketHandler] *)

Definition sendToClient (clientId : JsString) (message : WebSocketMessage)
    : M State bool :=
  let* cs := gets clients in
  match JsMap.get clientId cs with
  | None => ret false
  | Some c =>
      let* client := deref c in
      let* rs := socket_readyState (socket client) in
      match rs with
      | OPEN =>
          try_catch
            (socket_send (socket client) message ;; ret true)
            (fun _ => ret false)
      | _ => ret false
      end
  end.

Definition getConnectedClients (s : State) : list JsString :=
  JsMap.keys (clients s).

(** [for (const [clientId] of this.clients)]: the loop body adds and removes
    no client, so the ids it visits are those registered when it starts.
    An [excludeClient] that is absent or the empty string excludes no one. *)
Definition broadcastMessage (message : WebSocketMessage)
    (excludeClient : option JsString) : M State unit :=
  let* cs := gets clients in
  forEach (JsMap.keys cs) (fun clientId =>
    if match excludeClient with
       | Some x => negb (is_empty x) && bool_decide (clientId = x)
       | None => false
       end
    then ret tt
    else sendToClient clientId message ;; ret tt).

Definition isClientConnected (clientId : JsString) : M State bool :=
  let* cs := gets clients in
  match JsMap.get clientId cs with
  | None => ret false
  | Some c =>
      let* client := deref c in
      let* rs := socket_readyState (socket client) in
      ret (match rs with OPEN => true | _ => false end)
  end.

(** The two search parameters [id] and [token] of the request URL. *)
Record IncomingMessage := mkRequest {
  param_id : option JsString;
  param_token : option JsString
}.

Definition welcome : WebSocketMessage :=
  mkMessage (lit "connected") None
    [(lit "message",
      VString (lit "Successfully connected to FoundryVTT Local Relay Server"));
     (lit "timestamp", VOther true)].

Definition handleConnection (now : Z) (ws : SockId) (request : IncomingMessage)
    : M State unit :=
  match param_id request, param_token request with
  | Some clientId, Some tok =>
      if is_empty clientId || is_empty tok
      then socket_close ws 4001 "Missing client ID or token"
      else
        let* isValidToken :=
          zoom apiKeyManager (fun m => with_apiKeyManager (fun _ => m))
            (EnhancedApiKeyManager.isValidKey now tok) in
        if negb isValidToken
        then socket_close ws 4002 "Invalid authentication token"
        else
          (* the client record *)
          let* client := gets (fun s => length (heap s)) in
          modify (with_heap (fun h =>
            h ++ [mkClient clientId ws true (Some tok) (Some now)])) ;;
          (* duplicate connections *)
          let* cs := gets clients in
          (if JsMap.has clientId cs then
             match JsMap.get clientId cs with
             | Some existing =>
                 let* existingClient := deref existing in
                 let* rs := socket_readyState (socket existingClient) in
                 match rs with
                 | OPEN => socket_close (socket existingClient) 4004
                             "Duplicate connection"
                 | _ => ret tt
                 end
             | None => ret tt
             end
           else ret tt) ;;
          modify (with_clients (JsMap.set clientId client)) ;;
          socket_on ws client clientId ;;
          sendToClient clientId welcome ;;
          ret tt
  | _, _ => socket_close ws 4001 "Missing client ID or token"
  end.

(** [JSON.parse(data.toString())], together with the first property read
    of the result, which throws on [null]. *)
Definition JSON_parse (data : RawData) : M State InboundMessage :=
  match data with
  | Malformed => throw SyntaxError
  | JsonNull => throw TypeError
  | Json message => ret message
  end.

(** [pendingRequests.get(message.requestId)]: the keys are strings, so no
    other value finds an entry. *)
Definition pendingOf (v : JsVal) (m : JsMap.t PendingRequest)
    : option (JsString * PendingRequest) :=
  match v with
  | VString k =>
      match JsMap.get k m with
      | Some r => Some (k, r)
      | None => None
      end
  | _ => None
  end.

Definition pong : WebSocketMessage := mkMessage (lit "pong") None [].
Definition invalidFormat : WebSocketMessage :=
  mkMessage (lit "error") None
    [(lit "error", VString (lit "Invalid message format"))].

Definition handleMessage (now : Z) (client : ClientRef) (data : RawData)
    : M State unit :=
  try_catch
    (let* message := JSON_parse data in
     let* c := deref client in                 (* client.id, for the log *)
     if strictEq (in_type message) (lit "ping") then
       modify (with_heap (fun h =>
         <[client := mkClient (id c) (socket c) (authenticated c) (token c)
                       (Some now)]> h)) ;;
       sendToClient (id c) pong ;;
       ret tt
     else if strictEq (in_type message) (lit "pong") then
       ret tt
     else
       let* pending := gets pendingRequests in
       match (if truthy (in_requestId message)
              then pendingOf (in_requestId message) pending else None) with
       | Some (k, pendingRequest) =>
           clearTimeout (timeout pendingRequest) ;;
           modify (with_pendingRequests (JsMap.delete k)) ;;
           if truthy (in_error message) || strictEq (in_status message) (lit "error")
           then settle (promise pendingRequest)
                  (Rejected (if truthy (in_error message)
                             then PeerError (in_error message)
                             else UnknownPeerError))
           else settle (promise pendingRequest) (Resolved message)
       | None =>
           (* an unsolicited message is only logged *)
           ret tt
       end)
    (fun _ =>
       let* c := deref client in
       sendToClient (id c) invalidFormat ;;
       ret tt).

(** [generateRequestId()]: ["req_"] followed by the time and a random
    suffix. *)
Definition generateRequestId (suffix : JsString) : JsString :=
  lit "req_" ++ suffix.

(** The executor of the promise [sendMessageToFoundry] returns; [suffix] is
    what [generateRequestId] would append at this call. *)
Definition sendMessageToFoundry (now : Z) (suffix : JsString)
    (message : WebSocketMessage) (timeoutMs : Z) : M State PromiseId :=
  let* p := newPromise in
  let* cs := gets clients in
  (if Nat.eqb (JsMap.size cs) 0 then
     settle p (Rejected NoClientsConnected)
   else
     let rid := match requestId message with
                | Some r => if is_empty r then generateRequestId suffix else r
                | None => generateRequestId suffix
                end in
     let message := mkMessage (type message) (Some rid) (fields message) in
     let* t := setTimeout (mkCallback rid p timeoutMs) in
     modify (with_pendingRequests (JsMap.set rid (mkPending p t now))) ;;
     match JsMap.keys cs with
     | firstClientId :: _ =>
         let* success := sendToClient firstClientId message in
         if negb success then
           clearTimeout t ;;
           modify (with_pendingRequests (JsMap.delete rid)) ;;
           settle p (Rejected SendFailed)
         else ret tt
     | [] => ret tt
     end) ;;
  ret p.

(** The callback of the timer armed by [sendMessageToFoundry]. *)
Definition onTimeout (callback : TimerCallback) : M State unit :=
  modify (with_pendingRequests (JsMap.delete (cb_requestId callback))) ;;
  settle (cb_promise callback) (Rejected (RequestTimeout (cb_timeoutMs callback))).

(** Deleting the current entry while a [Map] is iterated leaves the
    iteration over the other entries as it was, and the loop adds none: it
    visits the entries that were there when it started, in order. *)
Definition cleanupExpiredRequests (now : Z) (maxAgeMs : Z) : M State unit :=
  let* pending := gets pendingRequests in
  forEach (JsMap.entries pending) (fun '(k, request) =>
    if now - timestamp request >? maxAgeMs then
      clearTimeout (timeout request) ;;
      modify (with_pendingRequests (JsMap.delete k)) ;;
      settle (promise request) (Rejected RequestExpired)
    else ret tt).

(** *** The event loop *)

Inductive Event :=
  | Connection (request : IncomingMessage) (throws : bool)
    (* the server hands a new open socket to [handleConnection] *)
  | Message (ws : SockId) (data : RawData)       (* 'message' on a socket *)
  | Close (ws : SockId)                          (* 'close' on a socket *)
  | Error (ws : SockId)                          (* 'error' on a socket *)
  | Enqueue (suffix : JsString) (message : WebSocketMessage) (timeoutMs : Z)
    (* a route calls [sendMessageToFoundry] *)
  | TimerFires (t : TimerId)                     (* a deadline elapses *)
  | Cleanup (maxAgeMs : Z).                      (* the periodic sweep *)

Definition onConnection (now : Z) (request : IncomingMessage) (throws : bool)
    : M State unit :=
  let* ws := gets (fun s => length (sockets s)) in
  modify (with_sockets (fun ss => ss ++ [mkSocket OPEN [] [] throws None])) ;;
  handleConnection now ws request.

Definition onMessage (now : Z) (ws : SockId) (data : RawData) : M State unit :=
  let* ss := gets sockets in
  match ss !! ws with
  | Some s =>
      match listeners s with
      | Some (client, _) => handleMessage now client data
      | None => ret tt
      end
  | None => ret tt
  end.

(** The 'close' listener; the socket is closed by then. *)
Definition onClose (ws : SockId) : M State unit :=
  let* ss := gets sockets in
  match ss !! ws with
  | Some s =>
      modify (with_sockets (fun ss =>
        <[ws := mkSocket CLOSED (sent s) (closeCalls s) (sendThrows s)
                  (listeners s)]> ss)) ;;
      match listeners s with
      | Some (_, clientId) => modify (with_clients (JsMap.delete clientId))
      | None => ret tt
      end
  | None => ret tt
  end.

(** The 'error' listener. *)
Definition onError (ws : SockId) : M State unit :=
  let* ss := gets sockets in
  match ss !! ws with
  | Some s =>
      match listeners s with
      | Some (_, clientId) => modify (with_clients (JsMap.delete clientId))
      | None => ret tt
      end
  | None => ret tt
  end.

(** A timer runs its callback once, and only while it is armed. *)
Definition onTimerFires (t : TimerId) : M State unit :=
  let* ts := gets timers in
  match find (fun x => bool_decide (fst x = t)) ts with
  | Some (_, callback) =>
      modify (with_timers (filter (fun x => fst x <> t))) ;;
      onTimeout callback
  | None => ret tt
  end.

Definition handle (now : Z) (e : Event) : M State unit :=
  match e with
  | Connection request throws => onConnection now request throws
  | Message ws data => onMessage now ws data
  | Close ws => onClose ws
  | Error ws => onError ws
  | Enqueue suffix message timeoutMs =>
      sendMessageToFoundry now suffix message timeoutMs ;; ret tt
  | TimerFires t => onTimerFires t
  | Cleanup maxAgeMs => cleanupExpiredRequests now maxAgeMs
  end.

Definition step (s : State) (e : Z * Event) : State :=
  snd (handle (fst e) (snd e) s).

Definition run (s : State) (es : list (Z * Event)) : State :=
  fold_left step es s.

(** The handler a server starts with, over a given key manager. *)
Definition init (keys : EnhancedApiKeyManager.t) : State :=
  mkState [] [] keys [] [] [] 0%nat [] 0%nat.

End WebSocketHandler.

(** ** The REST facade *)

Module RestApiRouter.
Import WebSocketHandler.

(** The routes [setupRoutes] registers, with their URL parameters;
    [NoRoute] is a request for any other method and path. *)
Inductive Route :=
  | Search                          (* POST   /search *)
  | GetEntity (uuid : JsString)     (* GET    /entity/:uuid *)
  | CreateEntity                    (* POST   /entity *)
  | UpdateEntity (uuid : JsString)  (* PUT    /entity/:uuid *)
  | DeleteEntity (uuid : JsString)  (* DELETE /entity/:uuid *)
  | Roll                            (* POST   /roll *)
  | Rolls                           (* GET    /rolls *)
  | Macro (uuid : JsString)         (* POST   /macro/:uuid *)
  | Structure                       (* GET    /structure *)
  | Contents                        (* GET    /contents *)
  | Selected                        (* GET    /selected *)
  | Select                          (* POST   /select *)
  | Execute                         (* POST   /execute *)
  | Macros                          (* GET    /macros *)
  | Hotbar (page : option Z)        (* GET    /hotbar, with [parseInt] of its
                                     [page] parameter when that is a number *)
  | Status                          (* GET    /status *)
  | NoRoute (path : JsString).

(** [req.path], relative to the router. *)
Definition path (r : Route) : JsString :=
  match r with
  | Search => lit "/search"
  | GetEntity uuid | UpdateEntity uuid | DeleteEntity uuid => lit "/entity/" ++ uuid
  | CreateEntity => lit "/entity"
  | Roll => lit "/roll"
  | Rolls => lit "/rolls"
  | Macro uuid => lit "/macro/" ++ uuid
  | Structure => lit "/structure"
  | Contents => lit "/contents"
  | Selected => lit "/selected"
  | Select => lit "/select"
  | Execute => lit "/execute"
  | Macros => lit "/macros"
  | Hotbar _ => lit "/hotbar"
  | Status => lit "/status"
  | NoRoute p => p
  end.

Record Request := mkReq {
  route : Route;
  x_api_key : option JsString;          (* req.headers['x-api-key'] *)
  body : list (JsString * JsVal);       (* req.body *)
  query : list (JsString * JsVal)       (* req.query *)
}.

(** [obj.name] *)
Fixpoint prop (name : JsString) (obj : list (JsString * JsVal)) : JsVal :=
  match obj with
  | [] => VUndefined
  | (k, v) :: obj' => if decide (k = name) then v else prop name obj'
  end.

Inductive Body :=
  | ErrorBody (error : string) (message : option string)
  | InternalServerError (reason : Failure)   (* message: error.message *)
  | Result (result : InboundMessage)
  | StatusReport (connectedClients : nat) (clients : list JsString)
    (status : string) (timestamp : Z).

Record Response := mkRes {
  status : Z;
  json : Body
}.

Inductive Step :=
  | Next
  | Respond (r : Response).

(** The first middleware: the API key. *)
Definition authenticate (now : Z) (req : Request) : M State Step :=
  if bool_decide (path (route req) = lit "/status") then ret Next
  else
    match x_api_key req with
    | None =>
        ret (Respond (mkRes 401
          (ErrorBody "API key required"
             (Some "Include x-api-key header with your request"%string))))
    | Some apiKey =>
        if is_empty apiKey then
          ret (Respond (mkRes 401
            (ErrorBody "API key required"
               (Some "Include x-api-key header with your request"%string))))
        else
          try_catch
            (let* isValid :=
               zoom apiKeyManager (fun m => with_apiKeyManager (fun _ => m))
                 (EnhancedApiKeyManager.isValidKey now apiKey) in
             if negb isValid then
               ret (Respond (mkRes 401
                 (ErrorBody "Invalid API key"
                    (Some "The provided API key is not valid or has been revoked"%string))))
             else ret Next)
            (fun _ =>
               ret (Respond (mkRes 500
                 (ErrorBody "Authentication service error"
                    (Some "Unable to validate API key at this time"%string)))))
    end.

Definition noClients : Response :=
  mkRes 503
    (ErrorBody "No FoundryVTT instances connected"
       (Some "Please ensure FoundryVTT is running and the module is connected to this relay server"%string)).

(** The second middleware: a connected client. *)
Definition checkConnection : M State Step :=
  let* connectedClients := gets getConnectedClients in
  if Nat.eqb (length connectedClients) 0 then ret (Respond noClients)
  else ret Next.

(** What a route does before it awaits the correlator: it answers at once,
    or builds the message it hands to [sendMessageToFoundry]. *)
Inductive Prepared :=
  | Answer (r : Response)
  | Forward (message : WebSocketMessage)
  | Unhandled.                      (* no route: left to the application *)

Definition badRequest (error : string) : Prepared :=
  Answer (mkRes 400 (ErrorBody error None)).

Definition prepare (now : Z) (req : Request) (connected : list JsString)
    : Prepared :=
  let b := body req in
  match route req with
  | Search =>
      if negb (truthy (prop (lit "query") b))
      then badRequest "Query parameter is required"
      else Forward (mkMessage (lit "perform-search") None
             [(lit "query", prop (lit "query") b);
              (lit "filter", prop (lit "filter") b)])
  | GetEntity uuid =>
      Forward (mkMessage (lit "get-entity") None [(lit "uuid", VString uuid)])
  | CreateEntity =>
      if negb (truthy (prop (lit "type") b)) || negb (truthy (prop (lit "data") b))
      then badRequest "Type and data parameters are required"
      else Forward (mkMessage (lit "create-entity") None
             [(lit "entityType", prop (lit "type") b);
              (lit "data", prop (lit "data") b)])
  | UpdateEntity uuid =>
      if negb (truthy (prop (lit "data") b))
      then badRequest "Data parameter is required"
      else Forward (mkMessage (lit "update-entity") None
             [(lit "uuid", VString uuid); (lit "data", prop (lit "data") b)])
  | DeleteEntity uuid =>
      Forward (mkMessage (lit "delete-entity") None [(lit "uuid", VString uuid)])
  | Roll =>
      if negb (truthy (prop (lit "formula") b))
      then badRequest "Formula parameter is required"
      else Forward (mkMessage (lit "perform-roll") None
             [(lit "formula", prop (lit "formula") b);
              (lit "actor", prop (lit "actor") b)])
  | Rolls => Forward (mkMessage (lit "get-rolls") None [])
  | Macro uuid =>
      Forward (mkMessage (lit "execute-macro") None
        [(lit "uuid", VString uuid); (lit "args", prop (lit "args") b)])
  | Structure => Forward (mkMessage (lit "get-structure") None [])
  | Contents =>
      Forward (mkMessage (lit "get-contents") None
        [(lit "path", prop (lit "path") (query req))])
  | Selected => Forward (mkMessage (lit "get-selected-entities") None [])
  | Select =>
      Forward (mkMessage (lit "select-entities") None
        [(lit "criteria", prop (lit "criteria") b)])
  | Execute =>
      if negb (truthy (prop (lit "code") b))
      then badRequest "Code parameter is required"
      else Forward (mkMessage (lit "execute-js") None
             [(lit "script", prop (lit "code") b)])
  | Macros => Forward (mkMessage (lit "get-macros") None [])
  | Hotbar page =>
      Forward (mkMessage (lit "get-hotbar") None
        (match page with
         | Some n => if n =? 0 then [] else [(lit "page", VOther true)]
         | None => []
         end))
  | Status =>
      Answer (mkRes 200
        (StatusReport (length connected) connected
           (if Nat.ltb 0 (length connected) then "connected" else "no-clients")%string
           now))
  | NoRoute _ => Unhandled
  end.

(** How far a request gets in the tick in which it is dispatched. *)
Inductive Dispatched :=
  | Answered (r : Response)
  | Awaiting (p : PromiseId)        (* the route awaits this promise *)
  | NotFound.                       (* the application's 404 *)

(** The router: the two middlewares in the order [setupRoutes] installs
    them, then the route.  [suffix] is what [generateRequestId] appends
    should the route reach the correlator. *)
Definition dispatch (now : Z) (suffix : JsString) (req : Request)
    : M State Dispatched :=
  let* auth := authenticate now req in
  match auth with
  | Respond r => ret (Answered r)
  | Next =>
      let* conn := checkConnection in
      match conn with
      | Respond r => ret (Answered r)
      | Next =>
          let* connected := gets getConnectedClients in
          match prepare now req connected with
          | Answer r => ret (Answered r)
          | Forward message =>
              let* p := sendMessageToFoundry now suffix message 30000 in
              ret (Awaiting p)
          | Unhandled => ret NotFound
          end
      end
  end.

(** [handleAsyncRoute], once the promise the route awaits is settled:
    [res.json(result)], or the [catch] branch. *)
Definition handleAsyncRoute (outcome : Settlement) : Response :=
  match outcome with
  | Resolved result => mkRes 200 (Result result)
  | Rejected reason => mkRes 500 (InternalServerError reason)
  end.

End RestApiRouter.


(** ** States the event loop can be in *)

Module Reachable.
Import WebSocketHandler.

(** *** References *)

(** Object references never dangle: a registered client and the client a
    listener closes over are records of the heap, and the socket of a
    record is a socket. *)
Definition valid_client (s : State) (c : ClientRef) : bool :=
  match heap s !! c with
  | Some client => Nat.ltb (socket client) (length (sockets s))
  | None => false
  end.

Definition refs_ok (s : State) : bool :=
  forallb (fun e => valid_client s (snd e)) (clients s)
  && forallb (fun ws => match listeners ws with
                        | Some (c, _) => valid_client s c
                        | None => true
                        end) (sockets s).

(** The references in [cs] are valid, besides those of the registry. *)
Definition valid_all (cs : list ClientRef) (s : State) : Prop :=
  refs_ok s = true /\ Forall (fun c => valid_client s c = true) cs.

(** *** The bookkeeping of the correlator *)

(** The promises whose [resolve] or [reject] has been called, one item per
    call. *)
Definition settled (s : State) : list PromiseId := map fst (settlements s).


(** The promises an armed timer will reject. *)
Definition awaited (s : State) : list PromiseId :=
  map (fun x => cb_promise (snd x)) (timers s).

Record Correlated (s : State) : Prop := mkCorrelated {
  timers_fresh :
    forall t cb, In (t, cb) (timers s) ->
      (t < nextTimer s)%nat /\ (cb_promise cb < nextPromise s)%nat;
  timers_distinct : NoDup (map fst (timers s));
  awaited_distinct : NoDup (awaited s);
  awaited_unsettled : forall p, In p (awaited s) -> ~ In p (settled s);
  pending_wf : JsMap.wf (pendingRequests s);
  pending_armed :
    forall k r, In (k, r) (pendingRequests s) ->
      exists ms, In (timeout r, mkCallback k (promise r) ms) (timers s);
  settled_fresh : forall p, In p (settled s) -> (p < nextPromise s)%nat;
  settled_once : NoDup (settled s);
  unsettled_awaited :
    forall p, (p < nextPromise s)%nat -> ~ In p (settled s) -> In p (awaited s)
}.

(** The states of a running server. *)
Definition Inv (s : State) : Prop := Correlated s /\ refs_ok s = true.

(** The members the correlator works on. *)
Definition corr (s : State) :=
  (pendingRequests s, timers s, nextTimer s, settlements s, nextPromise s).

(** Promises are only added, and so are the calls of their continuations. *)
Definition extends (s s' : State) : Prop :=
  (nextPromise s <= nextPromise s')%nat
  /\ exists l, settlements s' = settlements s ++ l.

(** A method keeps a property of the members, whether it returns or throws. *)
Definition keeps {A} (I : State -> Prop) (m : M State A) : Prop :=
  forall s, I s -> I (snd (m s)).

(** *** What the correlator does to its members *)

(** The three ways a pending request ends come to the same: its timer is
    cleared (or has just run), its entry is deleted and its continuation is
    called once. *)
Definition conclude (t : TimerId) (k : JsString) (p : PromiseId)
    (x : Settlement) (s : State) : State :=
  with_settlements (fun l => l ++ [(p, x)])
    (with_pendingRequests (JsMap.delete k)
       (with_timers (filter (fun y => fst y <> t)) s)).

(** A request that is registered: a new promise, a new timer, an entry. *)
Definition register (now : Z) (rid : JsString) (timeoutMs : Z) (s : State) : State :=
  with_pendingRequests
    (JsMap.set rid (mkPending (nextPromise s) (nextTimer s) now))
    (with_nextTimer S
       (with_timers
          (fun ts => ts ++ [(nextTimer s, mkCallback rid (nextPromise s) timeoutMs)])
          (with_nextPromise S s))).

(** A promise that is rejected as it is made. *)
Definition refuse (x : Settlement) (s : State) : State :=
  with_settlements (fun l => l ++ [(nextPromise s, x)]) (with_nextPromise S s).

(** What the sweep does to an entry that is too old. *)
Definition expire (e : JsString * PendingRequest) (s : State) : State :=
  conclude (timeout (snd e)) (fst e) (promise (snd e)) (Rejected RequestExpired) s.

Definition tooOld (now maxAgeMs : Z) (e : JsString * PendingRequest) : bool :=
  now - timestamp (snd e) >? maxAgeMs.

Definition sweepEntry (now maxAgeMs : Z) (s : State)
    (e : JsString * PendingRequest) : State :=
  if tooOld now maxAgeMs e then expire e s else s.

(** *** Frames and events the claims speak of *)


(** An event that takes the pending request of promise [p] down one of its
    three ways: a response frame carrying its id, its own deadline, or a
    sweep that finds it too old. *)
Definition destroys (s : State) (p : PromiseId) (e : Z * Event) : Prop :=
  match snd e with
  | Message ws (Json message) =>
      exists sock c k r,
        sockets s !! ws = Some sock /\ listeners sock = Some c
        /\ strictEq (in_type message) (lit "ping") = false
        /\ strictEq (in_type message) (lit "pong") = false
        /\ in_requestId message = VString k /\ k <> []
        /\ JsMap.get k (pendingRequests s) = Some r /\ promise r = p
  | TimerFires t =>
      exists cb, In (t, cb) (timers s) /\ cb_promise cb = p
  | Cleanup maxAgeMs =>
      exists k r,
        In (k, r) (pendingRequests s) /\ promise r = p
        /\ fst e - timestamp r > maxAgeMs
  | _ => False
  end.

(** An event that may change who is registered under [clientId]: an
    admission under that id, or the 'close' or 'error' event of a socket
    admitted under it. *)
Definition concerns (clientId : JsString) (s : State) (e : Z * Event) : bool :=
  match snd e with
  | Connection request _ => bool_decide (param_id request = Some clientId)
  | Close ws | Error ws =>
      match sockets s !! ws with
      | Some sock =>
          match listeners sock with
          | Some (_, k) => bool_decide (k = clientId)
          | None => false
          end
      | None => false
      end
  | _ => false
  end.

(** A run of events none of which concerns [clientId]. *)
Fixpoint undisturbed (clientId : JsString) (s : State) (es : list (Z * Event))
    : Prop :=
  match es with
  | [] => True
  | e :: es' =>
      concerns clientId s e = false /\ undisturbed clientId (step s e) es'
  end.

(** The connection correlated requests are sent to: the record registered
    under the first id of the registry. *)
Definition primary (s : State) : option ClientRef :=
  match getConnectedClients s with
  | firstClientId :: _ => JsMap.get firstClientId (clients s)
  | [] => None
  end.

(** *** Delivery *)

(** The socket a frame addressed to [clientId] goes out on: the socket of
    the record registered under the id, when it is open and its [send] does
    not throw. *)
Definition deliverable (s : State) (clientId : JsString) : option SockId :=
  match JsMap.get clientId (clients s) with
  | Some c =>
      match heap s !! c with
      | Some client =>
          match sockets s !! socket client with
          | Some sock =>
              match readyState sock with
              | OPEN => if sendThrows sock then None else Some (socket client)
              | _ => None
              end
          | None => None
          end
      | None => None
      end
  | None => None
  end.

(** One more frame handed to [send] on socket [ws]. *)
Definition push (message : WebSocketMessage) (ws : SockId) (s : State) : State :=
  with_sockets
    (alter (fun sock => mkSocket (readyState sock) (sent sock ++ [message])
                          (closeCalls sock) (sendThrows sock) (listeners sock)) ws)
    s.

(** The registered ids a broadcast is addressed to: all but a non-empty
    [excludeClient]. *)
Definition addressees (s : State) (excludeClient : option JsString)
    : list JsString :=
  filter (fun k => ~ (excludeClient = Some k /\ k <> []))
    (getConnectedClients s).

(** Socket [ws] is not open, and [frames] is what has been handed to its
    [send]. *)
Definition quiet (ws : SockId) (frames : list WebSocketMessage) (s : State) : Prop :=
  exists sock,
    sockets s !! ws = Some sock /\ sent sock = frames /\ readyState sock <> OPEN.

(** A credential the gate turns down: no active managed key, and not of
    the world-id format. *)
Definition turnedDown (m : EnhancedApiKeyManager.t) (key : JsString) : Prop :=
  validPattern_test key = false
  /\ (EnhancedApiKeyManager.initialized m = true ->
      forall k, EnhancedApiKeyManager.apiKeys m !! key = Some k ->
                ak_active k = false).

End Reachable.

(** ** A session, for the examples *)

Module Scenario.
Import WebSocketHandler.

Definition keys : EnhancedApiKeyManager.t := EnhancedApiKeyManager.mk ∅ true.

(** The client [gm-1] connects with the credential [abcdefgh12]. *)
Definition gm1 : IncomingMessage :=
  mkRequest (Some (lit "gm-1")) (Some (lit "abcdefgh12")).
Definition connected : State := step (init keys) (0, Connection gm1 false).

(** A roll is enqueued at time 10, with a deadline of two seconds; its id
    is generated: [req_1]. *)
Definition roll : WebSocketMessage :=
  mkMessage (lit "roll") None [(lit "formula", VString (lit "1d20"))].
Definition enqueued : State := step connected (10, Enqueue (lit "1") roll 2000).

(** The peer answers at time 60. *)
Definition rollResult : InboundMessage :=
  mkInbound (VString (lit "roll-result")) (VString (lit "req_1"))
    VUndefined VUndefined [(lit "total", VOther true)].
Definition resolved : State := step enqueued (60, Message 0%nat (Json rollResult)).

Definition pingFrame : InboundMessage :=
  mkInbound (VString (lit "ping")) VUndefined VUndefined VUndefined [].

(** The same client connects a second time, with the credential
    [xyz99999]. *)
Definition gm1_again : IncomingMessage :=
  mkRequest (Some (lit "gm-1")) (Some (lit "xyz99999")).
Definition superseded : State := step connected (200, Connection gm1_again false).

(** A second client, [gm-2], connects at time 5. *)
Definition gm2 : IncomingMessage :=
  mkRequest (Some (lit "gm-2")) (Some (lit "abcdefgh34")).
Definition two : State := step connected (5, Connection gm2 false).

(** The socket of the first client throws on [send]; a second client
    connects after it. *)
Definition deaf : State :=
  run (init keys) [(0, Connection gm1 true); (5, Connection gm2 false)].

(** A manager made where there is no key file: it creates its default key,
    [fvtt_abab...ab]. *)
Definition fresh1 : KeyStore.Fresh :=
  KeyStore.mkFresh (repeat 171%N 32) (lit "uuid-1").
Definition key1 : JsString :=
  lit "fvtt_" ++ KeyStore.toString_hex (repeat 171%N 32).
Definition store : KeyStore.t := KeyStore.new KeyStore.Missing false 0 fresh1.

(** What a second call of the generator draws: [fvtt_cdcd...cd]. *)
Definition fresh2 : KeyStore.Fresh :=
  KeyStore.mkFresh (repeat 205%N 32) (lit "uuid-2").
Definition key2 : JsString :=
  lit "fvtt_" ++ KeyStore.toString_hex (repeat 205%N 32).
End Scenario.

(** Projections of updated states. *)
Ltac fields :=
  cbn [WebSocketHandler.clients WebSocketHandler.pendingRequests
       WebSocketHandler.apiKeyManager WebSocketHandler.heap
       WebSocketHandler.sockets WebSocketHandler.timers
       WebSocketHandler.nextTimer WebSocketHandler.settlements
       WebSocketHandler.nextPromise WebSocketHandler.with_clients
       WebSocketHandler.with_pendingRequests WebSocketHandler.with_apiKeyManager
       WebSocketHandler.with_heap WebSocketHandler.with_sockets
       WebSocketHandler.with_timers WebSocketHandler.with_nextTimer
       WebSocketHandler.with_settlements WebSocketHandler.with_nextPromise] in *.

(** Unfolding the monad. *)
Ltac run_monad :=
  unfold bind, ret, throw, gets, modify, try_catch, zoom in *; cbn in *.

(** * Properties *)

(** ** Facts about [JsMap] *)

Section JsMapFacts.
Context {V : Type}.
Implicit Types (m : JsMap.t V) (k : JsString) (v : V).

Lemma get_set_eq m k v : JsMap.get k (JsMap.set k v m) = Some v.
Proof.
  induction m as [|[k' v'] m IH]; cbn.
  - rewrite decide_True; auto.
  - destruct (decide (k' = k)); cbn.
    + rewrite decide_True; auto.
    + rewrite decide_False; auto.
Qed.

Lemma get_set_ne m k k' v :
  k <> k' -> JsMap.get k' (JsMap.set k v m) = JsMap.get k' m.
Proof.
  intros Hne. induction m as [|[k0 v0] m IH]; cbn.
  - rewrite decide_False; auto.
  - destruct (decide (k0 = k)) as [->|]; cbn.
    + rewrite !decide_False; auto.
    + destruct (decide (k0 = k')); auto.
Qed.

Lemma get_delete_eq m k : JsMap.get k (JsMap.delete k m) = None.
Proof.
  induction m as [|[k0 v0] m IH]; cbn; auto.
  destruct (decide (k0 = k)); cbn; auto.
  rewrite decide_False; auto.
Qed.

Lemma get_delete_ne m k k' :
  k <> k' -> JsMap.get k' (JsMap.delete k m) = JsMap.get k' m.
Proof.
  intros Hne. induction m as [|[k0 v0] m IH]; cbn; auto.
  destruct (decide (k0 = k)) as [->|]; cbn.
  - rewrite decide_False; auto.
  - destruct (decide (k0 = k')); auto.
Qed.

Lemma get_Some_In m k v : JsMap.get k m = Some v -> In (k, v) m.
Proof.
  induction m as [|[k0 v0] m IH]; cbn; [discriminate|].
  destruct (decide (k0 = k)) as [->|]; intros H.
  - injection H as ->. now left.
  - right. auto.
Qed.

Lemma In_keys m k v : In (k, v) m -> In k (JsMap.keys m).
Proof.
  intros H. unfold JsMap.keys. apply in_map_iff. exists (k, v). auto.
Qed.

Lemma get_None_keys m k : JsMap.get k m = None <-> ~ In k (JsMap.keys m).
Proof.
  induction m as [|[k0 v0] m IH]; cbn.
  - tauto.
  - destruct (decide (k0 = k)) as [->|].
    + split; [discriminate | intros H; exfalso; apply H; now left].
    + rewrite IH. tauto.
Qed.

Lemma In_get m k v : JsMap.wf m -> In (k, v) m -> JsMap.get k m = Some v.
Proof.
  unfold JsMap.wf. induction m as [|[k0 v0] m IH]; cbn; [tauto|].
  intros Hnd [Heq|Hin].
  - injection Heq as -> ->. rewrite decide_True; auto.
  - apply NoDup_cons in Hnd as [Hnotin Hnd].
    destruct (decide (k0 = k)) as [->|]; [|auto].
    exfalso. apply Hnotin. apply list_elem_of_In. eapply In_keys; eauto.
Qed.

Lemma keys_set_present m k v :
  JsMap.has k m = true -> JsMap.keys (JsMap.set k v m) = JsMap.keys m.
Proof.
  unfold JsMap.has. induction m as [|[k0 v0] m IH]; cbn; [discriminate|].
  destruct (decide (k0 = k)) as [->|]; cbn; [reflexivity|].
  intros H. f_equal. auto.
Qed.

Lemma keys_set_absent m k v :
  JsMap.has k m = false -> JsMap.keys (JsMap.set k v m) = JsMap.keys m ++ [k].
Proof.
  unfold JsMap.has. induction m as [|[k0 v0] m IH]; cbn; [reflexivity|].
  destruct (decide (k0 = k)) as [->|]; cbn; [discriminate|].
  intros H. f_equal. auto.
Qed.

Lemma delete_absent m k : JsMap.get k m = None -> JsMap.delete k m = m.
Proof.
  induction m as [|[k0 v0] m IH]; cbn; auto.
  destruct (decide (k0 = k)); [discriminate|].
  intros H. f_equal. auto.
Qed.

Lemma In_delete m k e : In e (JsMap.delete k m) <-> In e m /\ fst e <> k.
Proof.
  induction m as [|[k0 v0] m IH]; cbn; [tauto|].
  destruct (decide (k0 = k)) as [->|]; cbn.
  - rewrite IH. split; [tauto|]. intros [[<-|H] Hne]; cbn in *; tauto.
  - rewrite IH. split; [|tauto].
    intros [<-|H]; cbn; tauto.
Qed.

Lemma In_set m k v e :
  In e (JsMap.set k v m) -> e = (k, v) \/ In e m.
Proof.
  induction m as [|[k0 v0] m IH]; cbn.
  - intros [<-|[]]. now left.
  - destruct (decide (k0 = k)) as [->|]; cbn.
    + intros [<-|H]; tauto.
    + intros [<-|H]; [tauto|]. destruct (IH H); tauto.
Qed.

Lemma wf_set m k v : JsMap.wf m -> JsMap.wf (JsMap.set k v m).
Proof.
  unfold JsMap.wf. intros Hnd.
  destruct (JsMap.has k m) eqn:Hhas.
  - now rewrite keys_set_present.
  - rewrite keys_set_absent by auto.
    apply NoDup_app. split; [auto|]. split; [|apply NoDup_singleton].
    intros x Hx Hx'. apply list_elem_of_singleton in Hx'. subst x.
    unfold JsMap.has in Hhas.
    destruct (JsMap.get k m) eqn:Hget; [discriminate|].
    apply get_None_keys in Hget. apply Hget. now apply list_elem_of_In.
Qed.

Lemma keys_delete m k :
  JsMap.keys (JsMap.delete k m) = filter (fun x => x <> k) (JsMap.keys m).
Proof.
  unfold JsMap.keys.
  induction m as [|[k0 v0] m IH]; [reflexivity|].
  cbn [JsMap.delete map fst].
  destruct (decide (k0 = k)) as [->|].
  - rewrite filter_cons_False by tauto. auto.
  - rewrite filter_cons_True by tauto. cbn [map fst]. f_equal. auto.
Qed.

Lemma wf_delete m k : JsMap.wf m -> JsMap.wf (JsMap.delete k m).
Proof.
  unfold JsMap.wf. rewrite keys_delete. apply NoDup_filter.
Qed.

Lemma wf_nil : JsMap.wf (@nil (JsString * V)).
Proof. apply NoDup_nil_2. Qed.

End JsMapFacts.

(** ** Equations of the monad *)

Section MonadFacts.
Context {S A B : Type}.
Implicit Types (s : S) (k : A -> M S B).

Lemma bind_ret (a : A) k s : bind (ret a) k s = k a s.
Proof. reflexivity. Qed.

Lemma bind_throw e k s : bind (throw e) k s = (Throw e, s).
Proof. reflexivity. Qed.

Lemma bind_gets (f : S -> A) k s : bind (gets f) k s = k (f s) s.
Proof. reflexivity. Qed.

Lemma bind_modify (f : S -> S) (k : unit -> M S B) s :
  bind (modify f) k s = k tt (f s).
Proof. reflexivity. Qed.

Lemma bind_Ok (m : M S A) k s a s' : m s = (Ok a, s') -> bind m k s = k a s'.
Proof. unfold bind. now intros ->. Qed.

Lemma bind_Throw (m : M S A) k s e s' :
  m s = (Throw e, s') -> bind m k s = (Throw e, s').
Proof. unfold bind. now intros ->. Qed.

Lemma bind_assoc {C} (m : M S A) k (k' : B -> M S C) s :
  bind (bind m k) k' s = bind m (fun a => bind (k a) k') s.
Proof. unfold bind. destruct (m s) as [[a|e] s']; reflexivity. Qed.
End MonadFacts.

Ltac monad_step :=
  first [ rewrite bind_assoc | rewrite bind_ret | rewrite bind_throw
        | rewrite bind_gets | rewrite bind_modify ];
  cbn beta.

Ltac monad_run := repeat monad_step.

(** ** The authentication gate *)


Lemma timingSafeEqual_valid {S} (s : S) :
  timingSafeEqual (Buffer_from "valid") (Buffer_from "valid") s = (Ok true, s).
Proof. reflexivity. Qed.

Lemma timingSafeEqual_invalid {S} (s : S) :
  timingSafeEqual (Buffer_from "invalid") (Buffer_from "valid") s
  = (Throw RangeError, s).
Proof. reflexivity. Qed.

(** The managed-key check of either manager never throws once the manager is
    initialized, and leaves the flags alone. *)
Lemma enhanced_validateApiKey_total now key m :
  exists b m', EnhancedApiKeyManager.validateApiKey now key m = (Ok b, m').
Proof.
  unfold EnhancedApiKeyManager.validateApiKey. run_monad.
  destruct (EnhancedApiKeyManager.initialized m); cbn; eauto.
  destruct (EnhancedApiKeyManager.apiKeys m !! key) as [k|]; cbn; eauto.
  destruct (ak_active k); cbn; eauto.
Qed.

(** The world-id check of [EnhancedApiKeyManager] is the pattern, and it
    never throws. *)
Lemma enhanced_validateFoundryWorldId_spec worldId m :
  EnhancedApiKeyManager.validateFoundryWorldId worldId m
  = (Ok (validPattern_test worldId), m).
Proof.
  unfold EnhancedApiKeyManager.validateFoundryWorldId, validPattern_test.
  destruct worldId as [|c w]; [reflexivity|].
  cbn [is_empty orb].
  destruct (Nat.ltb (length (c :: w)) 8) eqn:Hlt.
  - apply Nat.ltb_lt in Hlt.
    replace (Nat.leb 8 (length (c :: w))) with false
      by (symmetry; apply Nat.leb_gt; lia).
    now rewrite andb_false_r.
  - apply Nat.ltb_ge in Hlt.
    replace (Nat.leb 8 (length (c :: w))) with true
      by (symmetry; apply Nat.leb_le; lia).
    unfold try_catch, bind. rewrite timingSafeEqual_valid. cbn.
    now rewrite andb_true_r.
Qed.

(** [EnhancedApiKeyManager.isValidKey] is total: on every credential it
    returns a boolean. *)
Lemma enhanced_isValidKey_total now key m :
  exists b m', EnhancedApiKeyManager.isValidKey now key m = (Ok b, m').
Proof.
  unfold EnhancedApiKeyManager.isValidKey, bind.
  destruct (enhanced_validateApiKey_total now key m) as (b & m' & ->).
  destruct b; [unfold ret; eauto|].
  rewrite enhanced_validateFoundryWorldId_spec.
  destruct (validPattern_test key); unfold ret; eauto.
Qed.


(** The world-id check of [SecureApiKeyManager] compares the seven bytes of
    ['invalid'] with the five of ['valid'] on a short string, and that
    throws. *)
Lemma secure_validateFoundryWorldId_spec worldId m :
  SecureApiKeyManager.validateFoundryWorldId worldId m
  = (if Nat.leb 8 (length worldId) then Ok (validPattern_test worldId)
     else Throw RangeError, m).
Proof.
  unfold SecureApiKeyManager.validateFoundryWorldId, bind.
  destruct (Nat.leb 8 (length worldId)).
  - rewrite timingSafeEqual_valid. reflexivity.
  - rewrite timingSafeEqual_invalid. reflexivity.
Qed.

Lemma secure_validateApiKey_initialized storage now key m :
  SecureApiKeyManager.isInitialized m = true ->
  exists b m', SecureApiKeyManager.validateApiKey storage now key m = (Ok b, m')
    /\ (b = true <->
        exists k, SecureApiKeyManager.apiKeys m !! key = Some k /\ ak_active k = true).
Proof.
  intros Hinit. unfold SecureApiKeyManager.validateApiKey. run_monad.
  rewrite Hinit. cbn.
  destruct (SecureApiKeyManager.apiKeys m !! key) as [k|] eqn:Hk; cbn.
  - destruct (ak_active k) eqn:Hact; cbn.
    + do 2 eexists. split; [reflexivity|]. split; eauto.
    + do 2 eexists. split; [reflexivity|]. split; [discriminate|].
      intros (k' & [= <-] & ?). congruence.
  - do 2 eexists. split; [reflexivity|]. split; [discriminate|].
    intros (k' & [=] & ?).
Qed.

(** Every credential of fewer than eight code units that is not an active
    managed key makes [SecureApiKeyManager.isValidKey] throw. *)
Lemma secure_isValidKey_short_throws storage now key m :
  SecureApiKeyManager.isInitialized m = true ->
  (length key < 8)%nat ->
  (forall k, SecureApiKeyManager.apiKeys m !! key = Some k -> ak_active k = false) ->
  fst (SecureApiKeyManager.isValidKey storage now key m) = Throw RangeError.
Proof.
  intros Hinit Hlen Hnot. unfold SecureApiKeyManager.isValidKey, bind.
  destruct (secure_validateApiKey_initialized storage now key m Hinit)
    as (b & m' & -> & Hb).
  destruct b.
  - destruct (proj1 Hb eq_refl) as (k & Hk & Hact).
    rewrite (Hnot k Hk) in Hact. discriminate.
  - rewrite secure_validateFoundryWorldId_spec.
    replace (Nat.leb 8 (length key)) with false
      by (symmetry; apply Nat.leb_gt; lia).
    reflexivity.
Qed.



(** ** The REST facade *)

Import WebSocketHandler RestApiRouter.

(** The key check changes nothing of the handler but the key manager. *)
Lemma gate_frame now key s :
  exists b m',
    zoom apiKeyManager (fun m => with_apiKeyManager (fun _ => m))
      (EnhancedApiKeyManager.isValidKey now key) s
    = (Ok b, with_apiKeyManager (fun _ => m') s)
    /\ EnhancedApiKeyManager.isValidKey now key (apiKeyManager s) = (Ok b, m').
Proof.
  unfold zoom.
  destruct (enhanced_isValidKey_total now key (apiKeyManager s)) as (b & m' & ->).
  eauto.
Qed.

(** The first middleware always answers or passes on; it never throws, and
    it leaves the registry as it was. *)
Lemma authenticate_total now req s :
  exists r m',
    authenticate now req s = (Ok r, with_apiKeyManager (fun _ => m') s).
Proof.
  unfold authenticate.
  destruct (bool_decide (path (route req) = lit "/status")).
  - exists Next, (apiKeyManager s). destruct s; reflexivity.
  - destruct (x_api_key req) as [apiKey|].
    + destruct (is_empty apiKey).
      * eexists _, (apiKeyManager s). destruct s; reflexivity.
      * unfold try_catch, bind.
        destruct (gate_frame now apiKey s) as (b & m' & -> & _).
        destruct b; cbn; unfold ret; eauto.
    + eexists _, (apiKeyManager s). destruct s; reflexivity.
Qed.


(** Whatever the route, a request that passes the key check while no client
    is registered is answered 503 by the second middleware. *)
Lemma dispatch_no_clients now suffix req s :
  getConnectedClients s = [] ->
  fst (authenticate now req s) = Ok Next ->
  fst (dispatch now suffix req s) = Ok (Answered noClients).
Proof.
  intros Hnone Hauth. unfold dispatch, bind.
  destruct (authenticate_total now req s) as (r & m' & Heq).
  rewrite Heq in *. cbn in Hauth. injection Hauth as ->.
  unfold checkConnection, bind, gets.
  replace (getConnectedClients (with_apiKeyManager (fun _ => m') s))
    with (getConnectedClients s) by reflexivity.
  rewrite Hnone. reflexivity.
Qed.


(** ** References stay valid *)

Import Reachable.

Lemma valid_client_ext s s' c :
  heap s' = heap s -> length (sockets s') = length (sockets s) ->
  valid_client s' c = valid_client s c.
Proof. unfold valid_client. now intros -> ->. Qed.

Lemma forallb_pointwise {A} (f g : A -> bool) l :
  (forall x, f x = g x) -> forallb f l = forallb g l.
Proof.
  intros H. induction l as [|x l IH]; cbn; [reflexivity|]. now rewrite H, IH.
Qed.

Lemma refs_ok_pointwise s s' :
  clients s' = clients s ->
  (forall c, valid_client s' c = valid_client s c) ->
  listeners <$> sockets s' = listeners <$> sockets s ->
  refs_ok s' = refs_ok s.
Proof.
  intros Hc Hv Hl.
  unfold refs_ok. rewrite Hc. f_equal.
  - apply forallb_pointwise. intros e. apply Hv.
  - set (f := fun s0 (o : option (ClientRef * JsString)) =>
                match o with
                | Some (c, _) => valid_client s0 c
                | None => true
                end).
    transitivity (forallb (f s') (listeners <$> sockets s')).
    { clear. induction (sockets s') as [|w ws IH]; cbn; [reflexivity|].
      now rewrite IH. }
    rewrite Hl.
    transitivity (forallb (f s) (listeners <$> sockets s)).
    { apply forallb_pointwise. intros [[c k]|]; cbn; [|reflexivity]. apply Hv. }
    clear. induction (sockets s) as [|w ws IH]; cbn; [reflexivity|].
    now rewrite IH.
Qed.

Lemma refs_ok_ext s s' :
  clients s' = clients s -> heap s' = heap s ->
  listeners <$> sockets s' = listeners <$> sockets s ->
  refs_ok s' = refs_ok s.
Proof.
  intros Hc Hh Hl. apply refs_ok_pointwise; auto.
  intros c. apply valid_client_ext; auto.
  rewrite <- (length_fmap listeners (sockets s')), Hl. apply length_fmap.
Qed.

(** Writing [lastPing] into a record keeps every reference valid. *)
Lemma refs_ok_lastPing s client c t :
  heap s !! client = Some c ->
  refs_ok (with_heap (fun h =>
             <[client := mkClient (id c) (socket c) (authenticated c) (token c) t]> h) s)
  = refs_ok s.
Proof.
  intros Hc. apply refs_ok_pointwise; try reflexivity.
  intros c'. unfold valid_client, with_heap. cbn [heap sockets].
  destruct (decide (client = c')) as [<-|Hne].
  - rewrite list_lookup_insert_eq by (apply lookup_lt_is_Some; eauto).
    now rewrite Hc.
  - now rewrite list_lookup_insert_ne.
Qed.

Lemma refs_ok_client s k c :
  refs_ok s = true -> JsMap.get k (clients s) = Some c ->
  exists client sock,
    heap s !! c = Some client /\ sockets s !! socket client = Some sock.
Proof.
  unfold refs_ok. intros Hok Hget.
  apply andb_true_iff in Hok as [Hok _].
  rewrite forallb_forall in Hok.
  specialize (Hok (k, c) (get_Some_In _ _ _ Hget)). cbn in Hok.
  unfold valid_client in Hok.
  destruct (heap s !! c) as [client|]; [|discriminate].
  apply Nat.ltb_lt in Hok. apply lookup_lt_is_Some_2 in Hok as [sock Hsock].
  eauto.
Qed.

Lemma refs_ok_listener s ws sock c k :
  refs_ok s = true -> sockets s !! ws = Some sock -> listeners sock = Some (c, k) ->
  exists client other,
    heap s !! c = Some client /\ sockets s !! socket client = Some other.
Proof.
  unfold refs_ok. intros Hok Hws Hl.
  apply andb_true_iff in Hok as [_ Hok].
  rewrite forallb_forall in Hok.
  assert (Hin : In sock (sockets s)).
  { apply list_elem_of_In. eapply list_elem_of_lookup_2; eauto. }
  specialize (Hok sock Hin). rewrite Hl in Hok.
  unfold valid_client in Hok.
  destruct (heap s !! c) as [client|]; [|discriminate].
  apply Nat.ltb_lt in Hok. apply lookup_lt_is_Some_2 in Hok as [other Hother].
  eauto.
Qed.

Lemma listeners_insert (ss : list WebSocket) (ws : nat) sock sock' :
  ss !! ws = Some sock -> listeners sock' = listeners sock ->
  listeners <$> <[ws := sock']> ss = listeners <$> ss.
Proof.
  intros Hws Hl. rewrite list_fmap_insert, Hl.
  apply list_insert_id. now rewrite list_lookup_fmap, Hws.
Qed.

(** [sendToClient] returns a boolean, and all it can change is what has been
    sent on a socket. *)
Lemma sendToClient_spec k message s :
  refs_ok s = true ->
  exists b ss,
    sendToClient k message s = (Ok b, with_sockets (fun _ => ss) s)
    /\ listeners <$> ss = listeners <$> sockets s.
Proof.
  intros Hok. unfold sendToClient, bind, gets.
  destruct (JsMap.get k (clients s)) as [c|] eqn:Hget.
  - destruct (refs_ok_client s k c Hok Hget) as (client & sock & Hc & Hsock).
    unfold deref, socket_readyState, bind, gets. rewrite Hc. cbn.
    rewrite Hsock. cbn.
    destruct (readyState sock) eqn:Hrs;
      try (exists false, (sockets s); split; [destruct s; reflexivity|reflexivity]).
    unfold try_catch, socket_send, bind, gets. rewrite Hsock.
    destruct (sendThrows sock) eqn:Hthrows; cbn.
    + exists false, (sockets s). split; [destruct s; reflexivity|reflexivity].
    + eexists true, _. split; [reflexivity|].
      eapply listeners_insert; eauto.
  - exists false, (sockets s). split; [destruct s; reflexivity|reflexivity].
Qed.

Lemma sendToClient_refs_ok k message s :
  refs_ok s = true -> refs_ok (snd (sendToClient k message s)) = true.
Proof.
  intros Hok. destruct (sendToClient_spec k message s Hok) as (b & ss & -> & Hl).
  cbn. rewrite <- Hok. apply refs_ok_ext; auto.
Qed.

(** ** The dispatcher *)


(** What [handleMessage] does with a frame it does not take for a response:
    it returns, and can only have written [lastPing] and sent a frame. *)
Lemma deref_Some client c s : heap s !! client = Some c -> deref client s = (Ok c, s).
Proof. unfold deref. rewrite bind_gets. now intros ->. Qed.

Lemma handleMessage_unsolicited now client data s :
  refs_ok s = true -> valid_client s client = true ->
  (forall message,
     data = Json message ->
     strictEq (in_type message) (lit "ping") = false ->
     strictEq (in_type message) (lit "pong") = false ->
     (if truthy (in_requestId message)
      then pendingOf (in_requestId message) (pendingRequests s) else None) = None) ->
  exists s',
    handleMessage now client data s = (Ok tt, s')
    /\ corr s' = corr s /\ clients s' = clients s /\ refs_ok s' = true.
Proof.
  intros Hok Hvalid Hun. unfold valid_client in Hvalid.
  destruct (heap s !! client) as [c|] eqn:Hc; [|discriminate].
  assert (Hcatch : exists s',
    (let* c := deref client in sendToClient (id c) invalidFormat ;; ret tt) s
    = (Ok tt, s') /\ corr s' = corr s /\ clients s' = clients s /\ refs_ok s' = true).
  { rewrite (bind_Ok _ _ _ _ _ (deref_Some _ _ _ Hc)).
    pose proof (sendToClient_refs_ok (id c) invalidFormat s Hok) as Hok'.
    destruct (sendToClient_spec (id c) invalidFormat s Hok) as (b & ss & Hsend & _).
    rewrite Hsend in Hok'. rewrite (bind_Ok _ _ _ _ _ Hsend).
    eexists. split; [reflexivity|]. auto. }
  destruct Hcatch as (s0 & Hcatch & Hs0).
  unfold handleMessage, try_catch.
  destruct data as [| |message]; cbn [JSON_parse].
  - rewrite bind_throw, Hcatch. eauto.
  - rewrite bind_throw, Hcatch. eauto.
  - rewrite bind_ret. rewrite (bind_Ok _ _ _ _ _ (deref_Some _ _ _ Hc)).
    destruct (strictEq (in_type message) (lit "ping")) eqn:Hping.
    + rewrite bind_modify.
      match goal with |- context [bind (sendToClient ?k ?m) _ ?s0] =>
        assert (Hok' : refs_ok s0 = true)
          by (rewrite <- Hok; apply (refs_ok_lastPing s client c (Some now) Hc));
        pose proof (sendToClient_refs_ok k m s0 Hok') as Hok'';
        destruct (sendToClient_spec k m s0 Hok') as (b & ss & Hsend & _)
      end.
      rewrite Hsend in Hok''. rewrite (bind_Ok _ _ _ _ _ Hsend).
      eexists. split; [reflexivity|]. auto.
    + destruct (strictEq (in_type message) (lit "pong")) eqn:Hpong.
      * exists s. auto.
      * rewrite bind_gets, (Hun message eq_refl Hping Hpong). exists s. auto.
Qed.

(** What it does with a response to a pending request. *)
Lemma handleMessage_response now client c message k r s :
  heap s !! client = Some c ->
  strictEq (in_type message) (lit "ping") = false ->
  strictEq (in_type message) (lit "pong") = false ->
  (if truthy (in_requestId message)
   then pendingOf (in_requestId message) (pendingRequests s) else None) = Some (k, r) ->
  exists x,
    handleMessage now client (Json message) s
    = (Ok tt, conclude (timeout r) k (promise r) x s).
Proof.
  intros Hc Hping Hpong Hpending.
  unfold handleMessage, try_catch. cbn [JSON_parse].
  rewrite bind_ret, (bind_Ok _ _ _ _ _ (deref_Some _ _ _ Hc)), Hping, Hpong.
  rewrite bind_gets, Hpending. unfold clearTimeout, settle.
  rewrite bind_modify, bind_modify.
  destruct (truthy (in_error message) || strictEq (in_status message) (lit "error"));
    eexists; reflexivity.
Qed.

Lemma pendingOf_Some v m k r :
  pendingOf v m = Some (k, r) -> v = VString k /\ JsMap.get k m = Some r.
Proof.
  unfold pendingOf. destruct v as [|k'|]; try discriminate.
  destruct (JsMap.get k' m) as [r'|] eqn:Hget; [|discriminate].
  now intros [= <- <-].
Qed.


(** ** The sweep *)

Lemma cleanup_loop now maxAgeMs l s :
  forEach l (fun '(k, request) =>
      if now - timestamp request >? maxAgeMs then
        clearTimeout (timeout request) ;;
        modify (with_pendingRequests (JsMap.delete k)) ;;
        settle (promise request) (Rejected RequestExpired)
      else ret tt) s
  = (Ok tt, fold_left (sweepEntry now maxAgeMs) l s).
Proof.
  revert s. induction l as [|[k r] l IH]; intros s; [reflexivity|].
  cbn [forEach fold_left]. unfold sweepEntry at 2, tooOld. cbn [fst snd].
  destruct (now - timestamp r >? maxAgeMs).
  - unfold clearTimeout, settle. rewrite bind_assoc, bind_modify.
    rewrite bind_assoc, bind_modify. rewrite bind_modify. apply IH.
  - rewrite bind_ret. apply IH.
Qed.

Lemma cleanupExpiredRequests_spec now maxAgeMs s :
  cleanupExpiredRequests now maxAgeMs s
  = (Ok tt, fold_left (sweepEntry now maxAgeMs) (pendingRequests s) s).
Proof.
  unfold cleanupExpiredRequests. rewrite bind_gets. apply cleanup_loop.
Qed.

Lemma sweep_settlements now maxAgeMs l s :
  settlements (fold_left (sweepEntry now maxAgeMs) l s)
  = settlements s
    ++ map (fun e => (promise (snd e), Rejected RequestExpired))
         (List.filter (tooOld now maxAgeMs) l).
Proof.
  revert s. induction l as [|e l IH]; intros s; cbn [fold_left List.filter map].
  - now rewrite app_nil_r.
  - rewrite IH. unfold sweepEntry. destruct (tooOld now maxAgeMs e); [|reflexivity].
    cbn. now rewrite <- app_assoc.
Qed.

Lemma sweep_pending now maxAgeMs l s k :
  JsMap.get k (pendingRequests (fold_left (sweepEntry now maxAgeMs) l s))
  = if existsb (fun e => bool_decide (fst e = k) && tooOld now maxAgeMs e) l
    then None else JsMap.get k (pendingRequests s).
Proof.
  revert s. induction l as [|e l IH]; intros s; cbn [fold_left existsb]; [reflexivity|].
  rewrite IH. unfold sweepEntry.
  destruct (tooOld now maxAgeMs e) eqn:Hold; cbn [andb].
  - rewrite andb_true_r. cbn.
    destruct (bool_decide_reflect (fst e = k)) as [<-|Hne]; cbn.
    + rewrite get_delete_eq. now destruct (existsb _ l).
    + now rewrite get_delete_ne.
  - now rewrite andb_false_r.
Qed.

Lemma sweep_timers now maxAgeMs l s t :
  In t (map fst (timers (fold_left (sweepEntry now maxAgeMs) l s))) <->
  In t (map fst (timers s))
  /\ ~ In t (map (fun e => timeout (snd e)) (List.filter (tooOld now maxAgeMs) l)).
Proof.
  revert s. induction l as [|e l IH]; intros s; cbn [fold_left List.filter map].
  - cbn. tauto.
  - rewrite IH. unfold sweepEntry.
    destruct (tooOld now maxAgeMs e); [|tauto].
    cbn [map In]. unfold expire. cbn [timers with_settlements with_pendingRequests with_timers].
    rewrite !in_map_iff.
    split.
    + intros [(x & <- & Hx) Hnot].
      apply list_elem_of_In, list_elem_of_filter in Hx as [Hne Hx].
      apply list_elem_of_In in Hx.
      split; [eauto|]. intros [Heq|Hin]; [congruence|tauto].
    + intros [(x & <- & Hx) Hnot]. split; [|tauto].
      exists x. split; [reflexivity|].
      apply list_elem_of_In, list_elem_of_filter. split.
      * intros Heq. apply Hnot. now left.
      * now apply list_elem_of_In.
Qed.

(** ** The bookkeeping of the correlator is an invariant *)

Section ListFacts.
Context {A B : Type} (f : A -> B).

Lemma NoDup_map_filter (P : A -> Prop) `{forall x, Decision (P x)} (l : list A) :
  NoDup (map f l) -> NoDup (map f (filter P l)).
Proof.
  induction l as [|a l IH]; cbn [map]; [now rewrite filter_nil|].
  intros Hnd. apply NoDup_cons in Hnd as [Hnotin Hnd].
  rewrite filter_cons. destruct (decide (P a)); [|auto].
  cbn [map]. apply NoDup_cons. split; [|auto].
  intros Hin. apply Hnotin.
  apply list_elem_of_In, in_map_iff in Hin as (b & Hb & Hin).
  apply list_elem_of_In, list_elem_of_filter in Hin as [_ Hin].
  apply list_elem_of_In, in_map_iff. exists b. split; [auto|].
  now apply list_elem_of_In.
Qed.

Lemma NoDup_map_In_eq (l : list A) a b :
  NoDup (map f l) -> In a l -> In b l -> f a = f b -> a = b.
Proof.
  induction l as [|c l IH]; cbn [map]; [contradiction|].
  intros Hnd. apply NoDup_cons in Hnd as [Hnotin Hnd].
  assert (Hno : forall x, In x l -> f x <> f c).
  { intros x Hx Heq. apply Hnotin. apply list_elem_of_In, in_map_iff. eauto. }
  intros [<-|Ha] [<-|Hb] Heq; auto.
  - exfalso. now apply (Hno b Hb).
  - exfalso. now apply (Hno a Ha).
Qed.

Lemma NoDup_snoc (l : list B) b : NoDup l -> ~ In b l -> NoDup (l ++ [b]).
Proof.
  intros Hnd Hnotin. apply NoDup_app. split; [auto|]. split.
  - intros x Hx Hx'. apply list_elem_of_singleton in Hx'. subst.
    now apply Hnotin, list_elem_of_In.
  - apply NoDup_singleton.
Qed.
End ListFacts.

Lemma In_timers_filter (t : TimerId) (ts : list (TimerId * TimerCallback)) x :
  In x (filter (fun y => fst y <> t) ts) <-> In x ts /\ fst x <> t.
Proof.
  rewrite <- !list_elem_of_In, list_elem_of_filter. tauto.
Qed.

Lemma Correlated_ext s s' : corr s' = corr s -> Correlated s -> Correlated s'.
Proof.
  unfold corr. intros [= Hp Ht Hnt Hs Hnp] [].
  constructor; unfold settled, awaited in *; rewrite ?Hp, ?Ht, ?Hnt, ?Hs, ?Hnp; auto.
Qed.

Lemma extends_ext s s' : corr s' = corr s -> extends s s'.
Proof.
  unfold corr, extends. intros [= Hp Ht Hnt Hs Hnp]. rewrite Hs, Hnp.
  split; [lia|]. exists []. now rewrite app_nil_r.
Qed.

Lemma extends_refl s : extends s s.
Proof. now apply extends_ext. Qed.

Lemma extends_trans s1 s2 s3 : extends s1 s2 -> extends s2 s3 -> extends s1 s3.
Proof.
  intros [Hn (l & Hl)] [Hn' (l' & Hl')]. split; [lia|].
  exists (l ++ l'). now rewrite Hl', Hl, app_assoc.
Qed.

(** A pending request that ends. *)
Lemma Correlated_conclude t k p ms x s :
  Correlated s -> In (t, mkCallback k p ms) (timers s) ->
  Correlated (conclude t k p x s).
Proof.
  intros [Hfresh Hdist Hadist Hunset Hwf Harmed Hsfresh Honce Hawait] Hin.
  assert (Hother : forall t' cb,
            In (t', cb) (timers s) -> cb_promise cb = p -> t' = t).
  { intros t' cb Hin' Hp.
    assert (Heq : (t', cb) = (t, mkCallback k p ms)); [|congruence].
    apply (NoDup_map_In_eq (fun y => cb_promise (snd y)) (timers s)); auto. }
  assert (Hp : In p (awaited s)).
  { unfold awaited. apply in_map_iff. exists (t, mkCallback k p ms). auto. }
  constructor; unfold conclude, settled, awaited in *; fields.
  - intros t' cb Hin'. apply In_timers_filter in Hin' as [Hin' _]. auto.
  - now apply NoDup_map_filter.
  - now apply (NoDup_map_filter (fun y => cb_promise (snd y))).
  - intros q Hq. rewrite map_app, in_app_iff. cbn [map fst In].
    apply in_map_iff in Hq as ([t' cb] & <- & Hin').
    apply In_timers_filter in Hin' as [Hin' Hne]. cbn [fst snd] in *.
    intros [Hset|[Heq|[]]].
    + apply (Hunset (cb_promise cb)); [|assumption].
      apply in_map_iff. exists (t', cb). auto.
    + apply Hne. apply (Hother t' cb); auto.
  - now apply wf_delete.
  - intros k' r Hin'. apply In_delete in Hin' as [Hin' Hne]. cbn [fst] in Hne.
    destruct (Harmed k' r Hin') as (ms' & Harm). exists ms'.
    apply In_timers_filter. split; [assumption|]. cbn [fst]. intros Heq.
    assert (Hsame : (timeout r, mkCallback k' (promise r) ms') = (t, mkCallback k p ms)).
    { apply (NoDup_map_In_eq fst (timers s)); auto. }
    congruence.
  - intros q. rewrite map_app, in_app_iff. cbn [map fst In].
    intros [Hq|[<-|[]]]; [auto|]. apply (Hfresh t _ Hin).
  - rewrite map_app. cbn [map fst]. apply NoDup_snoc; [assumption|].
    now apply Hunset.
  - intros q Hlt Hnot. rewrite map_app, in_app_iff in Hnot. cbn [map fst In] in Hnot.
    assert (Hq : In q (map (fun y => cb_promise (snd y)) (timers s))) by (apply Hawait; tauto).
    apply in_map_iff in Hq as ([t' cb] & Hcb & Hin'). cbn [snd] in Hcb.
    apply in_map_iff. exists (t', cb). split; [assumption|].
    apply In_timers_filter. split; [assumption|]. cbn [fst]. intros ->.
    assert (Hsame : (t, cb) = (t, mkCallback k p ms)).
    { apply (NoDup_map_In_eq fst (timers s)); auto. }
    injection Hsame as ->. cbn in Hcb. tauto.
Qed.

Lemma extends_conclude t k p x s : extends s (conclude t k p x s).
Proof. split; [reflexivity|]. now exists [(p, x)]. Qed.

Lemma Correlated_register now rid timeoutMs s :
  Correlated s -> Correlated (register now rid timeoutMs s).
Proof.
  intros [Hfresh Hdist Hadist Hunset Hwf Harmed Hsfresh Honce Hawait].
  constructor; unfold register, settled, awaited in *; fields.
  - intros t cb Hin. apply in_app_iff in Hin as [Hin|[[= <- <-]|[]]].
    + destruct (Hfresh t cb Hin). lia.
    + cbn. lia.
  - rewrite map_app. cbn [map fst]. apply NoDup_snoc; [assumption|].
    intros Hin. apply in_map_iff in Hin as ([t cb] & Ht & Hin). cbn in Ht. subst t.
    destruct (Hfresh _ _ Hin). lia.
  - rewrite map_app. cbn [map snd cb_promise]. apply NoDup_snoc; [assumption|].
    intros Hin. apply in_map_iff in Hin as ([t cb] & Hp & Hin). cbn in Hp.
    destruct (Hfresh _ _ Hin). lia.
  - intros p. rewrite map_app, in_app_iff. cbn [map snd cb_promise In].
    intros [Hp|[<-|[]]]; [auto|].
    intros Hin. apply Hsfresh in Hin. lia.
  - now apply wf_set.
  - intros k r Hin. apply In_set in Hin as [[= -> ->]|Hin].
    + exists timeoutMs. apply in_app_iff. right. now left.
    + destruct (Harmed k r Hin) as (ms & Hms). exists ms.
      apply in_app_iff. now left.
  - intros p Hp. apply Hsfresh in Hp. lia.
  - assumption.
  - intros p Hlt Hnot. rewrite map_app, in_app_iff. cbn [map snd cb_promise In].
    destruct (decide (p = nextPromise s)) as [->|Hne]; [tauto|].
    left. apply Hawait; [lia|assumption].
Qed.

Lemma extends_register now rid timeoutMs s : extends s (register now rid timeoutMs s).
Proof. split; [cbn; lia|]. exists []. cbn. now rewrite app_nil_r. Qed.

Lemma Correlated_refuse x s : Correlated s -> Correlated (refuse x s).
Proof.
  intros [Hfresh Hdist Hadist Hunset Hwf Harmed Hsfresh Honce Hawait].
  constructor; unfold refuse, settled, awaited in *; fields; auto.
  - intros t cb Hin. destruct (Hfresh t cb Hin). lia.
  - intros p Hp. rewrite map_app, in_app_iff. cbn [map fst In].
    intros [Hin|[<-|[]]]; [now apply (Hunset p)|].
    apply in_map_iff in Hp as ([t cb] & Hcb & Hin). cbn in Hcb.
    destruct (Hfresh _ _ Hin). lia.
  - intros p. rewrite map_app, in_app_iff. cbn [map fst In].
    intros [Hp|[<-|[]]]; [|lia]. apply Hsfresh in Hp. lia.
  - rewrite map_app. cbn [map fst]. apply NoDup_snoc; [assumption|].
    intros Hin. apply Hsfresh in Hin. lia.
  - intros p Hlt Hnot. rewrite map_app, in_app_iff in Hnot. cbn [map fst In] in Hnot.
    apply Hawait; [|tauto].
    destruct (decide (p = nextPromise s)); [|lia].
    exfalso. apply Hnot. right. left. congruence.
Qed.

Lemma extends_refuse x s : extends s (refuse x s).
Proof. split; [cbn; lia|]. now exists [(nextPromise s, x)]. Qed.

(** ** References stay valid, continued *)

Lemma refs_ok_iff s :
  refs_ok s = true <->
  (forall e, In e (clients s) -> valid_client s (snd e) = true)
  /\ (forall sock c k, In sock (sockets s) -> listeners sock = Some (c, k) ->
        valid_client s c = true).
Proof.
  unfold refs_ok. rewrite andb_true_iff, !forallb_forall. split.
  - intros [Hc Hs]. split; [assumption|].
    intros sock c k Hin Hl. specialize (Hs sock Hin). now rewrite Hl in Hs.
  - intros [Hc Hs]. split; [assumption|].
    intros sock Hin. destruct (listeners sock) as [[c k]|] eqn:Hl; [|reflexivity].
    eauto.
Qed.

Lemma In_insert {A} (l : list A) (i : nat) (x y : A) :
  In y (<[i := x]> l) -> y = x \/ In y l.
Proof.
  revert i. induction l as [|a l IH]; intros [|i]; cbn; try tauto.
  - intros [<-|H]; tauto.
  - intros [<-|H]; [tauto|]. destruct (IH i H); tauto.
Qed.

Section Keeps.
Context {A B : Type} (I : State -> Prop).

Lemma keeps_ret (a : A) : keeps I (ret a).
Proof. intros s. auto. Qed.

Lemma keeps_throw e : keeps I (@throw State A e).
Proof. intros s. auto. Qed.

Lemma keeps_gets (f : State -> A) : keeps I (gets f).
Proof. intros s. auto. Qed.

Lemma keeps_modify f : (forall s, I s -> I (f s)) -> keeps I (modify f).
Proof. intros H s. apply H. Qed.

Lemma keeps_bind (m : M State A) (k : A -> M State B) :
  keeps I m -> (forall a, keeps I (k a)) -> keeps I (bind m k).
Proof.
  intros Hm Hk s HI. specialize (Hm s HI). unfold bind.
  destruct (m s) as [[a|e] s']; cbn in *; [now apply Hk|assumption].
Qed.

Lemma keeps_try_catch (m : M State A) h :
  keeps I m -> (forall e, keeps I (h e)) -> keeps I (try_catch m h).
Proof.
  intros Hm Hh s HI. specialize (Hm s HI). unfold try_catch.
  destruct (m s) as [[a|e] s']; cbn in *; [assumption|now apply Hh].
Qed.

Lemma keeps_zoom {T} (proj : State -> T) upd (m : M T A) :
  (forall s t, I s -> I (upd t s)) -> keeps I (zoom proj upd m).
Proof.
  intros H s HI. unfold zoom. destruct (m (proj s)) as [r t']. cbn. now apply H.
Qed.
End Keeps.

Ltac keeps_step :=
  first [ apply keeps_ret | apply keeps_throw | apply keeps_gets
        | apply keeps_bind; [|intros ?]
        | apply keeps_try_catch; [|intros ?]
        | match goal with
          | |- keeps _ (match ?x with _ => _ end) => destruct x
          end ].

(** Nothing but the correlator writes the members of the correlator. *)
Lemma sendToClient_keeps_corr c k message :
  keeps (fun s => corr s = c) (sendToClient k message).
Proof.
  unfold sendToClient, deref, socket_readyState, socket_send.
  repeat keeps_step; apply keeps_modify; intros s H; exact H.
Qed.

Lemma handleConnection_keeps_corr c now ws request :
  keeps (fun s => corr s = c) (handleConnection now ws request).
Proof.
  unfold handleConnection, deref, socket_readyState, socket_close, socket_on.
  repeat keeps_step;
    try (apply keeps_modify; intros s H; exact H);
    try (apply keeps_zoom; intros s t H; exact H);
    try apply sendToClient_keeps_corr.
Qed.

Lemma valid_all_sockets cs f s :
  listeners <$> f (sockets s) = listeners <$> sockets s ->
  valid_all cs s -> valid_all cs (with_sockets f s).
Proof.
  intros Hf [Hok Hcs].
  assert (Hlen : length (sockets (with_sockets f s)) = length (sockets s)).
  { fields. rewrite <- (length_fmap listeners (f _)), Hf. apply length_fmap. }
  split.
  - rewrite <- Hok. apply refs_ok_ext; fields; auto.
  - eapply Forall_impl; [exact Hcs|]. intros c Hc. cbn beta in *.
    rewrite <- Hc. now apply valid_client_ext.
Qed.

Lemma listeners_update (ss : list WebSocket) (ws : SockId) g :
  (forall sock, listeners (g sock) = listeners sock) ->
  listeners <$> match ss !! ws with
                | Some sock => <[ws := g sock]> ss
                | None => ss
                end
  = listeners <$> ss.
Proof.
  intros Hg. destruct (ss !! ws) as [sock|] eqn:Hws; [|reflexivity].
  eapply listeners_insert; eauto.
Qed.

Lemma socket_close_keeps cs ws code reason :
  keeps (valid_all cs) (socket_close ws code reason).
Proof.
  unfold socket_close. apply keeps_modify. intros s. apply valid_all_sockets.
  now apply (listeners_update (sockets s) ws
    (fun s0 => mkSocket (match readyState s0 with OPEN => CLOSING | r => r end)
                 (sent s0) (closeCalls s0 ++ [(code, reason)]) (sendThrows s0)
                 (listeners s0))).
Qed.

Lemma sendToClient_keeps cs k message : keeps (valid_all cs) (sendToClient k message).
Proof.
  intros s [Hok Hcs].
  destruct (sendToClient_spec k message s Hok) as (b & ss & -> & Hl).
  cbn [snd]. apply valid_all_sockets; [exact Hl|now split].
Qed.

Lemma valid_client_sockets_same s f c :
  (forall ss, length (f ss) = length ss) ->
  valid_client (with_sockets f s) c = valid_client s c.
Proof. intros Hf. apply valid_client_ext; fields; auto. Qed.

(** Registering listeners that close over a valid record. *)
Lemma socket_on_keeps cs ws client clientId :
  In client cs -> keeps (valid_all cs) (socket_on ws client clientId).
Proof.
  intros Hin. unfold socket_on. apply keeps_modify. intros s [Hok Hcs].
  set (f := fun ss : list WebSocket =>
              match ss !! ws with
              | Some s0 => <[ws := mkSocket (readyState s0) (sent s0) (closeCalls s0)
                                     (sendThrows s0) (Some (client, clientId))]> ss
              | None => ss
              end).
  assert (Hlen : forall ss, length (f ss) = length ss).
  { intros ss. unfold f. destruct (ss !! ws); [apply length_insert|reflexivity]. }
  assert (Hv : forall c, valid_client (with_sockets f s) c = valid_client s c).
  { intros c. now apply valid_client_sockets_same. }
  split.
  - apply refs_ok_iff in Hok as [Hc Hs]. apply refs_ok_iff. split.
    + intros e He. rewrite Hv. now apply Hc.
    + intros sock c k Hsock Hl. rewrite Hv. fields. unfold f in Hsock.
      destruct (sockets s !! ws) as [s0|]; [|eauto].
      apply In_insert in Hsock as [->|Hsock]; [|eauto].
      cbn in Hl. injection Hl as <- <-.
      rewrite Forall_forall in Hcs. apply Hcs. now apply list_elem_of_In.
  - eapply Forall_impl; [exact Hcs|]. intros c Hc. cbn beta in *. now rewrite Hv.
Qed.

Lemma valid_client_clients s f c : valid_client (with_clients f s) c = valid_client s c.
Proof. reflexivity. Qed.

Lemma clients_set_keeps cs k client :
  In client cs -> keeps (valid_all cs) (modify (with_clients (JsMap.set k client))).
Proof.
  intros Hin. apply keeps_modify. intros s [Hok Hcs]. split; [|exact Hcs].
  apply refs_ok_iff in Hok as [Hc Hs]. apply refs_ok_iff. split; [|exact Hs].
  intros e He. rewrite valid_client_clients. fields.
  apply In_set in He as [->|He]; [|now apply Hc].
  rewrite Forall_forall in Hcs. apply Hcs. now apply list_elem_of_In.
Qed.

Lemma clients_delete_keeps cs k :
  keeps (valid_all cs) (modify (with_clients (JsMap.delete k))).
Proof.
  apply keeps_modify. intros s [Hok Hcs]. split; [|exact Hcs].
  apply refs_ok_iff in Hok as [Hc Hs]. apply refs_ok_iff. split; [|exact Hs].
  intros e He. rewrite valid_client_clients. fields.
  apply In_delete in He as [He _]. now apply Hc.
Qed.

Lemma gate_keeps cs now key :
  keeps (valid_all cs)
    (zoom apiKeyManager (fun m => with_apiKeyManager (fun _ => m))
       (EnhancedApiKeyManager.isValidKey now key)).
Proof. apply keeps_zoom. intros s t H. exact H. Qed.

Lemma valid_client_grow s s' c :
  (forall client, heap s !! c = Some client -> heap s' !! c = Some client) ->
  (length (sockets s) <= length (sockets s'))%nat ->
  valid_client s c = true -> valid_client s' c = true.
Proof.
  unfold valid_client. intros Hh Hlen.
  destruct (heap s !! c) as [client|]; [|discriminate].
  rewrite (Hh client eq_refl). intros H. apply Nat.ltb_lt in H. apply Nat.ltb_lt. lia.
Qed.

(** A new record, for a socket that exists. *)
Lemma heap_alloc_valid cs client s :
  (socket client < length (sockets s))%nat ->
  valid_all cs s ->
  valid_all (length (heap s) :: cs) (with_heap (fun h => h ++ [client]) s).
Proof.
  intros Hws [Hok Hcs].
  assert (Hgrow : forall c, valid_client s c = true ->
                    valid_client (with_heap (fun h => h ++ [client]) s) c = true).
  { intros c. apply valid_client_grow; fields; [|lia].
    intros r Hr. now apply lookup_app_l_Some. }
  split; [|apply Forall_cons; split].
  - apply refs_ok_iff in Hok as [Hc Hs]. apply refs_ok_iff. split.
    + intros e He. apply Hgrow. now apply Hc.
    + intros sock c k Hsock Hl. apply Hgrow. eauto.
  - unfold valid_client. fields. rewrite list_lookup_middle by reflexivity.
    now apply Nat.ltb_lt.
  - eapply Forall_impl; [exact Hcs|]. intros c Hc. now apply Hgrow.
Qed.

(** A new socket, without listeners. *)
Lemma socket_accept_valid cs sock s :
  listeners sock = None ->
  valid_all cs s -> valid_all cs (with_sockets (fun ss => ss ++ [sock]) s).
Proof.
  intros Hnone [Hok Hcs].
  assert (Hgrow : forall c, valid_client s c = true ->
                    valid_client (with_sockets (fun ss => ss ++ [sock]) s) c = true).
  { intros c. apply valid_client_grow; fields; [auto|]. rewrite length_app. lia. }
  split.
  - apply refs_ok_iff in Hok as [Hc Hs]. apply refs_ok_iff. split.
    + intros e He. apply Hgrow. now apply Hc.
    + intros sock' c k Hsock Hl. apply Hgrow. fields.
      apply in_app_iff in Hsock as [Hsock|[<-|[]]]; [eauto|congruence].
  - eapply Forall_impl; [exact Hcs|]. intros c Hc. now apply Hgrow.
Qed.

(** ** Every event keeps the invariant *)

Lemma Inv_frame s s' :
  corr s' = corr s -> refs_ok s' = true -> Inv s -> Inv s' /\ extends s s'.
Proof.
  intros Hcorr Hok [HC _]. split; [split|]; auto.
  - now apply (Correlated_ext s).
  - now apply extends_ext.
Qed.

Ltac refs_step :=
  first [ apply socket_close_keeps | apply sendToClient_keeps
        | apply socket_on_keeps; [now left]
        | apply clients_set_keeps; [now left]
        | apply clients_delete_keeps
        | apply gate_keeps
        | keeps_step ].

Lemma handleConnection_refs now ws request s :
  refs_ok s = true -> (ws < length (sockets s))%nat ->
  refs_ok (snd (handleConnection now ws request s)) = true.
Proof.
  intros Hok Hws.
  assert (Hall : valid_all [] s) by (split; [assumption|constructor]).
  assert (Hclose : forall code reason,
            refs_ok (snd (socket_close ws code reason s)) = true).
  { intros code reason. now apply (socket_close_keeps [] ws code reason s). }
  unfold handleConnection.
  destruct (param_id request) as [clientId|]; [|apply Hclose].
  destruct (param_token request) as [tok|]; [|apply Hclose].
  destruct (is_empty clientId || is_empty tok); [apply Hclose|].
  destruct (gate_frame now tok s) as (b & m' & Hgate & _).
  rewrite (bind_Ok _ _ _ _ _ Hgate).
  set (s1 := with_apiKeyManager (fun _ => m') s).
  assert (Hall1 : valid_all [] s1) by exact Hall.
  destruct b; cbn [negb].
  - rewrite bind_gets, bind_modify.
    match goal with |- refs_ok (snd (?m ?s2)) = true =>
      assert (Hkeeps : keeps (valid_all [length (heap s1)]) m);
      [|apply (Hkeeps s2)]
    end.
    + unfold deref, socket_readyState. repeat refs_step.
    + apply heap_alloc_valid; [exact Hws|exact Hall1].
  - now apply (socket_close_keeps [] ws _ _ s1).
Qed.

Lemma onConnection_Inv now request throws s :
  Inv s ->
  Inv (snd (onConnection now request throws s))
  /\ extends s (snd (onConnection now request throws s)).
Proof.
  intros HI. apply Inv_frame; [| |exact HI].
  - assert (Hk : keeps (fun s' => corr s' = corr s) (onConnection now request throws)).
    { unfold onConnection. repeat keeps_step.
      - apply keeps_modify. intros s0 H. exact H.
      - apply handleConnection_keeps_corr. }
    now apply Hk.
  - unfold onConnection. rewrite bind_gets, bind_modify.
    apply handleConnection_refs.
    + apply (socket_accept_valid [] _ s); [reflexivity|].
      split; [apply HI|constructor].
    + fields. rewrite length_app. cbn. lia.
Qed.

Lemma onClose_Inv ws s :
  Inv s -> Inv (snd (onClose ws s)) /\ extends s (snd (onClose ws s)).
Proof.
  intros HI. apply Inv_frame; [| |exact HI].
  - assert (Hk : keeps (fun s' => corr s' = corr s) (onClose ws)).
    { unfold onClose. repeat keeps_step; apply keeps_modify; intros s0 H; exact H. }
    now apply Hk.
  - assert (Hall : valid_all [] s) by (split; [apply HI|constructor]).
    unfold onClose. rewrite bind_gets.
    destruct (sockets s !! ws) as [sock|] eqn:Hws; [|apply HI].
    rewrite bind_modify.
    match goal with |- refs_ok (snd (_ ?s1)) = true =>
      assert (Hall1 : valid_all [] s1)
    end.
    { apply valid_all_sockets; [|exact Hall]. eapply listeners_insert; eauto. }
    destruct (listeners sock) as [[c k]|]; [|apply Hall1].
    now apply (clients_delete_keeps [] k).
Qed.

Lemma onError_Inv ws s :
  Inv s -> Inv (snd (onError ws s)) /\ extends s (snd (onError ws s)).
Proof.
  intros HI. apply Inv_frame; [| |exact HI].
  - assert (Hk : keeps (fun s' => corr s' = corr s) (onError ws)).
    { unfold onError. repeat keeps_step; apply keeps_modify; intros s0 H; exact H. }
    now apply Hk.
  - assert (Hall : valid_all [] s) by (split; [apply HI|constructor]).
    unfold onError. rewrite bind_gets.
    destruct (sockets s !! ws) as [sock|] eqn:Hws; [|apply HI].
    destruct (listeners sock) as [[c k]|]; [|apply HI].
    now apply (clients_delete_keeps [] k).
Qed.

Lemma refs_ok_corr_only s s' :
  clients s' = clients s -> heap s' = heap s -> sockets s' = sockets s ->
  refs_ok s' = refs_ok s.
Proof. intros Hc Hh Hs. apply refs_ok_ext; auto. now rewrite Hs. Qed.

(** A response, a deadline, an expiry: the invariant holds after each. *)
Lemma conclude_Inv t k p ms x s :
  Inv s -> In (t, mkCallback k p ms) (timers s) ->
  Inv (conclude t k p x s) /\ extends s (conclude t k p x s).
Proof.
  intros [HC Hok] Hin. split; [split|].
  - eapply Correlated_conclude; eauto.
  - rewrite <- Hok. now apply refs_ok_corr_only.
  - apply extends_conclude.
Qed.

Lemma onMessage_Inv now ws data s :
  Inv s ->
  Inv (snd (onMessage now ws data s)) /\ extends s (snd (onMessage now ws data s)).
Proof.
  intros HI. pose proof HI as [HC Hok].
  unfold onMessage. rewrite bind_gets.
  destruct (sockets s !! ws) as [sock|] eqn:Hws;
    [|split; [exact HI|apply extends_refl]].
  destruct (listeners sock) as [[client k0]|] eqn:Hl;
    [|split; [exact HI|apply extends_refl]].
  destruct (refs_ok_listener s ws sock client k0 Hok Hws Hl)
    as (c & other & Hc & Hother).
  assert (Hvalid : valid_client s client = true).
  { unfold valid_client. rewrite Hc. apply Nat.ltb_lt.
    apply lookup_lt_is_Some. eauto. }
  assert (Hunsol : forall d,
    (forall message, d = Json message ->
       strictEq (in_type message) (lit "ping") = false ->
       strictEq (in_type message) (lit "pong") = false ->
       (if truthy (in_requestId message)
        then pendingOf (in_requestId message) (pendingRequests s) else None) = None) ->
    Inv (snd (handleMessage now client d s))
    /\ extends s (snd (handleMessage now client d s))).
  { intros d Hd.
    destruct (handleMessage_unsolicited now client d s Hok Hvalid Hd)
      as (s' & -> & Hcorr & _ & Hok').
    now apply Inv_frame. }
  destruct data as [| |message];
    [apply Hunsol; intros m [=] | apply Hunsol; intros m [=] |].
  destruct (strictEq (in_type message) (lit "ping")) eqn:Hping;
    [apply Hunsol; intros m [= <-] Hp; congruence|].
  destruct (strictEq (in_type message) (lit "pong")) eqn:Hpong;
    [apply Hunsol; intros m [= <-] _ Hp; congruence|].
  destruct (if truthy (in_requestId message)
            then pendingOf (in_requestId message) (pendingRequests s) else None)
    as [[k r]|] eqn:Hpending;
    [|apply Hunsol; intros m [= <-] _ _; exact Hpending].
  destruct (handleMessage_response now client c message k r s Hc Hping Hpong Hpending)
    as (x & ->).
  cbn [snd].
  assert (Hget : JsMap.get k (pendingRequests s) = Some r).
  { destruct (truthy (in_requestId message)); [|discriminate].
    now apply pendingOf_Some in Hpending. }
  destruct (pending_armed s HC k r (get_Some_In _ _ _ Hget)) as (ms & Hin).
  eapply conclude_Inv; eauto.
Qed.

Lemma onTimerFires_Inv t s :
  Inv s ->
  Inv (snd (onTimerFires t s)) /\ extends s (snd (onTimerFires t s)).
Proof.
  intros HI. unfold onTimerFires. rewrite bind_gets.
  destruct (find _ (timers s)) as [[t' cb]|] eqn:Hfind;
    [|split; [exact HI|apply extends_refl]].
  apply find_some in Hfind as [Hin Ht]. apply bool_decide_eq_true in Ht.
  cbn in Ht. subst t'.
  rewrite bind_modify. unfold onTimeout, settle. rewrite bind_modify.
  cbn [snd modify]. destruct cb as [k p ms].
  apply (conclude_Inv t k p ms); [exact HI|exact Hin].
Qed.

Lemma sweep_Inv now maxAgeMs l s :
  Inv s -> NoDup (map fst l) -> (forall e, In e l -> In e (pendingRequests s)) ->
  Inv (fold_left (sweepEntry now maxAgeMs) l s)
  /\ extends s (fold_left (sweepEntry now maxAgeMs) l s).
Proof.
  revert s. induction l as [|[k r] l IH]; intros s HI Hnd Hsub; cbn [fold_left].
  - split; [exact HI|apply extends_refl].
  - cbn [map fst] in Hnd. apply NoDup_cons in Hnd as [Hnotin Hnd].
    unfold sweepEntry at 2 4. destruct (tooOld now maxAgeMs (k, r)).
    + destruct HI as [HC Hok].
      destruct (pending_armed s HC k r (Hsub _ (or_introl eq_refl))) as (ms & Hin).
      destruct (conclude_Inv (timeout r) k (promise r) ms (Rejected RequestExpired) s
                  (conj HC Hok) Hin) as [HI' Hext].
      destruct (IH (expire (k, r) s) HI' Hnd) as [HI'' Hext'].
      * intros e He. unfold expire, conclude. fields. apply In_delete.
        split; [apply Hsub; now right|]. cbn [fst]. intros Heq.
        apply Hnotin. apply list_elem_of_In, in_map_iff. exists e. auto.
      * split; [exact HI''|]. eapply extends_trans; eauto.
    + apply IH; auto. intros e He. apply Hsub. now right.
Qed.

Lemma cleanup_Inv now maxAgeMs s :
  Inv s ->
  Inv (snd (cleanupExpiredRequests now maxAgeMs s))
  /\ extends s (snd (cleanupExpiredRequests now maxAgeMs s)).
Proof.
  intros HI. rewrite cleanupExpiredRequests_spec. cbn [snd].
  apply sweep_Inv; auto. apply HI.
Qed.

Lemma register_Inv now rid timeoutMs s :
  Inv s ->
  Inv (register now rid timeoutMs s) /\ extends s (register now rid timeoutMs s).
Proof.
  intros [HC Hok]. split; [split|].
  - now apply Correlated_register.
  - rewrite <- Hok. now apply refs_ok_corr_only.
  - apply extends_register.
Qed.

Lemma refuse_Inv x s : Inv s -> Inv (refuse x s) /\ extends s (refuse x s).
Proof.
  intros [HC Hok]. split; [split|].
  - now apply Correlated_refuse.
  - rewrite <- Hok. now apply refs_ok_corr_only.
  - apply extends_refuse.
Qed.

(** [sendMessageToFoundry] returns the promise it has made, and the
    invariant holds of the state it leaves. *)
Lemma sendMessageToFoundry_Inv now suffix message timeoutMs s :
  Inv s ->
  exists s',
    sendMessageToFoundry now suffix message timeoutMs s = (Ok (nextPromise s), s')
    /\ Inv s' /\ extends s s' /\ nextPromise s' = S (nextPromise s).
Proof.
  intros HI. unfold sendMessageToFoundry, newPromise.
  monad_run. fields.
  destruct (Nat.eqb (JsMap.size (clients s)) 0).
  - unfold settle. monad_run.
    eexists. split; [reflexivity|].
    destruct (refuse_Inv (Rejected NoClientsConnected) s HI) as [HI' Hext].
    split; [exact HI'|]. split; [exact Hext|reflexivity].
  - set (rid := match requestId message with
                | Some r => if is_empty r then generateRequestId suffix else r
                | None => generateRequestId suffix
                end).
    unfold setTimeout. monad_run. fields.
    destruct (register_Inv now rid timeoutMs s HI) as [HI1 Hext1].
    set (s1 := register now rid timeoutMs s) in *.
    match goal with |- context [bind _ _ ?s0] => change s0 with s1 end.
    destruct (JsMap.keys (clients s)) as [|firstClientId rest].
    + monad_run. exists s1. auto.
    + monad_run.
      match goal with |- context [bind (sendToClient ?k ?m) _ _] =>
        pose proof (sendToClient_refs_ok k m s1 (proj2 HI1)) as Hok2;
        pose proof (sendToClient_keeps_corr (corr s1) k m s1 eq_refl) as Hcorr2;
        destruct (sendToClient_spec k m s1 (proj2 HI1)) as (b & ss & Hsend & _)
      end.
      rewrite Hsend in Hok2, Hcorr2. cbn [snd] in Hok2, Hcorr2.
      rewrite (bind_Ok _ _ _ _ _ Hsend).
      destruct (Inv_frame s1 _ Hcorr2 Hok2 HI1) as [HI2 Hext2].
      destruct b; cbn [negb].
      * monad_run. eexists. split; [reflexivity|].
        split; [exact HI2|]. split; [|reflexivity].
        eapply extends_trans; eauto.
      * unfold clearTimeout, settle. monad_run.
        eexists. split; [reflexivity|].
        match goal with |- Inv ?s3 /\ _ =>
          destruct (conclude_Inv (nextTimer s) rid (nextPromise s) timeoutMs
                      (Rejected SendFailed) _ HI2) as [HI3 Hext3];
          [|change s3 with (conclude (nextTimer s) rid (nextPromise s)
                              (Rejected SendFailed) (with_sockets (fun _ => ss) s1))]
        end.
        -- fields. apply in_app_iff. right. now left.
        -- split; [exact HI3|]. split; [|reflexivity].
           eapply extends_trans; [exact Hext1|].
           eapply extends_trans; [exact Hext2|exact Hext3].
Qed.

(** Every event keeps the invariant, and only adds to the log. *)
Lemma step_Inv s e : Inv s -> Inv (step s e) /\ extends s (step s e).
Proof.
  intros HI. destruct e as [now ev]. unfold step, handle. cbn [fst snd].
  destruct ev as [request throws|ws data|ws|ws|suffix message timeoutMs|t|maxAgeMs].
  - now apply onConnection_Inv.
  - now apply onMessage_Inv.
  - now apply onClose_Inv.
  - now apply onError_Inv.
  - destruct (sendMessageToFoundry_Inv now suffix message timeoutMs s HI)
      as (s' & Hrun & HI' & Hext & _).
    rewrite (bind_Ok _ _ _ _ _ Hrun). cbn. auto.
  - now apply onTimerFires_Inv.
  - now apply cleanup_Inv.
Qed.

Lemma run_Inv es s : Inv s -> Inv (run s es) /\ extends s (run s es).
Proof.
  revert s. induction es as [|e es IH]; intros s HI; cbn [run fold_left].
  - split; [exact HI|apply extends_refl].
  - destruct (step_Inv s e HI) as [HI' Hext].
    destruct (IH _ HI') as [HI'' Hext'].
    split; [exact HI''|]. eapply extends_trans; eauto.
Qed.

Lemma init_Inv keys : Inv (init keys).
Proof.
  split; [|reflexivity].
  constructor; unfold settled, awaited; cbn; try (intros; contradiction);
    try apply NoDup_nil_2.
  intros p Hp. lia.
Qed.

(** Every state a server reaches from its start satisfies the invariant, and
    with it the side conditions of the statements above: references are
    valid, and the keys of the two maps are distinct. *)
Corollary reachable_Inv keys es : Inv (run (init keys) es).
Proof. apply run_Inv, init_Inv. Qed.

Corollary reachable_refs_ok keys es : refs_ok (run (init keys) es) = true.
Proof. apply reachable_Inv. Qed.

Corollary reachable_pending_wf keys es :
  JsMap.wf (pendingRequests (run (init keys) es)).
Proof. apply pending_wf, reachable_Inv. Qed.

(** ** Each promise is settled once *)








(** In the session of the examples, each of the three ways is open to the
    request enqueued at time 10. *)
Example enqueued_can_end_three_ways :
  destroys Scenario.enqueued 0%nat (60, Message 0%nat (Json Scenario.rollResult))
  /\ destroys Scenario.enqueued 0%nat (2010, TimerFires 0%nat)
  /\ destroys Scenario.enqueued 0%nat (90000, Cleanup 60000).
Proof.
  split; [|split].
  - exists (mkSocket OPEN [welcome; mkMessage (lit "roll") (Some (lit "req_1"))
                                     [(lit "formula", VString (lit "1d20"))]]
              [] false (Some (0%nat, lit "gm-1"))),
      (0%nat, lit "gm-1"), (lit "req_1"), (mkPending 0%nat 0%nat 10).
    repeat split; try reflexivity. discriminate.
  - exists (mkCallback (lit "req_1") 0%nat 2000). split; [now left|reflexivity].
  - exists (lit "req_1"), (mkPending 0%nat 0%nat 10).
    split; [now left|]. split; reflexivity.
Qed.

(** The session of the examples, continued: the response at time 60 resolves
    the promise; the same response again, the timer of the request and a
    sweep then find nothing to settle. *)
Example resolved_once :
  let late := [(70, Message 0%nat (Json Scenario.rollResult));
               (2010, TimerFires 0%nat);
               (90000, Cleanup 60000)] in
  settlements Scenario.resolved = [(0%nat, Resolved Scenario.rollResult)]
  /\ settlements (run Scenario.resolved late) = [(0%nat, Resolved Scenario.rollResult)]
  /\ pendingRequests (run Scenario.resolved late) = []
  /\ timers (run Scenario.resolved late) = [].
Proof. vm_compute. repeat split; reflexivity. Qed.

(** ** The registry, event by event *)

Lemma keeps_forEach {A} (I : State -> Prop) (l : list A) (body : A -> M State unit) :
  (forall x, keeps I (body x)) -> keeps I (forEach l body).
Proof.
  intros Hbody. induction l as [|x l IH]; cbn [forEach].
  - apply keeps_ret.
  - apply keeps_bind; [apply Hbody|]. intros _. exact IH.
Qed.

Ltac unfold_handlers :=
  unfold handle, onConnection, handleConnection, onMessage, handleMessage,
    onClose, onError, sendMessageToFoundry, onTimerFires, onTimeout,
    cleanupExpiredRequests, sendToClient, deref, socket_readyState,
    socket_close, socket_send, socket_on, setTimeout, clearTimeout,
    newPromise, settle, JSON_parse.

(** A property of the registry that [set] and [delete] keep is kept by every
    event handler but for the writes listed. *)
Ltac keeps_all tac :=
  repeat first
    [ keeps_step
    | apply keeps_forEach; intros [? ?]
    | apply keeps_zoom; intros ? ? ?; fields; solve [tac]
    | apply keeps_modify; intros ? ?; fields; solve [tac] ].

(** The ids of the registry are distinct: no two connections hold one id. *)
Lemma step_clients_wf s e : JsMap.wf (clients s) -> JsMap.wf (clients (step s e)).
Proof.
  intros Hwf. destruct e as [now ev]. unfold step. cbn [fst snd].
  revert s Hwf. change (keeps (fun s => JsMap.wf (clients s)) (handle now ev)).
  destruct ev; unfold_handlers;
    keeps_all ltac:(auto using wf_set, wf_delete).
Qed.

Lemma run_clients_wf es s : JsMap.wf (clients s) -> JsMap.wf (clients (run s es)).
Proof.
  revert s. induction es as [|e es IH]; intros s Hwf; cbn [run fold_left]; [exact Hwf|].
  apply IH. now apply step_clients_wf.
Qed.

Corollary reachable_clients_wf keys es : JsMap.wf (clients (run (init keys) es)).
Proof. apply run_clients_wf, wf_nil. Qed.

(** An event that does not concern an id leaves its registration alone. *)
Lemma step_registration_frame clientId s e :
  concerns clientId s e = false ->
  JsMap.get clientId (clients (step s e)) = JsMap.get clientId (clients s).
Proof.
  destruct e as [now ev]. unfold concerns, step. cbn [fst snd]. intros Hnot.
  set (v := JsMap.get clientId (clients s)).
  assert (Hv : JsMap.get clientId (clients s) = v) by reflexivity. clearbody v.
  destruct ev as [request throws|ws data|ws|ws|suffix message timeoutMs|t|maxAgeMs].
  - apply bool_decide_eq_false in Hnot. destruct request as [pid ptok].
    cbn in Hnot. revert s Hv.
    change (keeps (fun s => JsMap.get clientId (clients s) = v)
              (handle now (Connection (mkRequest pid ptok) throws))).
    unfold_handlers. cbn [param_id param_token].
    destruct pid as [k|]; [|keeps_all ltac:(assumption)].
    assert (Hne : k <> clientId) by congruence.
    keeps_all ltac:(try rewrite get_set_ne by exact Hne; assumption).
  - revert s Hv.
    change (keeps (fun s => JsMap.get clientId (clients s) = v)
              (handle now (Message ws data))).
    unfold_handlers. keeps_all ltac:(assumption).
  - cbn [handle]. unfold onClose. rewrite bind_gets.
    destruct (sockets s !! ws) as [sock|]; [|exact Hv].
    rewrite bind_modify.
    destruct (listeners sock) as [[c k]|]; [|exact Hv].
    apply bool_decide_eq_false in Hnot.
    cbn. now rewrite get_delete_ne.
  - cbn [handle]. unfold onError. rewrite bind_gets.
    destruct (sockets s !! ws) as [sock|]; [|exact Hv].
    destruct (listeners sock) as [[c k]|]; [|exact Hv].
    apply bool_decide_eq_false in Hnot.
    cbn. now rewrite get_delete_ne.
  - revert s Hv.
    change (keeps (fun s => JsMap.get clientId (clients s) = v)
              (handle now (Enqueue suffix message timeoutMs))).
    unfold_handlers. keeps_all ltac:(assumption).
  - revert s Hv.
    change (keeps (fun s => JsMap.get clientId (clients s) = v)
              (handle now (TimerFires t))).
    unfold_handlers. keeps_all ltac:(assumption).
  - revert s Hv.
    change (keeps (fun s => JsMap.get clientId (clients s) = v)
              (handle now (Cleanup maxAgeMs))).
    unfold_handlers. keeps_all ltac:(assumption).
Qed.

(** ** Admission under an id that is taken *)

Lemma socket_readyState_Some ws sock s :
  sockets s !! ws = Some sock -> socket_readyState ws s = (Ok (readyState sock), s).
Proof. unfold socket_readyState. rewrite bind_gets. now intros ->. Qed.

(** A frame sent to a registered client whose socket is open. *)
Lemma sendToClient_open k message c client sock s :
  JsMap.get k (clients s) = Some c ->
  heap s !! c = Some client ->
  sockets s !! socket client = Some sock ->
  readyState sock = OPEN ->
  sendToClient k message s
  = if sendThrows sock then (Ok false, s)
    else (Ok true,
          with_sockets (fun ss =>
            <[socket client := mkSocket OPEN (sent sock ++ [message]) (closeCalls sock)
                                 false (listeners sock)]> ss) s).
Proof.
  intros Hget Hc Hsock Hopen. unfold sendToClient.
  rewrite bind_gets, Hget, (bind_Ok _ _ _ _ _ (deref_Some _ _ _ Hc)).
  rewrite (bind_Ok _ _ _ _ _ (socket_readyState_Some _ _ _ Hsock)), Hopen.
  unfold try_catch, socket_send. monad_run. rewrite Hsock.
  destruct (sendThrows sock) eqn:Hthrows.
  - now monad_run.
  - monad_run. now rewrite Hopen.
Qed.

(** What the admission of a connection does when its id is registered to a
    connection whose socket is open. *)
Lemma onConnection_supersedes now clientId tok throws s existing old sock :
  clientId <> [] -> tok <> [] ->
  fst (EnhancedApiKeyManager.isValidKey now tok (apiKeyManager s)) = Ok true ->
  JsMap.get clientId (clients s) = Some existing ->
  heap s !! existing = Some old ->
  sockets s !! socket old = Some sock ->
  readyState sock = OPEN ->
  let ws := length (sockets s) in
  let new := length (heap s) in
  exists s' sent',
    onConnection now (mkRequest (Some clientId) (Some tok)) throws s = (Ok tt, s')
    /\ sockets s' !! socket old
       = Some (mkSocket CLOSING (sent sock)
                 (closeCalls sock ++ [(4004, "Duplicate connection"%string)])
                 (sendThrows sock) (listeners sock))
    /\ sockets s' !! ws = Some (mkSocket OPEN sent' [] throws (Some (new, clientId)))
    /\ clients s' = JsMap.set clientId new (clients s)
    /\ heap s' = heap s ++ [mkClient clientId ws true (Some tok) (Some now)]
    /\ corr s' = corr s.
Proof.
  intros Hid Htok Hgate Hget Hold Hsock Hopen ws new.
  assert (Hlt : (socket old < length (sockets s))%nat)
    by (apply lookup_lt_is_Some; eauto).
  unfold onConnection. rewrite bind_gets, bind_modify. fold ws.
  unfold handleConnection. cbn [param_id param_token].
  destruct clientId as [|c0 cid]; [congruence|].
  destruct tok as [|t0 tk]; [congruence|]. cbn [is_empty orb].
  set (clientId := c0 :: cid) in *. set (tok := t0 :: tk) in *.
  match goal with |- context [bind (zoom _ _ _) _ ?s0] =>
    destruct (gate_frame now tok s0) as (b & m' & Hzoom & Hkey)
  end.
  fields. rewrite Hkey in Hgate. cbn in Hgate. injection Hgate as ->.
  rewrite (bind_Ok _ _ _ _ _ Hzoom). cbn [negb].
  rewrite bind_gets, bind_modify, bind_gets. fields. fold new.
  unfold JsMap.has. rewrite Hget.
  set (newSocket := mkSocket OPEN [] [] throws None).
  set (record := mkClient clientId ws true (Some tok) (Some now)).
  match goal with |- context [bind _ _ ?s0] => set (s2 := s0) end.
  assert (Hold2 : heap s2 !! existing = Some old)
    by (unfold s2; fields; now apply lookup_app_l_Some).
  assert (Hsock2 : sockets s2 !! socket old = Some sock)
    by (unfold s2; fields; now apply lookup_app_l_Some).
  rewrite bind_assoc, (bind_Ok _ _ _ _ _ (deref_Some _ _ _ Hold2)).
  rewrite bind_assoc, (bind_Ok _ _ _ _ _ (socket_readyState_Some _ _ _ Hsock2)).
  rewrite Hopen. unfold socket_close, socket_on. monad_run.
  set (closed := mkSocket CLOSING (sent sock)
                   (closeCalls sock ++ [(4004, "Duplicate connection"%string)])
                   (sendThrows sock) (listeners sock)).
  set (opened := mkSocket OPEN [] [] throws (Some (new, clientId))).
  match goal with |- context [bind _ _ ?s0] => set (s5 := s0) end.
  assert (Hsockets5 : sockets s5
                      = <[ws := opened]> (<[socket old := closed]> (sockets s ++ [newSocket]))).
  { unfold s5, s2. fields.
    rewrite (lookup_app_l_Some _ _ _ _ Hsock), Hopen. fold closed.
    rewrite list_lookup_insert_ne by (unfold ws; lia).
    unfold ws. rewrite list_lookup_middle by reflexivity. reflexivity. }
  assert (Hclients5 : clients s5 = JsMap.set clientId new (clients s)) by reflexivity.
  assert (Hheap5 : heap s5 = heap s ++ [record]) by reflexivity.
  assert (Hcorr5 : corr s5 = corr s) by reflexivity.
  assert (Hws5 : sockets s5 !! ws = Some opened).
  { rewrite Hsockets5. apply list_lookup_insert_eq.
    rewrite length_insert, length_app. unfold ws. cbn. lia. }
  assert (Hold5 : sockets s5 !! socket old = Some closed).
  { rewrite Hsockets5. rewrite list_lookup_insert_ne by (unfold ws; lia).
    apply list_lookup_insert_eq. rewrite length_app. lia. }
  assert (Hnew5 : heap s5 !! new = Some record).
  { rewrite Hheap5. unfold new. now apply list_lookup_middle. }
  assert (Hreg5 : JsMap.get clientId (clients s5) = Some new).
  { rewrite Hclients5. apply get_set_eq. }
  pose proof (sendToClient_open clientId welcome new record opened s5
                Hreg5 Hnew5 Hws5 eq_refl) as Hsend.
  clearbody s5. unfold opened in Hsend at 1. cbn [sendThrows] in Hsend.
  destruct throws; rewrite (bind_Ok _ _ _ _ _ Hsend); cbn beta; unfold ret.
  - exists s5, []. auto 10.
  - eexists _, [welcome]. split; [reflexivity|]. fields.
    cbn [socket record]. repeat split; auto.
    + rewrite list_lookup_insert_ne by (unfold ws; lia). exact Hold5.
    + apply list_lookup_insert_eq. apply lookup_lt_is_Some. eauto.
Qed.


(** The primary connection is the one registered first: when [gm-0] was
    admitted before [gm-1], a second admission of [gm-1] makes the new
    connection the one registered under [gm-1], and the primary connection is
    that of [gm-0] as before; a connection leaves the registry when its own
    socket closes. *)
Example primary_is_first_registered :
  let gm0 := mkRequest (Some (lit "gm-0")) (Some (lit "abcdefgh12")) in
  let s := run (init Scenario.keys)
             [(0, Connection gm0 false); (10, Connection Scenario.gm1 false);
              (200, Connection Scenario.gm1_again false)] in
  JsMap.get (lit "gm-1") (clients s) = Some 2%nat
  /\ getConnectedClients s = [lit "gm-0"; lit "gm-1"]
  /\ primary s = Some 0%nat
  /\ JsMap.get (lit "gm-1") (clients (step s (300, Close 2%nat))) = None.
Proof. vm_compute. repeat split; reflexivity. Qed.

Lemma run_registration_frame clientId es s :
  undisturbed clientId s es ->
  JsMap.get clientId (clients (run s es)) = JsMap.get clientId (clients s).
Proof.
  revert s. induction es as [|e es IH]; intros s; cbn [undisturbed run fold_left].
  - reflexivity.
  - intros [Hnot Hrest]. change (fold_left step es (step s e)) with (run (step s e) es).
    rewrite (IH _ Hrest). now apply step_registration_frame.
Qed.

(** X27.  The admission itself does what is expected of it.  When a
    connection is admitted, with a valid credential, under the id of a registered
    connection whose socket is open, the prior socket is closed with code
    4004 before the admission completes.  When it completes the new
    connection, on its open socket, is the one registered under the id; the
    ids of the registry and their order are as before, so that the new
    connection is the primary exactly when its id comes first; no id is held
    twice; and the new connection stays registered under the id through
    every later run of events none of which is an admission under the id or
    the 'close' or 'error' event of a socket admitted under it. *)
Theorem supersession_at_admission now clientId tok throws s existing old sock :
  JsMap.wf (clients s) ->
  clientId <> [] -> tok <> [] ->
  fst (EnhancedApiKeyManager.isValidKey now tok (apiKeyManager s)) = Ok true ->
  JsMap.get clientId (clients s) = Some existing ->
  heap s !! existing = Some old ->
  sockets s !! socket old = Some sock ->
  readyState sock = OPEN ->
  let s' := step s (now, Connection (mkRequest (Some clientId) (Some tok)) throws) in
  let new := length (heap s) in
  let ws := length (sockets s) in
  (closeCalls <$> sockets s' !! socket old
   = Some (closeCalls sock ++ [(4004, "Duplicate connection"%string)])
   /\ readyState <$> sockets s' !! socket old = Some CLOSING)
  /\ JsMap.get clientId (clients s') = Some new
  /\ heap s' !! new = Some (mkClient clientId ws true (Some tok) (Some now))
  /\ readyState <$> sockets s' !! ws = Some OPEN
  /\ getConnectedClients s' = getConnectedClients s
  /\ (forall first rest,
        getConnectedClients s = first :: rest ->
        primary s' = if decide (first = clientId) then Some new else primary s)
  /\ JsMap.wf (clients s')
  /\ (forall es, undisturbed clientId s' es ->
        JsMap.get clientId (clients (run s' es)) = Some new).
Proof.
  intros Hwf Hid Htok Hgate Hget Hold Hsock Hopen s' new ws.
  destruct (onConnection_supersedes now clientId tok throws s existing old sock
              Hid Htok Hgate Hget Hold Hsock Hopen)
    as (s1 & sent' & Hrun & Hclosed & Hopened & Hclients & Hheap & _).
  assert (Hs' : s' = s1) by (unfold s', step, handle; cbn [fst snd]; now rewrite Hrun).
  clearbody s'. subst s'.
  assert (Hreg : JsMap.get clientId (clients s1) = Some new)
    by (rewrite Hclients; apply get_set_eq).
  assert (Hkeys : getConnectedClients s1 = getConnectedClients s).
  { unfold getConnectedClients. rewrite Hclients. apply keys_set_present.
    unfold JsMap.has. now rewrite Hget. }
  split; [|split; [|split; [|split; [|split; [|split; [|split]]]]]].
  - fold ws new in Hclosed, Hopened. now rewrite Hclosed.
  - exact Hreg.
  - rewrite Hheap. now apply list_lookup_middle.
  - fold ws new in Hopened. now rewrite Hopened.
  - exact Hkeys.
  - intros first rest Hfirst. unfold primary. rewrite Hkeys, Hfirst.
    destruct (decide (first = clientId)) as [->|Hne]; [exact Hreg|].
    rewrite Hclients. apply get_set_ne. congruence.
  - rewrite Hclients. now apply wf_set.
  - intros es Hes. now rewrite (run_registration_frame clientId es s1 Hes).
Qed.

Example supersession_of_gm1 :
  closeCalls <$> sockets Scenario.superseded !! 0%nat
  = Some [(4004, "Duplicate connection"%string)]
  /\ JsMap.get (lit "gm-1") (clients Scenario.superseded) = Some 1%nat
  /\ primary Scenario.superseded = Some 1%nat.
Proof.
  edestruct (supersession_at_admission 200 (lit "gm-1") (lit "xyz99999") false
               Scenario.connected 0%nat)
    as ((Hclosed & _) & Hreg & _ & _ & _ & Hprimary & _).
  - apply (wf_set [] (lit "gm-1")), wf_nil.
  - discriminate.
  - discriminate.
  - reflexivity.
  - reflexivity.
  - reflexivity.
  - reflexivity.
  - reflexivity.
  - split; [exact Hclosed|]. split; [exact Hreg|].
    exact (Hprimary (lit "gm-1") [] eq_refl).
Defined.

(** * The claims *)

(** ** The registry *)

(** C1.  The claim: once a second connection is admitted under the id of a
    live one, the new connection is registered, and primary, in every later
    state, the one after the 'close' event of the prior socket included.
    The admission does close the prior socket with code 4004 and registers
    the new connection in its place (theorem [supersession_at_admission]),
    but the 'close' listener of the prior socket deletes the registry entry
    by id: when its event arrives it removes the new connection, whose
    socket is still open, and the next request is rejected for want of a
    client. *)
Theorem C1_close_of_superseded_socket_evicts_new_connection :
  let s := Scenario.superseded in
  clients s = [(lit "gm-1", 1%nat)]
  /\ socket <$> heap s !! 1%nat = Some 1%nat
  /\ concerns (lit "gm-1") s (300, Close 0%nat) = true
  /\ let s' := step s (300, Close 0%nat) in
     getConnectedClients s' = []
     /\ readyState <$> sockets s' !! 1%nat = Some OPEN
     /\ settlements (step s' (400, Enqueue (lit "1") Scenario.roll 2000))
        = [(0%nat, Rejected NoClientsConnected)].
Proof. vm_compute. repeat split; reflexivity. Qed.

(** ** The sweep *)

(** C2, as stated, fails: the request enqueued at time 10 is 60000 ms old at
    time 60010, and a sweep with that bound keeps it and rejects nothing. *)
Lemma C2_request_of_age_maxAge_is_kept :
  let s' := snd (cleanupExpiredRequests 60010 60000 Scenario.enqueued) in
  timestamp <$> JsMap.get (lit "req_1") (pendingRequests Scenario.enqueued) = Some 10
  /\ 60010 - 10 >= 60000
  /\ pendingRequests s' = pendingRequests Scenario.enqueued
  /\ settlements s' = [].
Proof. vm_compute. repeat split; try reflexivity. discriminate. Qed.

(** C2, amended.  A sweep with bound [maxAgeMs] keeps every pending request
    whose age is at most [maxAgeMs], and fires no continuation of it; it
    removes every pending request whose age exceeds [maxAgeMs], clears its
    timer and rejects it with ['Request expired during cleanup'].  The calls
    of [reject] it makes are those, in the order of the map. *)
Theorem C2_sweep_removes_requests_older_than_maxAge now maxAgeMs s :
  JsMap.wf (pendingRequests s) ->
  exists s',
    cleanupExpiredRequests now maxAgeMs s = (Ok tt, s')
    /\ (forall k r,
          JsMap.get k (pendingRequests s) = Some r ->
          now - timestamp r <= maxAgeMs ->
          JsMap.get k (pendingRequests s') = Some r)
    /\ (forall k r,
          JsMap.get k (pendingRequests s) = Some r ->
          now - timestamp r > maxAgeMs ->
          JsMap.get k (pendingRequests s') = None
          /\ In (promise r, Rejected RequestExpired) (settlements s')
          /\ ~ In (timeout r) (map fst (timers s')))
    /\ settlements s'
       = settlements s
         ++ map (fun e => (promise (snd e), Rejected RequestExpired))
              (List.filter (fun e => now - timestamp (snd e) >? maxAgeMs)
                 (pendingRequests s)).
Proof.
  intros Hwf. rewrite cleanupExpiredRequests_spec. eexists. split; [reflexivity|].
  split; [|split].
  - intros k r Hget Hage. rewrite sweep_pending, Hget.
    destruct (existsb _ _) eqn:Hex; [|reflexivity].
    apply existsb_exists in Hex as ([k' r'] & Hin & Hboth).
    apply andb_true_iff in Hboth as [Hk Hold].
    apply bool_decide_eq_true in Hk. cbn in Hk. subst k'.
    rewrite (In_get _ _ _ Hwf Hin) in Hget. injection Hget as ->.
    unfold tooOld in Hold. cbn in Hold. lia.
  - intros k r Hget Hage.
    assert (Hin : In (k, r) (List.filter (tooOld now maxAgeMs) (pendingRequests s))).
    { apply filter_In. split; [now apply get_Some_In|].
      unfold tooOld. cbn. lia. }
    split; [|split].
    + rewrite sweep_pending.
      replace (existsb _ _) with true; [reflexivity|].
      symmetry. apply existsb_exists. exists (k, r).
      split; [now apply get_Some_In|]. cbn.
      rewrite bool_decide_eq_true_2 by reflexivity.
      unfold tooOld. cbn. lia.
    + rewrite sweep_settlements. apply in_or_app. right.
      apply in_map_iff. exists (k, r). auto.
    + rewrite sweep_timers. intros [_ Hnot]. apply Hnot.
      apply in_map_iff. exists (k, r). auto.
  - apply sweep_settlements.
Qed.

Lemma C2_sweep_removes_requests_older_than_maxAge_witness :
  exists s',
    cleanupExpiredRequests 60011 60000 Scenario.enqueued = (Ok tt, s')
    /\ JsMap.get (lit "req_1") (pendingRequests s') = None
    /\ settlements s' = [(0%nat, Rejected RequestExpired)].
Proof.
  assert (Hwf : JsMap.wf (pendingRequests Scenario.enqueued)).
  { apply (wf_set [] (lit "req_1")), wf_nil. }
  destruct (C2_sweep_removes_requests_older_than_maxAge 60011 60000
              Scenario.enqueued Hwf) as (s' & Hrun & _ & Hold & Hlog).
  exists s'. split; [exact Hrun|]. split.
  - apply (Hold (lit "req_1") (mkPending 0%nat 0%nat 10)); reflexivity.
  - rewrite Hlog. reflexivity.
Defined.

(** ** The correlator *)


(** ** The dispatcher *)




(** ** The status endpoint *)




(** ** The statuses of the REST facade *)

(** C6, as stated, fails: a request that reaches the correlator and times out
    is answered with the same 500 as one whose delivery failed; so is one
    that the sweep expired. *)
Lemma C6_timeout_answered_as_server_error :
  let client := mkRequest (Some (lit "gm-1")) (Some (lit "abcdefgh12")) in
  let roll := mkReq Roll (Some (lit "abcdefgh12"))
                [(lit "formula", VString (lit "1d20"))] [] in
  let s1 := step (init (EnhancedApiKeyManager.mk ∅ true)) (0, Connection client false) in
  let (d, s2) := dispatch 10 (lit "1") roll s1 in
  let s3 := step s2 (30010, TimerFires 0%nat) in
  d = Ok (Awaiting 0%nat)
  /\ settlements s3 = [(0%nat, Rejected (RequestTimeout 30000))]
  /\ status (handleAsyncRoute (Rejected (RequestTimeout 30000))) = 500
  /\ status (handleAsyncRoute (Rejected RequestExpired)) = 500
  /\ status (handleAsyncRoute (Rejected SendFailed)) = 500.
Proof. vm_compute. repeat split; reflexivity. Qed.

(** C6, amended.  A request that passes the key check while no client is
    connected is answered 503 by the connection check; once a route has
    reached the correlator, every rejection of the promise it awaits (a
    timeout, an expiry by the sweep, a failed delivery, an error reported by
    the peer, no client) is answered 500 with the reason as message, and a
    resolution is answered 200 with the response of the peer. *)
Theorem C6_statuses_of_outcomes :
  (forall now suffix req s,
     getConnectedClients s = [] ->
     fst (authenticate now req s) = Ok Next ->
     fst (dispatch now suffix req s) = Ok (Answered noClients)
     /\ status noClients = 503)
  /\ (forall reason,
        handleAsyncRoute (Rejected reason) = mkRes 500 (InternalServerError reason))
  /\ (forall result,
        handleAsyncRoute (Resolved result) = mkRes 200 (Result result)).
Proof.
  repeat split.
  now apply dispatch_no_clients.
Qed.

Lemma C6_statuses_of_outcomes_witness :
  let s := init (EnhancedApiKeyManager.mk ∅ true) in
  let req := mkReq Roll (Some (lit "abcdefgh12")) [] [] in
  fst (dispatch 0 (lit "1") req s) = Ok (Answered noClients).
Proof.
  apply (proj1 C6_statuses_of_outcomes 0 (lit "1")); reflexivity.
Defined.

(** ** Enqueueing without a peer *)

(** C7.  [sendMessageToFoundry] called while no client is registered rejects
    the promise it returns at once, with ['No FoundryVTT clients connected']:
    that call of [reject] is all it does.  No entry is added to
    [pendingRequests], no timer is armed and nothing is sent. *)
Theorem C7_enqueue_without_clients now suffix message timeoutMs s :
  JsMap.size (clients s) = 0%nat ->
  exists s',
    sendMessageToFoundry now suffix message timeoutMs s = (Ok (nextPromise s), s')
    /\ settlements s' = settlements s ++ [(nextPromise s, Rejected NoClientsConnected)]
    /\ pendingRequests s' = pendingRequests s
    /\ timers s' = timers s
    /\ nextTimer s' = nextTimer s
    /\ sockets s' = sockets s
    /\ clients s' = clients s
    /\ heap s' = heap s.
Proof.
  intros Hsize. unfold JsMap.size in Hsize.
  unfold sendMessageToFoundry, newPromise, bind, gets, modify, ret, settle.
  cbn. rewrite Hsize. cbn. eexists. split; [reflexivity|]. cbn. tauto.
Qed.

Lemma C7_enqueue_without_clients_witness :
  exists s',
    sendMessageToFoundry 0 (lit "1") (mkMessage (lit "roll") None []) 2000
      (init (EnhancedApiKeyManager.mk ∅ true)) = (Ok 0%nat, s')
    /\ settlements s' = [(0%nat, Rejected NoClientsConnected)]
    /\ pendingRequests s' = []
    /\ timers s' = [].
Proof.
  destruct (C7_enqueue_without_clients 0 (lit "1") (mkMessage (lit "roll") None [])
              2000 (init (EnhancedApiKeyManager.mk ∅ true)) eq_refl)
    as (s' & Hrun & Hset & Hpend & Htim & _).
  exists s'. auto.
Defined.

(** ** Late and duplicate responses *)



(** ** Totality of the gate *)

(** C9.  The claim: the validation [isValidKey] is total, on the empty string
    and on short strings too.  It is so for [EnhancedApiKeyManager] (lemma
    [enhanced_isValidKey_total]), but [SecureApiKeyManager.isValidKey] throws
    a [RangeError] on the seven-letter credential ['invalid'] and on the
    empty credential, where its own tests expect [false]: on a short string
    its world-id check hands [crypto.timingSafeEqual] two buffers of
    different lengths (lemma [secure_isValidKey_short_throws] has every
    short credential that is no active managed key). *)
Theorem C9_secure_isValidKey_throws_on_short_credential :
  let manager := SecureApiKeyManager.mk ∅ true in
  fst (SecureApiKeyManager.isValidKey (Ok ∅) 0 (lit "invalid") manager)
    = Throw RangeError
  /\ fst (SecureApiKeyManager.isValidKey (Ok ∅) 0 [] manager) = Throw RangeError
  /\ fst (EnhancedApiKeyManager.isValidKey 0 (lit "invalid")
            (EnhancedApiKeyManager.mk ∅ true)) = Ok false.
Proof. cbv zeta. repeat split; vm_compute; reflexivity. Qed.

(** ** The world-id format *)



(** * Further properties of the code *)

(** ** Delivery of a frame *)

Lemma insert_alter {A} (f : A -> A) (l : list A) (i : nat) (x : A) :
  l !! i = Some x -> <[i := f x]> l = alter f i l.
Proof.
  intros Hx. rewrite list_insert_alter. apply list_alter_ext; [|reflexivity].
  intros y Hy. congruence.
Qed.

Lemma set_absent {V} (m : JsMap.t V) k v :
  JsMap.get k m = None -> JsMap.set k v m = m ++ [(k, v)].
Proof.
  induction m as [|[k' v'] m IH]; cbn; [reflexivity|].
  destruct (decide (k' = k)); [discriminate|]. intros H. now rewrite IH.
Qed.

Lemma get_app_None {V} (m m' : JsMap.t V) k :
  JsMap.get k (m ++ m') = None <-> JsMap.get k m = None /\ JsMap.get k m' = None.
Proof.
  induction m as [|[k' v'] m IH]; cbn; [tauto|].
  destruct (decide (k' = k)); [|exact IH]. split; [discriminate|intros [[=] _]].
Qed.

(** [sendToClient], in one equation: the frame is handed to the socket of
    the record registered under the id, if that socket is open and takes
    it; in every other case nothing happens. *)
Lemma sendToClient_deliverable k message s :
  refs_ok s = true ->
  sendToClient k message s
  = match deliverable s k with
    | Some ws => (Ok true, push message ws s)
    | None => (Ok false, s)
    end.
Proof.
  intros Hok. unfold deliverable.
  destruct (JsMap.get k (clients s)) as [c|] eqn:Hget.
  - destruct (refs_ok_client s k c Hok Hget) as (client & sock & Hc & Hsock).
    rewrite Hc, Hsock.
    destruct (readyState sock) eqn:Hrs.
    2:{ rewrite (sendToClient_open k message c client sock s Hget Hc Hsock Hrs).
        destruct (sendThrows sock) eqn:Hthrows; [reflexivity|].
        unfold push, with_sockets. do 2 f_equal.
        rewrite <- (insert_alter
          (fun sock => mkSocket (readyState sock) (sent sock ++ [message])
                         (closeCalls sock) (sendThrows sock) (listeners sock))
          _ _ _ Hsock).
        now rewrite Hrs, Hthrows. }
    all: unfold sendToClient;
      rewrite bind_gets, Hget, (bind_Ok _ _ _ _ _ (deref_Some _ _ _ Hc)),
        (bind_Ok _ _ _ _ _ (socket_readyState_Some _ _ _ Hsock)), Hrs;
      reflexivity.
  - unfold sendToClient. now rewrite bind_gets, Hget.
Qed.

Lemma push_sockets message ws s ws' :
  sockets (push message ws s) !! ws'
  = if decide (ws = ws')
    then (fun sock => mkSocket (readyState sock) (sent sock ++ [message])
                        (closeCalls sock) (sendThrows sock) (listeners sock))
         <$> sockets s !! ws'
    else sockets s !! ws'.
Proof.
  unfold push. fields. destruct (decide (ws = ws')) as [->|Hne].
  - now rewrite list_lookup_alter_eq.
  - now rewrite list_lookup_alter_ne by exact Hne.
Qed.

(** A frame that went out changes nothing of who can be reached. *)
Lemma deliverable_push message ws s k :
  deliverable (push message ws s) k = deliverable s k.
Proof.
  unfold deliverable.
  replace (clients (push message ws s)) with (clients s) by reflexivity.
  replace (heap (push message ws s)) with (heap s) by reflexivity.
  destruct (JsMap.get k (clients s)) as [c|]; [|reflexivity].
  destruct (heap s !! c) as [client|]; [|reflexivity].
  rewrite push_sockets.
  destruct (decide (ws = socket client)); [|reflexivity].
  now destruct (sockets s !! socket client) as [sock|].
Qed.

Lemma refs_ok_push message ws s : refs_ok (push message ws s) = refs_ok s.
Proof.
  apply refs_ok_ext; try reflexivity.
  unfold push. fields. apply list_eq. intros i.
  rewrite !list_lookup_fmap.
  destruct (decide (ws = i)) as [->|Hne].
  - rewrite list_lookup_alter_eq. now destruct (sockets s !! i).
  - now rewrite list_lookup_alter_ne.
Qed.

Lemma isClientConnected_spec k s :
  refs_ok s = true ->
  exists connected,
    isClientConnected k s = (Ok connected, s)
    /\ (connected = false -> deliverable s k = None).
Proof.
  intros Hok. unfold isClientConnected, deliverable. rewrite bind_gets.
  destruct (JsMap.get k (clients s)) as [c|] eqn:Hget.
  - destruct (refs_ok_client s k c Hok Hget) as (client & sock & Hc & Hsock).
    rewrite (bind_Ok _ _ _ _ _ (deref_Some _ _ _ Hc)), Hc.
    rewrite (bind_Ok _ _ _ _ _ (socket_readyState_Some _ _ _ Hsock)), Hsock.
    eexists. split; [reflexivity|].
    destruct (readyState sock); auto; discriminate.
  - exists false. auto.
Qed.

(** X1.  [sendToClient] reaches connected clients only.  [isClientConnected]
    returns a boolean and changes nothing; when it says no, [sendToClient]
    returns [false]; [sendToClient] returns [true] only for a client that
    [isClientConnected] says is connected; and whenever it returns [false]
    it has changed nothing. *)
Theorem X1_sendToClient_reaches_connected_clients_only k message s :
  refs_ok s = true ->
  exists connected,
    isClientConnected k s = (Ok connected, s)
    /\ (connected = false -> sendToClient k message s = (Ok false, s))
    /\ (fst (sendToClient k message s) = Ok true -> connected = true)
    /\ (fst (sendToClient k message s) = Ok false ->
        snd (sendToClient k message s) = s).
Proof.
  intros Hok.
  destruct (isClientConnected_spec k s Hok) as (connected & Hrun & Hno).
  exists connected. rewrite (sendToClient_deliverable k message s Hok).
  split; [exact Hrun|]. split; [|split].
  - intros Hfalse. now rewrite (Hno Hfalse).
  - destruct connected; [reflexivity|]. rewrite (Hno eq_refl). discriminate.
  - destruct (deliverable s k); [discriminate|reflexivity].
Qed.

Lemma X1_sendToClient_reaches_connected_clients_only_witness :
  isClientConnected (lit "gm-2") Scenario.connected = (Ok false, Scenario.connected)
  /\ sendToClient (lit "gm-2") pong Scenario.connected = (Ok false, Scenario.connected).
Proof.
  destruct (X1_sendToClient_reaches_connected_clients_only (lit "gm-2") pong
              Scenario.connected eq_refl) as (connected & Hrun & Hno & _).
  assert (Hc : connected = false).
  { assert (H : isClientConnected (lit "gm-2") Scenario.connected
                = (Ok false, Scenario.connected)) by reflexivity.
    rewrite H in Hrun. now injection Hrun. }
  split; [now rewrite Hrun, Hc|exact (Hno Hc)].
Defined.

(** ** Broadcasting *)

Lemma fold_push_frame message l s :
  refs_ok (fold_left (fun s ws => push message ws s) l s) = refs_ok s
  /\ forall k, deliverable (fold_left (fun s ws => push message ws s) l s) k
               = deliverable s k.
Proof.
  revert s. induction l as [|ws l IH]; intros s; cbn [fold_left]; [auto|].
  destruct (IH (push message ws s)) as [Hr Hd]. split.
  - now rewrite Hr, refs_ok_push.
  - intros k. now rewrite Hd, deliverable_push.
Qed.

Lemma broadcast_loop message excludeClient l s :
  refs_ok s = true ->
  forEach l (fun clientId =>
    if match excludeClient with
       | Some x => negb (is_empty x) && bool_decide (clientId = x)
       | None => false
       end
    then ret tt
    else sendToClient clientId message ;; ret tt) s
  = (Ok tt,
     fold_left (fun s ws => push message ws s)
       (omap (deliverable s)
          (filter (fun k => ~ (excludeClient = Some k /\ k <> [])) l)) s).
Proof.
  revert s. induction l as [|k l IH]; intros s Hok; cbn [forEach]; [reflexivity|].
  set (skip := match excludeClient with
               | Some x => negb (is_empty x) && bool_decide (k = x)
               | None => false
               end).
  assert (Hskip : skip = true <-> excludeClient = Some k /\ k <> []).
  { unfold skip. destruct excludeClient as [x|]; [|split; [discriminate|intros [[=] _]]].
    rewrite andb_true_iff, negb_true_iff, bool_decide_eq_true. split.
    - intros [Hx ->]. split; [reflexivity|]. now destruct x.
    - intros [[= ->] Hk]. split; [|reflexivity]. now destruct k. }
  rewrite filter_cons. destruct skip eqn:Hs.
  - rewrite decide_False by (intros Hn; apply Hn, Hskip; reflexivity).
    rewrite bind_ret. now apply IH.
  - rewrite decide_True
      by (intros Hn; apply Hskip in Hn; discriminate).
    rewrite bind_assoc.
    pose proof (sendToClient_deliverable k message s Hok) as Hsend.
    cbn [omap list_omap]. fold (@omap list _ _ _ (deliverable s)).
    destruct (deliverable s k) as [ws|] eqn:Hd;
      rewrite (bind_Ok _ _ _ _ _ Hsend), bind_ret.
    + cbn [fold_left]. rewrite IH by now rewrite refs_ok_push.
      do 2 f_equal. apply list_omap_ext. apply Forall2_same_length_lookup.
      split; [reflexivity|]. intros i x y Hx Hy. rewrite Hx in Hy.
      injection Hy as <-. apply deliverable_push.
    + now apply IH.
Qed.

(** X2.  [broadcastMessage] hands the message once to each socket that
    [sendToClient] can reach for a registered id other than [excludeClient],
    in the order of registration, and does nothing else; who is reached is
    settled by the state the broadcast starts in.  It never throws. *)
Theorem X2_broadcast_reaches_each_addressee message excludeClient s :
  refs_ok s = true ->
  broadcastMessage message excludeClient s
  = (Ok tt,
     fold_left (fun s ws => push message ws s)
       (omap (deliverable s) (addressees s excludeClient)) s).
Proof.
  intros Hok. unfold broadcastMessage. rewrite bind_gets.
  now apply broadcast_loop.
Qed.

Lemma X2_broadcast_reaches_each_addressee_witness :
  broadcastMessage pong (Some (lit "gm-1")) Scenario.two
  = (Ok tt, push pong 1%nat Scenario.two).
Proof.
  exact (X2_broadcast_reaches_each_addressee pong (Some (lit "gm-1"))
           Scenario.two eq_refl).
Defined.

(** ** Responses *)

(** What becomes of the promise of a pending request when a frame carrying
    its id arrives. *)
Lemma handleMessage_settles now client c message k r s :
  heap s !! client = Some c ->
  strictEq (in_type message) (lit "ping") = false ->
  strictEq (in_type message) (lit "pong") = false ->
  in_requestId message = VString k -> k <> [] ->
  JsMap.get k (pendingRequests s) = Some r ->
  handleMessage now client (Json message) s
  = (Ok tt,
     conclude (timeout r) k (promise r)
       (if truthy (in_error message)
        then Rejected (PeerError (in_error message))
        else if strictEq (in_status message) (lit "error")
             then Rejected UnknownPeerError
             else Resolved message)
       s).
Proof.
  intros Hc Hping Hpong Hid Hk Hget.
  unfold handleMessage, try_catch. cbn [JSON_parse].
  rewrite bind_ret, (bind_Ok _ _ _ _ _ (deref_Some _ _ _ Hc)), Hping, Hpong.
  rewrite bind_gets, Hid. cbn [truthy pendingOf].
  replace (negb (is_empty k)) with true by now destruct k.
  rewrite Hget. unfold clearTimeout, settle.
  rewrite bind_modify, bind_modify.
  destruct (truthy (in_error message)); cbn [orb]; [reflexivity|].
  destruct (strictEq (in_status message) (lit "error")); reflexivity.
Qed.

(** X3.  A frame that is no ping or pong and carries the id of a pending
    request settles that request, whichever admitted socket it arrives on:
    the timer is cleared, the entry removed, and the promise rejected with
    the frame's [error] when that is truthy, rejected with ['Unknown error
    from FoundryVTT'] when [error] is falsy and [status] is ['error'], and
    resolved with the whole frame otherwise.  Nothing is sent and no other
    member changes. *)
Theorem X3_response_settles_by_error_and_status now ws sock c k0 message k r s :
  refs_ok s = true ->
  sockets s !! ws = Some sock -> listeners sock = Some (c, k0) ->
  strictEq (in_type message) (lit "ping") = false ->
  strictEq (in_type message) (lit "pong") = false ->
  in_requestId message = VString k -> k <> [] ->
  JsMap.get k (pendingRequests s) = Some r ->
  step s (now, Message ws (Json message))
  = conclude (timeout r) k (promise r)
      (if truthy (in_error message)
       then Rejected (PeerError (in_error message))
       else if strictEq (in_status message) (lit "error")
            then Rejected UnknownPeerError
            else Resolved message)
      s.
Proof.
  intros Hok Hws Hl Hping Hpong Hid Hk Hget.
  destruct (refs_ok_listener s ws sock c k0 Hok Hws Hl) as (client & _ & Hc & _).
  unfold step, handle. cbn [fst snd]. unfold onMessage.
  rewrite bind_gets, Hws, Hl.
  now rewrite (handleMessage_settles now c client message k r s Hc Hping Hpong
                 Hid Hk Hget).
Qed.

Lemma X3_response_settles_by_error_and_status_witness :
  let failed := mkInbound (VString (lit "roll-result")) (VString (lit "req_1"))
                  VUndefined (VString (lit "error")) [] in
  settlements (step Scenario.enqueued (60, Message 0%nat (Json failed)))
  = [(0%nat, Rejected UnknownPeerError)].
Proof.
  intros failed.
  rewrite (X3_response_settles_by_error_and_status 60 0%nat
             (mkSocket OPEN
                [welcome;
                 mkMessage (lit "roll") (Some (lit "req_1"))
                   [(lit "formula", VString (lit "1d20"))]]
                [] false (Some (0%nat, lit "gm-1")))
             0%nat (lit "gm-1") failed (lit "req_1") (mkPending 0%nat 0%nat 10)
             Scenario.enqueued);
    try reflexivity.
  discriminate.
Defined.

(** ** Replies *)

Lemma deliverable_lastPing s client c t k :
  heap s !! client = Some c ->
  deliverable (with_heap (fun h =>
     <[client := mkClient (id c) (socket c) (authenticated c) (token c) t]> h) s) k
  = deliverable s k.
Proof.
  intros Hc. unfold deliverable. fields.
  destruct (JsMap.get k (clients s)) as [c'|]; [|reflexivity].
  destruct (decide (client = c')) as [<-|Hne].
  - rewrite list_lookup_insert_eq by (apply lookup_lt_is_Some; eauto).
    now rewrite Hc.
  - now rewrite list_lookup_insert_ne.
Qed.

(** X4.  The pong that answers a ping, and the error frame that answers a
    frame [JSON.parse] or the dispatcher throws on, are addressed with
    [sendToClient(client.id)]: they go out on the socket registered under
    the sender's id.  When that is another socket than the one the frame
    came in on (the sender has been superseded), the reply goes to the
    other one and nothing is sent to the sender. *)
Theorem X4_replies_go_to_the_registered_socket now client c data reply ws s :
  refs_ok s = true ->
  heap s !! client = Some c ->
  (exists message,
      data = Json message /\ strictEq (in_type message) (lit "ping") = true
      /\ reply = pong)
  \/ ((data = Malformed \/ data = JsonNull) /\ reply = invalidFormat) ->
  deliverable s (id c) = Some ws ->
  let s' := snd (handleMessage now client data s) in
  sockets s' = sockets (push reply ws s)
  /\ (ws <> socket c -> sockets s' !! socket c = sockets s !! socket c).
Proof.
  intros Hok Hc Hdata Hd s'.
  assert (Hs' : sockets s' = sockets (push reply ws s)).
  { subst s'. unfold handleMessage, try_catch.
    destruct Hdata as [(message & -> & Hping & ->)|[[-> | ->] ->]];
      cbn [JSON_parse].
    - rewrite bind_ret, (bind_Ok _ _ _ _ _ (deref_Some _ _ _ Hc)), Hping.
      rewrite bind_modify.
      match goal with |- context [bind (sendToClient ?k ?m) _ ?s0] =>
        assert (Hok' : refs_ok s0 = true)
          by (rewrite <- Hok; apply (refs_ok_lastPing s client c (Some now) Hc));
        pose proof (sendToClient_deliverable k m s0 Hok') as Hsend
      end.
      rewrite deliverable_lastPing, Hd in Hsend by exact Hc.
      rewrite (bind_Ok _ _ _ _ _ Hsend). reflexivity.
    - rewrite bind_throw, (bind_Ok _ _ _ _ _ (deref_Some _ _ _ Hc)).
      pose proof (sendToClient_deliverable (id c) invalidFormat s Hok) as Hsend.
      rewrite Hd in Hsend. rewrite (bind_Ok _ _ _ _ _ Hsend). reflexivity.
    - rewrite bind_throw, (bind_Ok _ _ _ _ _ (deref_Some _ _ _ Hc)).
      pose proof (sendToClient_deliverable (id c) invalidFormat s Hok) as Hsend.
      rewrite Hd in Hsend. rewrite (bind_Ok _ _ _ _ _ Hsend). reflexivity. }
  split; [exact Hs'|].
  intros Hne. rewrite Hs', push_sockets.
  now rewrite decide_False by exact Hne.
Qed.

Lemma X4_replies_go_to_the_registered_socket_witness :
  let s' := snd (handleMessage 300 0%nat (Json Scenario.pingFrame) Scenario.superseded) in
  sockets s' = sockets (push pong 1%nat Scenario.superseded)
  /\ sockets s' !! 0%nat = sockets Scenario.superseded !! 0%nat.
Proof.
  intros s'.
  destruct (X4_replies_go_to_the_registered_socket 300 0%nat
              (mkClient (lit "gm-1") 0%nat true (Some (lit "abcdefgh12")) (Some 0))
              (Json Scenario.pingFrame) pong 1%nat Scenario.superseded)
    as [Hs Hsender]; try reflexivity.
  - left. exists Scenario.pingFrame. repeat split.
  - split; [exact Hs|]. apply Hsender. discriminate.
Defined.

(** ** Requests *)

Lemma deliverable_corr s s' k :
  clients s' = clients s -> heap s' = heap s -> sockets s' = sockets s ->
  deliverable s' k = deliverable s k.
Proof. unfold deliverable. now intros -> -> ->. Qed.

(** [sendMessageToFoundry] while a client is registered: the request is
    registered, and handed to the first client or concluded at once. *)
Lemma sendMessageToFoundry_registered now suffix message timeoutMs s
    firstClientId rest :
  refs_ok s = true ->
  getConnectedClients s = firstClientId :: rest ->
  let rid := match requestId message with
             | Some r => if is_empty r then generateRequestId suffix else r
             | None => generateRequestId suffix
             end in
  let s1 := register now rid timeoutMs s in
  sendMessageToFoundry now suffix message timeoutMs s
  = (Ok (nextPromise s),
     match deliverable s firstClientId with
     | Some ws => push (mkMessage (type message) (Some rid) (fields message)) ws s1
     | None => conclude (nextTimer s) rid (nextPromise s) (Rejected SendFailed) s1
     end).
Proof.
  intros Hok Hkeys rid s1. unfold getConnectedClients in Hkeys.
  unfold sendMessageToFoundry, newPromise. monad_run. fields.
  replace (Nat.eqb (JsMap.size (clients s)) 0) with false
    by (unfold JsMap.size; rewrite <- (length_map fst); fold (JsMap.keys (clients s));
        now rewrite Hkeys).
  fold rid. unfold setTimeout. monad_run. fields.
  match goal with |- context [bind _ _ ?s0] => change s0 with s1 end.
  rewrite Hkeys. monad_run.
  assert (Hok1 : refs_ok s1 = true) by (rewrite <- Hok; now apply refs_ok_ext).
  match goal with |- context [bind (sendToClient ?k ?m) _ _] =>
    pose proof (sendToClient_deliverable k m s1 Hok1) as Hsend
  end.
  rewrite (deliverable_corr s s1) in Hsend by reflexivity.
  destruct (deliverable s firstClientId) as [ws|];
    rewrite (bind_Ok _ _ _ _ _ Hsend); cbn [negb].
  - now monad_run.
  - unfold clearTimeout, settle. now monad_run.
Qed.

(** X6.  While a client is registered, [sendMessageToFoundry] keeps the
    [requestId] of the message, or generates one when it is absent or
    empty; it makes a promise, arms a timer of [timeoutMs] for it, stores
    the entry under the id and, when the first registered client can be
    reached, hands the message with its id to that client's socket.  No
    other socket receives anything and the promise is left unsettled. *)
Theorem X6_request_is_sent_to_the_first_client now suffix message timeoutMs s
    firstClientId rest ws :
  refs_ok s = true ->
  getConnectedClients s = firstClientId :: rest ->
  deliverable s firstClientId = Some ws ->
  let rid := match requestId message with
             | Some r => if is_empty r then generateRequestId suffix else r
             | None => generateRequestId suffix
             end in
  sendMessageToFoundry now suffix message timeoutMs s
  = (Ok (nextPromise s),
     push (mkMessage (type message) (Some rid) (fields message)) ws
       (register now rid timeoutMs s)).
Proof.
  intros Hok Hkeys Hd rid.
  rewrite (sendMessageToFoundry_registered now suffix message timeoutMs s
             firstClientId rest Hok Hkeys).
  now rewrite Hd.
Qed.

Lemma X6_request_is_sent_to_the_first_client_witness :
  sendMessageToFoundry 10 (lit "1") Scenario.roll 2000 Scenario.two
  = (Ok 0%nat,
     push (mkMessage (lit "roll") (Some (lit "req_1"))
             [(lit "formula", VString (lit "1d20"))]) 0%nat
       (register 10 (lit "req_1") 2000 Scenario.two)).
Proof.
  exact (X6_request_is_sent_to_the_first_client 10 (lit "1") Scenario.roll 2000
           Scenario.two (lit "gm-1") [lit "gm-2"] 0%nat eq_refl eq_refl eq_refl).
Defined.

Lemma delete_set_eq {V} (m : JsMap.t V) k v :
  JsMap.delete k (JsMap.set k v m) = JsMap.delete k m.
Proof.
  induction m as [|[k' v'] m IH]; cbn.
  - now rewrite decide_True.
  - destruct (decide (k' = k)) as [->|Hne]; cbn.
    + now rewrite decide_True.
    + rewrite decide_False by exact Hne. now rewrite IH.
Qed.

Lemma filter_fresh_timer (ts : list (TimerId * TimerCallback)) t cb :
  (forall t' cb', In (t', cb') ts -> (t' < t)%nat) ->
  filter (fun x => fst x <> t) (ts ++ [(t, cb)]) = ts.
Proof.
  intros Hfresh. rewrite filter_app. cbn.
  rewrite decide_False by (intros H; now apply H).
  rewrite app_nil_r. induction ts as [|[t' cb'] ts IH]; [reflexivity|].
  rewrite filter_cons. cbn [fst].
  rewrite decide_True by (specialize (Hfresh t' cb' (or_introl eq_refl)); lia).
  f_equal. apply IH. intros t'' cb'' Hin. apply (Hfresh t'' cb''). now right.
Qed.

(** X7.  There is no failover.  When the first registered client cannot be
    reached (its socket is not open, or its [send] throws),
    [sendMessageToFoundry] rejects the promise at once with ['Failed to send
    message to FoundryVTT'], whatever other clients are registered: nothing
    is sent to any of them, the timer just armed is cleared, and no entry
    is left under the request id. *)
Theorem X7_no_failover_to_another_client now suffix message timeoutMs s
    firstClientId rest :
  Inv s ->
  getConnectedClients s = firstClientId :: rest ->
  deliverable s firstClientId = None ->
  let rid := match requestId message with
             | Some r => if is_empty r then generateRequestId suffix else r
             | None => generateRequestId suffix
             end in
  exists s',
    sendMessageToFoundry now suffix message timeoutMs s = (Ok (nextPromise s), s')
    /\ settlements s' = settlements s ++ [(nextPromise s, Rejected SendFailed)]
    /\ sockets s' = sockets s
    /\ timers s' = timers s
    /\ pendingRequests s' = JsMap.delete rid (pendingRequests s)
    /\ clients s' = clients s.
Proof.
  intros [Hcorr Hok] Hkeys Hd rid.
  rewrite (sendMessageToFoundry_registered now suffix message timeoutMs s
             firstClientId rest Hok Hkeys).
  rewrite Hd. eexists. split; [reflexivity|].
  unfold conclude, register. fields. fold rid.
  repeat split.
  - apply filter_fresh_timer. intros t' cb' Hin.
    now apply (timers_fresh s Hcorr t' cb').
  - apply delete_set_eq.
Qed.

Lemma X7_no_failover_to_another_client_witness :
  getConnectedClients Scenario.deaf = [lit "gm-1"; lit "gm-2"]
  /\ deliverable Scenario.deaf (lit "gm-2") = Some 1%nat
  /\ exists s',
       sendMessageToFoundry 10 (lit "1") Scenario.roll 2000 Scenario.deaf
       = (Ok 0%nat, s')
       /\ settlements s' = [(0%nat, Rejected SendFailed)]
       /\ sockets s' = sockets Scenario.deaf.
Proof.
  split; [reflexivity|]. split; [reflexivity|].
  destruct (X7_no_failover_to_another_client 10 (lit "1") Scenario.roll 2000
              Scenario.deaf (lit "gm-1") [lit "gm-2"]
              (reachable_Inv Scenario.keys _) eq_refl eq_refl)
    as (s' & Hrun & Hset & Hsock & _).
  exists s'. auto.
Defined.

(** The deadline of an armed timer. *)
Lemma onTimerFires_armed t cb s :
  Correlated s -> In (t, cb) (timers s) ->
  onTimerFires t s
  = (Ok tt,
     conclude t (cb_requestId cb) (cb_promise cb)
       (Rejected (RequestTimeout (cb_timeoutMs cb))) s).
Proof.
  intros HC Hin. unfold onTimerFires. rewrite bind_gets.
  destruct (find _ (timers s)) as [[t' cb']|] eqn:Hfind.
  - apply find_some in Hfind as [Hin' Ht]. apply bool_decide_eq_true in Ht.
    cbn in Ht. subst t'.
    assert (Hsame : (t, cb') = (t, cb)).
    { apply (NoDup_map_In_eq fst (timers s)); auto. apply HC. }
    injection Hsame as ->.
    rewrite bind_modify. unfold onTimeout, settle. now rewrite bind_modify.
  - exfalso. apply (find_none _ _ Hfind) in Hin. cbn in Hin.
    now rewrite bool_decide_eq_true_2 in Hin.
Qed.

(** X8.  A request sent under the id of a request that is still pending
    takes over its entry, and the older request keeps its timer.  When that
    timer fires it deletes the entry by id, which by then is the entry of
    the newer request: the older promise is rejected with its timeout, and
    the newer one is left with its timer armed and no entry, so that a
    response to it can no longer be matched. *)
Theorem X8_reused_request_id_orphans_the_newer_request
    now now' suffix ty fs rid timeoutMs s firstClientId rest ws old :
  Inv s ->
  getConnectedClients s = firstClientId :: rest ->
  deliverable s firstClientId = Some ws ->
  rid <> [] ->
  JsMap.get rid (pendingRequests s) = Some old ->
  let p := nextPromise s in
  let s1 := snd (sendMessageToFoundry now suffix (mkMessage ty (Some rid) fs)
                   timeoutMs s) in
  let s2 := step s1 (now', TimerFires (timeout old)) in
  JsMap.get rid (pendingRequests s1) = Some (mkPending p (nextTimer s) now)
  /\ JsMap.get rid (pendingRequests s2) = None
  /\ (exists ms,
        settlements s2
        = settlements s ++ [(promise old, Rejected (RequestTimeout ms))])
  /\ ~ In p (settled s2)
  /\ In (nextTimer s, mkCallback rid p timeoutMs) (timers s2).
Proof.
  intros HI Hkeys Hd Hrid Hget p s1 s2. pose proof HI as [HC Hok].
  destruct (sendMessageToFoundry_Inv now suffix (mkMessage ty (Some rid) fs)
              timeoutMs s HI) as (s1' & Hrun1 & [HC1 _] & _).
  assert (Hs1 : s1 = push (mkMessage ty (Some rid) fs) ws
                       (register now rid timeoutMs s)).
  { subst s1.
    rewrite (sendMessageToFoundry_registered now suffix _ timeoutMs s
               firstClientId rest Hok Hkeys), Hd.
    cbn [requestId snd]. now destruct rid. }
  assert (HC1' : Correlated s1) by (subst s1; now rewrite Hrun1).
  destruct (pending_armed s HC rid old (get_Some_In _ _ _ Hget)) as (ms & Harmed).
  destruct (timers_fresh s HC _ _ Harmed) as [Ht Hp]. cbn [cb_promise] in Hp.
  assert (Harmed1 : In (timeout old, mkCallback rid (promise old) ms) (timers s1)).
  { rewrite Hs1. unfold push, register. fields. apply in_app_iff. now left. }
  assert (Hs2 : s2 = conclude (timeout old) rid (promise old)
                       (Rejected (RequestTimeout ms)) s1).
  { subst s2. unfold step, handle. cbn [fst snd].
    now rewrite (onTimerFires_armed _ _ s1 HC1' Harmed1). }
  split; [|split; [|split; [|split]]].
  - rewrite Hs1. unfold push, register. fields. apply get_set_eq.
  - rewrite Hs2. unfold conclude. fields. apply get_delete_eq.
  - exists ms. rewrite Hs2, Hs1. reflexivity.
  - rewrite Hs2, Hs1. unfold settled, conclude, push, register. fields.
    rewrite map_app, in_app_iff. cbn. intros [Hin|[Heq|[]]].
    + apply (settled_fresh s HC) in Hin. subst p. lia.
    + subst p. lia.
  - rewrite Hs2, Hs1. unfold conclude, push, register. fields.
    apply list_elem_of_In, list_elem_of_filter. split; [cbn; lia|].
    apply list_elem_of_In, in_app_iff. right. now left.
Qed.

Lemma X8_reused_request_id_orphans_the_newer_request_witness :
  let s1 := snd (sendMessageToFoundry 20 (lit "2")
                   (mkMessage (lit "roll") (Some (lit "req_1")) []) 5000
                   Scenario.enqueued) in
  let s2 := step s1 (2010, TimerFires 0%nat) in
  JsMap.get (lit "req_1") (pendingRequests s1) = Some (mkPending 1%nat 1%nat 20)
  /\ JsMap.get (lit "req_1") (pendingRequests s2) = None
  /\ (exists ms,
        settlements s2 = [(0%nat, Rejected (RequestTimeout ms))])
  /\ ~ In 1%nat (settled s2)
  /\ In (1%nat, mkCallback (lit "req_1") 1%nat 5000) (timers s2).
Proof.
  exact (X8_reused_request_id_orphans_the_newer_request 20 2010 (lit "2")
           (lit "roll") [] (lit "req_1") 5000 Scenario.enqueued (lit "gm-1") []
           0%nat (mkPending 0%nat 0%nat 10)
           (reachable_Inv Scenario.keys [(0, Connection Scenario.gm1 false);
                                         (10, Enqueue (lit "1") Scenario.roll 2000)])
           eq_refl eq_refl ltac:(discriminate) eq_refl).
Defined.

(** ** Sockets that are not open *)

Lemma quiet_update ws frames s ws0 g :
  (forall sk, sent (g sk) = sent sk
              /\ (readyState (g sk) = OPEN -> readyState sk = OPEN)) ->
  quiet ws frames s ->
  quiet ws frames
    (with_sockets (fun ss => match ss !! ws0 with
                             | Some sk => <[ws0 := g sk]> ss
                             | None => ss
                             end) s).
Proof.
  intros Hg (sock & Hws & Hsent & Hrs). unfold quiet. fields.
  destruct (sockets s !! ws0) as [sk|] eqn:H0; [|eauto].
  destruct (decide (ws0 = ws)) as [->|Hne].
  - rewrite list_lookup_insert_eq by (apply lookup_lt_is_Some; eauto).
    rewrite Hws in H0. injection H0 as <-. exists (g sock).
    destruct (Hg sock) as [Hs Hr]. repeat split; [congruence|tauto].
  - rewrite list_lookup_insert_ne by exact Hne. eauto.
Qed.

Lemma socket_close_quiet ws frames ws0 code reason :
  keeps (quiet ws frames) (socket_close ws0 code reason).
Proof.
  unfold socket_close. apply keeps_modify. intros s.
  apply (quiet_update ws frames s ws0
    (fun s0 => mkSocket (match readyState s0 with OPEN => CLOSING | r => r end)
                 (sent s0) (closeCalls s0 ++ [(code, reason)]) (sendThrows s0)
                 (listeners s0))).
  intros sk. split; [reflexivity|]. cbn. now destruct (readyState sk).
Qed.

Lemma socket_on_quiet ws frames ws0 client clientId :
  keeps (quiet ws frames) (socket_on ws0 client clientId).
Proof.
  unfold socket_on. apply keeps_modify. intros s.
  apply (quiet_update ws frames s ws0
    (fun s0 => mkSocket (readyState s0) (sent s0) (closeCalls s0) (sendThrows s0)
                 (Some (client, clientId)))).
  intros sk. split; [reflexivity|]. cbn. auto.
Qed.

(** [sendToClient] looks at [readyState] before it sends. *)
Lemma sendToClient_quiet ws frames k message :
  keeps (quiet ws frames) (sendToClient k message).
Proof.
  intros s (sock & Hws & Hsent & Hrs). unfold sendToClient. rewrite bind_gets.
  assert (Hq : quiet ws frames s) by (exists sock; auto).
  destruct (JsMap.get k (clients s)) as [c|]; [|exact Hq].
  unfold deref. rewrite bind_assoc, bind_gets.
  destruct (heap s !! c) as [client|]; [|exact Hq].
  rewrite bind_ret. unfold socket_readyState. rewrite bind_assoc, bind_gets.
  destruct (sockets s !! socket client) as [sk|] eqn:Hsk; [|exact Hq].
  rewrite bind_ret.
  destruct (readyState sk) eqn:Hopen; try exact Hq.
  unfold try_catch, socket_send. rewrite bind_assoc, bind_gets, Hsk.
  destruct (sendThrows sk); [exact Hq|].
  rewrite bind_modify. unfold ret. cbn [snd]. unfold quiet. fields.
  destruct (decide (socket client = ws)) as [Heq|Hne].
  - rewrite Heq, Hws in Hsk. injection Hsk as ->. congruence.
  - rewrite list_lookup_insert_ne by exact Hne. eauto.
Qed.

Ltac keeps_quiet :=
  repeat first
    [ apply sendToClient_quiet | apply socket_close_quiet | apply socket_on_quiet
    | keeps_step
    | apply keeps_forEach; intros [? ?]
    | apply keeps_zoom; intros ? ? H; exact H
    | apply keeps_modify; intros ? H; exact H ].

Lemma step_quiet ws frames s e : quiet ws frames s -> quiet ws frames (step s e).
Proof.
  destruct e as [now ev]. unfold step. cbn [fst snd].
  destruct ev as [request throws|ws0 data|ws0|ws0|suffix message timeoutMs|t|maxAgeMs];
    cbn [handle].
  - revert s. change (keeps (quiet ws frames) (onConnection now request throws)).
    unfold onConnection, handleConnection, deref, socket_readyState.
    apply keeps_bind; [apply keeps_gets|]. intros n.
    apply keeps_bind.
    { apply keeps_modify. intros s (sock & Hws & Hsent & Hrs).
      exists sock. fields. split; [|auto]. now apply lookup_app_l_Some. }
    intros _. keeps_quiet.
  - revert s. change (keeps (quiet ws frames) (onMessage now ws0 data)).
    unfold onMessage, handleMessage, JSON_parse, deref, clearTimeout, settle.
    keeps_quiet.
  - intros (sock & Hws & Hsent & Hrs). unfold onClose. rewrite bind_gets.
    destruct (sockets s !! ws0) as [sk|] eqn:Hsk; [|exists sock; auto].
    rewrite bind_modify.
    match goal with |- quiet _ _ (snd (_ ?s0)) =>
      assert (Hq : quiet ws frames s0)
    end.
    { unfold quiet. fields. destruct (decide (ws0 = ws)) as [->|Hne].
      - rewrite list_lookup_insert_eq by (apply lookup_lt_is_Some; eauto).
        rewrite Hws in Hsk. injection Hsk as <-.
        eexists. split; [reflexivity|]. cbn. split; [exact Hsent|discriminate].
      - rewrite list_lookup_insert_ne by exact Hne. eauto. }
    destruct (listeners sk) as [[c k]|]; exact Hq.
  - revert s. change (keeps (quiet ws frames) (onError ws0)).
    unfold onError. keeps_quiet.
  - revert s.
    change (keeps (quiet ws frames)
              (sendMessageToFoundry now suffix message timeoutMs ;; ret tt)).
    unfold sendMessageToFoundry, newPromise, setTimeout, clearTimeout, settle.
    keeps_quiet.
  - revert s. change (keeps (quiet ws frames) (onTimerFires t)).
    unfold onTimerFires, onTimeout, settle. keeps_quiet.
  - revert s. change (keeps (quiet ws frames) (cleanupExpiredRequests now maxAgeMs)).
    unfold cleanupExpiredRequests, clearTimeout, settle. keeps_quiet.
Qed.

(** X9.  Nothing is sent on a socket that is not open.  Once the
    [readyState] of a socket is other than [OPEN], no event makes the
    server hand it a frame again: after any run of events the frames it was
    handed are those it had been handed before. *)
Theorem X9_nothing_is_sent_on_a_socket_that_is_not_open ws frames s es :
  quiet ws frames s -> quiet ws frames (run s es).
Proof.
  revert s. induction es as [|e es IH]; intros s Hq; cbn [run fold_left]; [exact Hq|].
  apply IH. now apply step_quiet.
Qed.

Lemma X9_nothing_is_sent_on_a_socket_that_is_not_open_witness :
  quiet 0%nat [welcome]
    (run Scenario.superseded
       [(300, Message 0%nat (Json Scenario.pingFrame));
        (310, Enqueue (lit "1") Scenario.roll 2000);
        (320, Message 0%nat Malformed)]).
Proof.
  apply X9_nothing_is_sent_on_a_socket_that_is_not_open.
  eexists. split; [reflexivity|]. split; [reflexivity|]. discriminate.
Defined.

(** ** Admission *)



(** ** Admission refused *)

Lemma enhanced_isValidKey_turnedDown now key m :
  turnedDown m key ->
  EnhancedApiKeyManager.isValidKey now key m = (Ok false, m).
Proof.
  intros [Hpat Hkey].
  assert (Hvalidate : EnhancedApiKeyManager.validateApiKey now key m = (Ok false, m)).
  { unfold EnhancedApiKeyManager.validateApiKey. run_monad.
    destruct (EnhancedApiKeyManager.initialized m) eqn:Hinit; cbn; [|reflexivity].
    destruct (EnhancedApiKeyManager.apiKeys m !! key) as [k|] eqn:Hk; cbn;
      [|reflexivity].
    now rewrite (Hkey eq_refl k eq_refl). }
  unfold EnhancedApiKeyManager.isValidKey.
  rewrite (bind_Ok _ _ _ _ _ Hvalidate).
  unfold bind. now rewrite enhanced_validateFoundryWorldId_spec, Hpat.
Qed.

Lemma gate_turnedDown now key s :
  turnedDown (apiKeyManager s) key ->
  zoom apiKeyManager (fun m => with_apiKeyManager (fun _ => m))
    (EnhancedApiKeyManager.isValidKey now key) s
  = (Ok false, s).
Proof.
  intros Hdown. unfold zoom.
  rewrite (enhanced_isValidKey_turnedDown now key _ Hdown). now destruct s.
Qed.

(** X10.  A connection that gives no client id or no token (or an empty one)
    is closed with code 4001, and one whose token the gate turns down with
    code 4002.  In both cases [handleConnection] returns without sending
    anything, and the registry, the client records, the pending requests
    and the key table are as they were: all that remains of the attempt is
    the socket, closing. *)
Theorem X10_connection_without_valid_credentials_is_refused
    now request throws s :
  let refused code reason :=
    with_sockets (fun ss => ss ++ [mkSocket CLOSING [] [(code, reason)] throws None]) s in
  (param_id request = None \/ param_id request = Some []
   \/ param_token request = None \/ param_token request = Some [] ->
   onConnection now request throws s
   = (Ok tt, refused 4001 "Missing client ID or token"%string))
  /\ (forall clientId tok,
        param_id request = Some clientId -> clientId <> [] ->
        param_token request = Some tok -> tok <> [] ->
        turnedDown (apiKeyManager s) tok ->
        onConnection now request throws s
        = (Ok tt, refused 4002 "Invalid authentication token"%string)).
Proof.
  intros refused.
  assert (Hclose : forall code reason,
    socket_close (length (sockets s)) code reason
      (with_sockets (fun ss => ss ++ [mkSocket OPEN [] [] throws None]) s)
    = (Ok tt, refused code reason)).
  { intros code reason. unfold socket_close, modify, refused, with_sockets.
    fields. rewrite lookup_app_r, Nat.sub_diag by lia. cbn [lookup list_lookup].
    do 2 f_equal. rewrite insert_app_r_alt, Nat.sub_diag by lia. reflexivity. }
  split.
  - intros Hmissing. unfold onConnection. rewrite bind_gets, bind_modify.
    unfold handleConnection.
    destruct (param_id request) as [clientId|];
      [|destruct (param_token request); apply Hclose].
    destruct (param_token request) as [tok|]; [|apply Hclose].
    destruct clientId as [|c0 cl]; [apply Hclose|].
    destruct tok as [|t0 tl]; [apply Hclose|].
    exfalso. destruct Hmissing as [[=]|[[=]|[[=]|[=]]]].
  - intros clientId tok Hid Hne Htok Hnt Hdown.
    unfold onConnection. rewrite bind_gets, bind_modify.
    unfold handleConnection. rewrite Hid, Htok.
    replace (is_empty clientId || is_empty tok) with false
      by (destruct clientId, tok; try reflexivity; congruence).
    match goal with |- bind _ _ ?s0 = _ =>
      rewrite (bind_Ok _ _ _ _ _ (gate_turnedDown now tok s0 Hdown))
    end.
    cbn [negb]. apply Hclose.
Qed.

Lemma X10_connection_without_valid_credentials_is_refused_witness :
  onConnection 300 (mkRequest (Some (lit "gm-3")) (Some (lit "short"))) false
    Scenario.connected
  = (Ok tt,
     with_sockets (fun ss =>
       ss ++ [mkSocket CLOSING [] [(4002, "Invalid authentication token"%string)]
                false None]) Scenario.connected).
Proof.
  refine (proj2 (X10_connection_without_valid_credentials_is_refused 300
                   (mkRequest (Some (lit "gm-3")) (Some (lit "short"))) false
                   Scenario.connected)
            (lit "gm-3") (lit "short") eq_refl _ eq_refl _ _).
  - discriminate.
  - discriminate.
  - split; [reflexivity|]. intros _ k Hk. discriminate.
Defined.

(** ** The order of the middlewares *)

(** X11.  No route is reached without a valid key.  A request for any path
    but [/status] that carries no [x-api-key] header (or an empty one) is
    answered 401 ['API key required'], and one whose key the gate turns
    down 401 ['Invalid API key']: whatever the route, known or not, whether
    or not a client is connected and whatever the body, and nothing in the
    server changes. *)
Theorem X11_no_route_is_reached_without_a_valid_key now suffix req s :
  path (route req) <> lit "/status" ->
  (x_api_key req = None \/ x_api_key req = Some [] ->
   dispatch now suffix req s
   = (Ok (Answered (mkRes 401
        (ErrorBody "API key required"
           (Some "Include x-api-key header with your request"%string)))), s))
  /\ (forall key,
        x_api_key req = Some key -> key <> [] ->
        turnedDown (apiKeyManager s) key ->
        dispatch now suffix req s
        = (Ok (Answered (mkRes 401
             (ErrorBody "Invalid API key"
                (Some "The provided API key is not valid or has been revoked"%string)))),
           s)).
Proof.
  intros Hpath. split.
  - intros Hkey.
    assert (Hauth : authenticate now req s
      = (Ok (Respond (mkRes 401
           (ErrorBody "API key required"
              (Some "Include x-api-key header with your request"%string)))), s)).
    { unfold authenticate. rewrite bool_decide_eq_false_2 by exact Hpath.
      destruct Hkey as [-> | ->]; reflexivity. }
    unfold dispatch. now rewrite (bind_Ok _ _ _ _ _ Hauth).
  - intros key Hkey Hne Hdown.
    assert (Hauth : authenticate now req s
      = (Ok (Respond (mkRes 401
           (ErrorBody "Invalid API key"
              (Some "The provided API key is not valid or has been revoked"%string)))),
         s)).
    { unfold authenticate. rewrite bool_decide_eq_false_2 by exact Hpath.
      rewrite Hkey.
      replace (is_empty key) with false by (destruct key; [congruence|reflexivity]).
      unfold try_catch.
      now rewrite (bind_Ok _ _ _ _ _ (gate_turnedDown now key s Hdown)). }
    unfold dispatch. now rewrite (bind_Ok _ _ _ _ _ Hauth).
Qed.

Lemma X11_no_route_is_reached_without_a_valid_key_witness :
  dispatch 300 (lit "1")
    (mkReq (NoRoute (lit "/nonexistent")) None [] []) Scenario.connected
  = (Ok (Answered (mkRes 401
       (ErrorBody "API key required"
          (Some "Include x-api-key header with your request"%string)))),
     Scenario.connected).
Proof.
  refine (proj1 (X11_no_route_is_reached_without_a_valid_key 300 (lit "1")
                   (mkReq (NoRoute (lit "/nonexistent")) None [] [])
                   Scenario.connected _) _).
  - discriminate.
  - now left.
Defined.

Lemma authenticate_cases now req s :
  exists m',
    authenticate now req s = (Ok Next, with_apiKeyManager (fun _ => m') s)
    \/ exists r,
         authenticate now req s
         = (Ok (Respond r), with_apiKeyManager (fun _ => m') s)
         /\ (status r = 401 \/ status r = 500).
Proof.
  unfold authenticate.
  destruct (bool_decide (path (route req) = lit "/status")).
  - exists (apiKeyManager s). left. destruct s; reflexivity.
  - destruct (x_api_key req) as [apiKey|].
    + destruct (is_empty apiKey).
      * exists (apiKeyManager s). right. eexists. split; [destruct s; reflexivity|].
        now left.
      * unfold try_catch, bind.
        destruct (gate_frame now apiKey s) as (b & m' & -> & _).
        exists m'. destruct b; cbn; unfold ret; [now left|].
        right. eexists. split; [reflexivity|]. now left.
    + exists (apiKeyManager s). right. eexists. split; [destruct s; reflexivity|].
      now left.
Qed.

(** X12.  A 400 is the last answer the router can give.  Whenever a request
    is answered 400, its key has passed the first middleware and a client
    is registered; the answer is the one its route gives for a missing
    parameter, and giving it hands nothing to the correlator: no message is
    sent, nothing is left pending, and only the key table can have changed
    (the [lastUsed] of the key). *)
Theorem X12_bad_request_is_answered_last now suffix req s r :
  fst (dispatch now suffix req s) = Ok (Answered r) ->
  status r = 400 ->
  fst (authenticate now req s) = Ok Next
  /\ getConnectedClients s <> []
  /\ prepare now req (getConnectedClients s) = Answer r
  /\ exists m', snd (dispatch now suffix req s) = with_apiKeyManager (fun _ => m') s.
Proof.
  intros Hrun Hstatus. unfold dispatch in *.
  destruct (authenticate_cases now req s) as (m' & [Hauth|(r' & Hauth & Hr')]);
    rewrite (bind_Ok _ _ _ _ _ Hauth) in *; rewrite Hauth.
  2:{ cbn in Hrun. injection Hrun as <-. lia. }
  unfold checkConnection in *. rewrite bind_assoc, bind_gets in *.
  replace (getConnectedClients (with_apiKeyManager (fun _ => m') s))
    with (getConnectedClients s) in * by reflexivity.
  destruct (getConnectedClients s) as [|k ks] eqn:Hks.
  { cbn in Hrun. injection Hrun as <-. discriminate. }
  cbn [length Nat.eqb] in *. rewrite bind_ret, bind_gets in *.
  replace (getConnectedClients (with_apiKeyManager (fun _ => m') s))
    with (k :: ks) in * by (symmetry; exact Hks).
  destruct (prepare now req (k :: ks)) as [r0|message|] eqn:Hprep.
  - cbn in Hrun. injection Hrun as ->.
    split; [reflexivity|]. split; [discriminate|]. split; [reflexivity|].
    now exists m'.
  - exfalso. unfold bind in Hrun.
    destruct (sendMessageToFoundry now suffix message 30000 _) as [[p|e] s1];
      discriminate.
  - discriminate.
Qed.

Lemma X12_bad_request_is_answered_last_witness :
  let req := mkReq Search (Some (lit "abcdefgh12")) [] [] in
  prepare 300 req (getConnectedClients Scenario.connected)
  = Answer (mkRes 400 (ErrorBody "Query parameter is required" None))
  /\ exists m',
       snd (dispatch 300 (lit "1") req Scenario.connected)
       = with_apiKeyManager (fun _ => m') Scenario.connected.
Proof.
  intros req.
  destruct (X12_bad_request_is_answered_last 300 (lit "1") req Scenario.connected
              (mkRes 400 (ErrorBody "Query parameter is required" None))
              eq_refl eq_refl) as (_ & _ & Hprep & Hframe).
  split; [exact Hprep|exact Hframe].
Defined.

(** ** From the request to its answer *)

(** No route gives the message it forwards a [requestId]. *)
Lemma prepare_forward_no_id now req connected message :
  prepare now req connected = Forward message -> requestId message = None.
Proof.
  unfold prepare, badRequest.
  destruct (route req);
    repeat match goal with
           | |- context [if ?b then _ else _] => destruct b
           | |- context [match ?p with Some _ => _ | None => _ end] => destruct p
           end;
    intros [=]; subst; reflexivity.
Qed.

(** X13.  From the request to its answer.  A request that passes both
    middlewares on a route that forwards is registered under a generated id
    and sent to the first client; when a frame carrying that id then
    arrives on any admitted socket, the promise the route awaits is settled
    once, and [handleAsyncRoute] answers 200 with the frame as the body, or
    500 when the frame has a truthy [error] or the [status] ['error']. *)
Theorem X13_routed_request_is_answered_with_the_peers_frame
    now now' suffix req message s firstClientId rest ws ws' sock c k frame :
  Inv s ->
  fst (authenticate now req s) = Ok Next ->
  getConnectedClients s = firstClientId :: rest ->
  deliverable s firstClientId = Some ws ->
  prepare now req (getConnectedClients s) = Forward message ->
  sockets s !! ws' = Some sock -> listeners sock = Some (c, k) ->
  strictEq (in_type frame) (lit "ping") = false ->
  strictEq (in_type frame) (lit "pong") = false ->
  in_requestId frame = VString (generateRequestId suffix) ->
  let d := dispatch now suffix req s in
  let s2 := step (snd d) (now', Message ws' (Json frame)) in
  fst d = Ok (Awaiting (nextPromise s))
  /\ exists outcome,
       settlements s2 = settlements s ++ [(nextPromise s, outcome)]
       /\ handleAsyncRoute outcome
          = if truthy (in_error frame)
            then mkRes 500 (InternalServerError (PeerError (in_error frame)))
            else if strictEq (in_status frame) (lit "error")
                 then mkRes 500 (InternalServerError UnknownPeerError)
                 else mkRes 200 (Result frame).
Proof.
  intros [HC Hok] Hauth Hkeys Hd Hprep Hsock Hl Hping Hpong Hid d s2.
  destruct (authenticate_total now req s) as (r0 & m' & Heq).
  rewrite Heq in Hauth. cbn in Hauth. injection Hauth as ->.
  set (s0 := with_apiKeyManager (fun _ => m') s) in *.
  assert (Hok0 : refs_ok s0 = true) by (rewrite <- Hok; now apply refs_ok_ext).
  set (rid := generateRequestId suffix) in *.
  set (out := mkMessage (type message) (Some rid) (fields message)).
  assert (Hd' : d = (Ok (Awaiting (nextPromise s)),
                     push out ws (register now rid 30000 s0))).
  { subst d. unfold dispatch. rewrite (bind_Ok _ _ _ _ _ Heq).
    unfold checkConnection. rewrite bind_assoc, bind_gets.
    replace (getConnectedClients s0) with (getConnectedClients s) by reflexivity.
    rewrite Hkeys. cbn [length Nat.eqb]. rewrite bind_ret, bind_gets.
    replace (getConnectedClients s0) with (getConnectedClients s) by reflexivity.
    rewrite Hprep.
    pose proof (sendMessageToFoundry_registered now suffix message 30000 s0
                  firstClientId rest Hok0 Hkeys) as Hsend.
    cbn zeta in Hsend.
    rewrite (prepare_forward_no_id _ _ _ _ Hprep) in Hsend.
    rewrite (deliverable_corr s s0) in Hsend by reflexivity.
    rewrite Hd in Hsend. now rewrite (bind_Ok _ _ _ _ _ Hsend). }
  rewrite Hd'. cbn [fst]. split; [reflexivity|].
  subst s2. rewrite Hd'. cbn [snd].
  set (s1 := push out ws (register now rid 30000 s0)).
  destruct (refs_ok_listener s ws' sock c k Hok Hsock Hl) as (client & _ & Hc & _).
  assert (Hsock1 : exists sock1, sockets s1 !! ws' = Some sock1
                                 /\ listeners sock1 = Some (c, k)).
  { subst s1. rewrite push_sockets.
    replace (sockets (register now rid 30000 s0)) with (sockets s) by reflexivity.
    rewrite Hsock. destruct (decide (ws = ws')); eexists; split; try reflexivity;
      exact Hl. }
  destruct Hsock1 as (sock1 & Hsock1 & Hl1).
  unfold step, handle. cbn [fst snd]. unfold onMessage.
  rewrite bind_gets, Hsock1, Hl1.
  assert (Hrid : rid <> []) by discriminate.
  assert (Hget : JsMap.get rid (pendingRequests s1)
                 = Some (mkPending (nextPromise s) (nextTimer s) now)).
  { subst s1. unfold push, register. fields. apply get_set_eq. }
  rewrite (handleMessage_settles now' c client frame rid _ s1 Hc Hping Hpong Hid
             Hrid Hget).
  cbn [snd]. eexists. split; [reflexivity|].
  destruct (truthy (in_error frame)); [reflexivity|].
  destruct (strictEq (in_status frame) (lit "error")); reflexivity.
Qed.

Lemma X13_routed_request_is_answered_with_the_peers_frame_witness :
  let req := mkReq Roll (Some (lit "abcdefgh12"))
               [(lit "formula", VString (lit "1d20"))] [] in
  let d := dispatch 10 (lit "1") req Scenario.connected in
  let s2 := step (snd d) (60, Message 0%nat (Json Scenario.rollResult)) in
  fst d = Ok (Awaiting 0%nat)
  /\ exists outcome,
       settlements s2 = [(0%nat, outcome)]
       /\ handleAsyncRoute outcome = mkRes 200 (Result Scenario.rollResult).
Proof.
  exact (X13_routed_request_is_answered_with_the_peers_frame 10 60 (lit "1")
           (mkReq Roll (Some (lit "abcdefgh12"))
              [(lit "formula", VString (lit "1d20"))] [])
           (mkMessage (lit "perform-roll") None
              [(lit "formula", VString (lit "1d20")); (lit "actor", VUndefined)])
           Scenario.connected (lit "gm-1") [] 0%nat 0%nat
           (mkSocket OPEN [welcome] [] false (Some (0%nat, lit "gm-1")))
           0%nat (lit "gm-1") Scenario.rollResult
           (reachable_Inv Scenario.keys [(0, Connection Scenario.gm1 false)])
           eq_refl eq_refl eq_refl eq_refl eq_refl eq_refl eq_refl eq_refl eq_refl).
Defined.

(** ** Deadlines and sweeps *)

(** X25.  Every pending request has a deadline.  In every state the server
    can reach, each entry of [pendingRequests] has its timer armed, with a
    callback that deletes the entry under its id and rejects its promise,
    and that promise has not been settled: no request stays pending without
    a deadline, and none is pending once its promise is settled. *)
Theorem X25_every_pending_request_has_a_deadline keys es k r :
  let s := run (init keys) es in
  In (k, r) (pendingRequests s) ->
  (exists ms, In (timeout r, mkCallback k (promise r) ms) (timers s))
  /\ ~ In (promise r) (settled s).
Proof.
  intros s Hin. destruct (reachable_Inv keys es) as [HC _]. fold s in HC.
  destruct (pending_armed s HC k r Hin) as (ms & Harmed).
  split; [now exists ms|].
  apply (awaited_unsettled s HC). unfold awaited.
  apply in_map_iff. exists (timeout r, mkCallback k (promise r) ms). auto.
Qed.

Lemma X25_every_pending_request_has_a_deadline_witness :
  (exists ms, In (0%nat, mkCallback (lit "req_1") 0%nat ms) (timers Scenario.enqueued))
  /\ ~ In 0%nat (settled Scenario.enqueued).
Proof.
  apply (X25_every_pending_request_has_a_deadline Scenario.keys
           [(0, Connection Scenario.gm1 false);
            (10, Enqueue (lit "1") Scenario.roll 2000)]
           (lit "req_1") (mkPending 0%nat 0%nat 10)).
  now left.
Defined.

Lemma sweep_nothing now maxAgeMs l s :
  (forall e, In e l -> tooOld now maxAgeMs e = false) ->
  fold_left (sweepEntry now maxAgeMs) l s = s.
Proof.
  revert s. induction l as [|e l IH]; intros s Hyoung; cbn [fold_left]; [reflexivity|].
  unfold sweepEntry at 2. rewrite (Hyoung e (or_introl eq_refl)).
  apply IH. intros e' He'. apply Hyoung. now right.
Qed.

Lemma sweep_wf now maxAgeMs l s :
  JsMap.wf (pendingRequests s) ->
  JsMap.wf (pendingRequests (fold_left (sweepEntry now maxAgeMs) l s)).
Proof.
  revert s. induction l as [|e l IH]; intros s Hwf; cbn [fold_left]; [exact Hwf|].
  apply IH. unfold sweepEntry. destruct (tooOld now maxAgeMs e); [|exact Hwf].
  unfold expire, conclude. fields. now apply wf_delete.
Qed.

(** X26.  A sweep leaves nothing for a second one.  A second call of
    [cleanupExpiredRequests] at the same time and with the same bound
    changes nothing: the entries the first call has left are all young
    enough. *)
Theorem X26_a_sweep_leaves_nothing_for_a_second_one now maxAgeMs s :
  JsMap.wf (pendingRequests s) ->
  let s1 := snd (cleanupExpiredRequests now maxAgeMs s) in
  cleanupExpiredRequests now maxAgeMs s1 = (Ok tt, s1).
Proof.
  intros Hwf s1. rewrite cleanupExpiredRequests_spec. f_equal.
  apply sweep_nothing. intros [k r] Hin.
  subst s1. rewrite cleanupExpiredRequests_spec in Hin. cbn [snd] in Hin.
  pose proof (sweep_wf now maxAgeMs (pendingRequests s) s Hwf) as Hwf1.
  apply (In_get _ _ _ Hwf1) in Hin. rewrite sweep_pending in Hin.
  destruct (existsb _ (pendingRequests s)) eqn:Hex; [discriminate|].
  apply get_Some_In in Hin.
  destruct (tooOld now maxAgeMs (k, r)) eqn:Hold; [|reflexivity].
  exfalso. apply Bool.not_true_iff_false in Hex. apply Hex.
  apply existsb_exists. exists (k, r). split; [exact Hin|].
  cbn [fst]. now rewrite bool_decide_eq_true_2, Hold.
Qed.

Lemma X26_a_sweep_leaves_nothing_for_a_second_one_witness :
  let s1 := snd (cleanupExpiredRequests 60011 60000 Scenario.enqueued) in
  cleanupExpiredRequests 60011 60000 s1 = (Ok tt, s1).
Proof.
  apply (X26_a_sweep_leaves_nothing_for_a_second_one 60011 60000 Scenario.enqueued).
  apply (wf_set [] (lit "req_1")), wf_nil.
Defined.

(** * The key table *)

(** ** The table as the gate sees it *)

Section ViewFacts.
Context {V : Type}.
Implicit Types (m : JsMap.t V) (k : JsString) (v : V).

Lemma view_lookup m k :
  (list_to_map m : gmap JsString V) !! k = JsMap.get k m.
Proof.
  induction m as [|[k' v'] m IH]; cbn [list_to_map JsMap.get foldr]; [reflexivity|].
  cbn. destruct (decide (k' = k)) as [->|Hne].
  - apply lookup_insert_eq.
  - rewrite lookup_insert_ne by exact Hne. exact IH.
Qed.

Lemma view_set m k v :
  (list_to_map (JsMap.set k v m) : gmap JsString V) = <[k := v]> (list_to_map m).
Proof.
  apply map_eq. intros k'. rewrite view_lookup.
  destruct (decide (k = k')) as [<-|Hne].
  - now rewrite get_set_eq, lookup_insert_eq.
  - rewrite get_set_ne by exact Hne.
    rewrite lookup_insert_ne by exact Hne. now rewrite view_lookup.
Qed.
End ViewFacts.

(** ** The methods of the key table, in equations *)

Lemma save_sync_eq s :
  KeyStore.saveApiKeysSync s
  = (Ok tt,
     if KeyStore.writeFails s then s
     else KeyStore.with_apiKeysFile (KeyStore.Stored (KeyStore.values s)) s).
Proof.
  unfold KeyStore.saveApiKeysSync, try_catch. rewrite bind_gets. unfold Datatypes.id.
  now destruct (KeyStore.writeFails s).
Qed.

Lemma save_async_eq s :
  KeyStore.saveApiKeysAsync s
  = if KeyStore.writeFails s then (Throw IOError, s)
    else (Ok tt, KeyStore.with_apiKeysFile (KeyStore.Stored (KeyStore.values s)) s).
Proof.
  unfold KeyStore.saveApiKeysAsync, try_catch. rewrite bind_gets. unfold Datatypes.id.
  now destruct (KeyStore.writeFails s).
Qed.

Lemma generate_eq now fresh name s :
  let key := lit "fvtt_" ++ KeyStore.toString_hex (KeyStore.keyBytes fresh) in
  let apiKey := mkApiKey (KeyStore.uuid fresh) key name now None true in
  let s0 := KeyStore.with_apiKeys (JsMap.set key apiKey) s in
  KeyStore.generateApiKeySync now fresh name s
  = (Ok apiKey,
     if KeyStore.writeFails s then s0
     else KeyStore.with_apiKeysFile (KeyStore.Stored (KeyStore.values s0)) s0).
Proof.
  intros key apiKey s0. unfold KeyStore.generateApiKeySync.
  rewrite bind_modify. fold key apiKey s0.
  now rewrite (bind_Ok _ _ _ _ _ (save_sync_eq s0)).
Qed.

Lemma validate_eq now key s :
  KeyStore.validateApiKey now key s
  = match JsMap.get key (KeyStore.apiKeys s) with
    | Some k =>
        if KeyStore.initialized s && ak_active k
        then (Ok true,
              KeyStore.with_immediates S
                (KeyStore.with_apiKeys (JsMap.set key (touch now k)) s))
        else (Ok false, s)
    | None => (Ok false, s)
    end.
Proof.
  unfold KeyStore.validateApiKey. rewrite bind_gets. unfold Datatypes.id.
  destruct (KeyStore.initialized s); cbn [negb andb];
    [|now destruct (JsMap.get key (KeyStore.apiKeys s))].
  destruct (JsMap.get key (KeyStore.apiKeys s)) as [k|]; [|reflexivity].
  destruct (ak_active k); cbn [negb]; [|reflexivity].
  now rewrite !bind_modify.
Qed.

Lemma worldId_eq worldId s :
  KeyStore.validateFoundryWorldId worldId s = (Ok (validPattern_test worldId), s).
Proof.
  unfold KeyStore.validateFoundryWorldId, zoom.
  now rewrite enhanced_validateFoundryWorldId_spec.
Qed.

Lemma isValidKey_eq now key s :
  KeyStore.isValidKey now key s
  = match KeyStore.validateApiKey now key s with
    | (Ok true, s') => (Ok true, s')
    | (Ok false, s') => (Ok (validPattern_test key), s')
    | (Throw e, s') => (Throw e, s')
    end.
Proof.
  unfold KeyStore.isValidKey, bind.
  destruct (KeyStore.validateApiKey now key s) as [[[|]|e] s']; try reflexivity.
  rewrite worldId_eq. now destruct (validPattern_test key).
Qed.

(** The gate the handler and the router hold is this one, seen through
    [view]. *)
Lemma view_validateApiKey now key s :
  EnhancedApiKeyManager.validateApiKey now key (KeyStore.view s)
  = (fst (KeyStore.validateApiKey now key s),
     KeyStore.view (snd (KeyStore.validateApiKey now key s))).
Proof.
  rewrite validate_eq.
  unfold EnhancedApiKeyManager.validateApiKey. rewrite bind_gets. unfold Datatypes.id.
  cbn [KeyStore.view EnhancedApiKeyManager.initialized EnhancedApiKeyManager.apiKeys].
  rewrite view_lookup.
  destruct (KeyStore.initialized s) eqn:Hinit; cbn [negb andb];
    [|now destruct (JsMap.get key (KeyStore.apiKeys s))].
  destruct (JsMap.get key (KeyStore.apiKeys s)) as [k|]; [|reflexivity].
  destruct (ak_active k); cbn [negb fst snd]; [|reflexivity].
  rewrite bind_modify. unfold ret, KeyStore.view. cbn. now rewrite view_set, Hinit.
Qed.

Lemma view_isValidKey now key s :
  EnhancedApiKeyManager.isValidKey now key (KeyStore.view s)
  = (fst (KeyStore.isValidKey now key s),
     KeyStore.view (snd (KeyStore.isValidKey now key s))).
Proof.
  rewrite isValidKey_eq.
  unfold EnhancedApiKeyManager.isValidKey, bind.
  rewrite view_validateApiKey.
  destruct (KeyStore.validateApiKey now key s) as [[[|]|e] s']; cbn [fst snd];
    try reflexivity.
  rewrite enhanced_validateFoundryWorldId_spec.
  now destruct (validPattern_test key).
Qed.

(** ** Generated keys *)

Lemma hexDigit_inClass n : (n < 16)%N -> inClass (KeyStore.hexDigit n) = true.
Proof.
  intros Hn. unfold inClass, KeyStore.hexDigit.
  destruct (n <? 10)%N eqn:Hlt.
  - apply N.ltb_lt in Hlt.
    replace (48 <=? 48 + n)%N with true by (symmetry; apply N.leb_le; lia).
    replace (48 + n <=? 57)%N with true by (symmetry; apply N.leb_le; lia).
    cbn. now rewrite !orb_true_r.
  - apply N.ltb_ge in Hlt.
    replace (97 <=? 87 + n)%N with true by (symmetry; apply N.leb_le; lia).
    replace (87 + n <=? 122)%N with true by (symmetry; apply N.leb_le; lia).
    reflexivity.
Qed.

Lemma toString_hex_inClass bytes :
  Forall (fun b => (b < 256)%N) bytes ->
  forallb inClass (KeyStore.toString_hex bytes) = true.
Proof.
  induction 1 as [|b bytes Hb _ IH]; [reflexivity|].
  cbn [KeyStore.toString_hex flat_map app forallb].
  rewrite !hexDigit_inClass.
  - exact IH.
  - apply N.mod_lt. discriminate.
  - apply N.Div0.div_lt_upper_bound. lia.
Qed.

Lemma toString_hex_length bytes :
  length (KeyStore.toString_hex bytes) = (2 * length bytes)%nat.
Proof.
  induction bytes as [|b bytes IH]; [reflexivity|].
  cbn [KeyStore.toString_hex flat_map app length]. fold (KeyStore.toString_hex bytes).
  rewrite IH. lia.
Qed.

(** A generated key has sixty-nine code units, all of the class of the
    world-id pattern. *)
Lemma generated_key_pattern bytes :
  KeyStore.bytes32 bytes ->
  length (lit "fvtt_" ++ KeyStore.toString_hex bytes) = 69%nat
  /\ validPattern_test (lit "fvtt_" ++ KeyStore.toString_hex bytes) = true.
Proof.
  intros [Hlen Hbytes].
  assert (H69 : length (lit "fvtt_" ++ KeyStore.toString_hex bytes) = 69%nat).
  { rewrite length_app, toString_hex_length, Hlen. reflexivity. }
  split; [exact H69|]. unfold validPattern_test. rewrite H69.
  rewrite forallb_app, toString_hex_inClass by exact Hbytes. reflexivity.
Qed.

Lemma revoke_eq key s :
  KeyStore.revokeApiKey key s
  = match JsMap.get key (KeyStore.apiKeys s) with
    | None => (Ok false, s)
    | Some k =>
        let s0 := KeyStore.with_apiKeys (JsMap.set key (KeyStore.deactivate k)) s in
        if KeyStore.writeFails s then (Throw IOError, s0)
        else (Ok true,
              KeyStore.with_apiKeysFile (KeyStore.Stored (KeyStore.values s0)) s0)
    end.
Proof.
  unfold KeyStore.revokeApiKey. rewrite bind_gets.
  destruct (JsMap.get key (KeyStore.apiKeys s)) as [k|]; [|reflexivity].
  rewrite bind_modify. cbn zeta. unfold bind. rewrite save_async_eq.
  cbn [KeyStore.writeFails KeyStore.with_apiKeys].
  now destruct (KeyStore.writeFails s).
Qed.

Lemma delete_eq key s :
  KeyStore.deleteApiKey key s
  = let s0 := KeyStore.with_apiKeys (JsMap.delete key) s in
    if JsMap.has key (KeyStore.apiKeys s) then
      if KeyStore.writeFails s then (Throw IOError, s0)
      else (Ok true,
            KeyStore.with_apiKeysFile (KeyStore.Stored (KeyStore.values s0)) s0)
    else (Ok false, s0).
Proof.
  unfold KeyStore.deleteApiKey. rewrite bind_gets. cbn zeta. rewrite bind_modify.
  destruct (JsMap.has key (KeyStore.apiKeys s)); [|reflexivity].
  unfold bind. rewrite save_async_eq.
  cbn [KeyStore.writeFails KeyStore.with_apiKeys].
  now destruct (KeyStore.writeFails s).
Qed.

Lemma runImmediate_eq s :
  KeyStore.runImmediate s
  = (Ok tt,
     match KeyStore.immediates s with
     | O => s
     | S n =>
         let s0 := KeyStore.with_immediates (fun _ => n) s in
         if KeyStore.writeFails s then s0
         else KeyStore.with_apiKeysFile (KeyStore.Stored (KeyStore.values s0)) s0
     end).
Proof.
  unfold KeyStore.runImmediate. rewrite bind_gets.
  destruct (KeyStore.immediates s) as [|n]; [reflexivity|].
  rewrite bind_modify. unfold try_catch. rewrite save_async_eq.
  cbn [KeyStore.writeFails KeyStore.with_immediates].
  now destruct (KeyStore.writeFails s).
Qed.

(** ** Revocation *)

(** X14.  Revocation does not close the gate.  After [revokeApiKey] or
    [deleteApiKey] of a key, whether the call returned or threw,
    [validateApiKey] rejects the key; but [isValidKey], which the router and
    the WebSocket handler ask, still accepts it whenever it has the world-id
    format, and every key [generateApiKey] makes has that format (lemma
    [generated_key_pattern]).  The last line says it of the gate as the
    handler and the router hold it. *)
Theorem X14_revocation_does_not_close_the_gate now key s s1 :
  validPattern_test key = true ->
  s1 = snd (KeyStore.revokeApiKey key s) \/ s1 = snd (KeyStore.deleteApiKey key s) ->
  fst (KeyStore.validateApiKey now key s1) = Ok false
  /\ fst (KeyStore.isValidKey now key s1) = Ok true
  /\ fst (EnhancedApiKeyManager.isValidKey now key (KeyStore.view s1)) = Ok true.
Proof.
  intros Hpat Hs1.
  assert (Hvalidate : KeyStore.validateApiKey now key s1 = (Ok false, s1)).
  { rewrite validate_eq. destruct Hs1 as [-> | ->].
    - rewrite revoke_eq.
      destruct (JsMap.get key (KeyStore.apiKeys s)) as [k|] eqn:Hget.
      + cbn zeta.
        destruct (KeyStore.writeFails s); cbn [snd KeyStore.apiKeys
          KeyStore.with_apiKeys KeyStore.with_apiKeysFile];
          rewrite get_set_eq; cbn; now rewrite andb_false_r.
      + cbn [snd]. now rewrite Hget.
    - rewrite delete_eq. cbn zeta.
      destruct (JsMap.has key (KeyStore.apiKeys s));
        [destruct (KeyStore.writeFails s)|];
        cbn [snd KeyStore.apiKeys KeyStore.with_apiKeys KeyStore.with_apiKeysFile];
        now rewrite get_delete_eq. }
  assert (Hgate : fst (KeyStore.isValidKey now key s1) = Ok true)
    by now rewrite isValidKey_eq, Hvalidate, Hpat.
  split; [now rewrite Hvalidate|]. split; [exact Hgate|].
  now rewrite view_isValidKey.
Qed.

Lemma X14_revocation_does_not_close_the_gate_witness :
  let revoked := snd (KeyStore.revokeApiKey Scenario.key1 Scenario.store) in
  fst (KeyStore.validateApiKey 50 Scenario.key1 revoked) = Ok false
  /\ fst (KeyStore.isValidKey 50 Scenario.key1 revoked) = Ok true
  /\ fst (EnhancedApiKeyManager.isValidKey 50 Scenario.key1 (KeyStore.view revoked))
     = Ok true.
Proof.
  intros revoked.
  apply (X14_revocation_does_not_close_the_gate 50 Scenario.key1 Scenario.store
           revoked eq_refl).
  now left.
Defined.

(** ** The file *)

Lemma forEach_modify {S A} (f : A -> S -> S) (l : list A) (s : S) :
  forEach l (fun x => modify (f x)) s = (Ok tt, fold_left (fun s x => f x s) l s).
Proof.
  revert s. induction l as [|x l IH]; intros s; cbn [forEach fold_left]; [reflexivity|].
  now rewrite bind_modify, IH.
Qed.

Lemma fold_apiKeys (keys : list ApiKey) s :
  fold_left (fun s key => KeyStore.with_apiKeys (JsMap.set (ak_key key) key) s) keys s
  = KeyStore.with_apiKeys
      (fun m => fold_left (fun m key => JsMap.set (ak_key key) key m) keys m) s.
Proof.
  revert s. induction keys as [|key keys IH]; intros s; cbn [fold_left].
  - now destruct s.
  - now rewrite IH.
Qed.

Lemma load_eq now fresh s :
  KeyStore.loadApiKeysSync now fresh s
  = (Ok tt,
     match KeyStore.apiKeysFile s with
     | KeyStore.Missing =>
         snd (KeyStore.generateApiKeySync now fresh (lit "default-server") s)
     | KeyStore.Unreadable => s
     | KeyStore.Stored keys =>
         KeyStore.with_apiKeys (fun _ => KeyStore.loaded keys) s
     end).
Proof.
  unfold KeyStore.loadApiKeysSync, try_catch. rewrite bind_gets.
  destruct (KeyStore.apiKeysFile s) as [| |keys].
  - unfold KeyStore.createDefaultKeySync, bind. now rewrite generate_eq.
  - reflexivity.
  - rewrite bind_modify.
    rewrite (forEach_modify
      (fun key => KeyStore.with_apiKeys (JsMap.set (ak_key key) key))).
    now rewrite fold_apiKeys.
Qed.

(** What the constructor leaves, by what it finds at the path. *)
Lemma new_eq file w now fresh :
  KeyStore.new file w now fresh
  = match file with
    | KeyStore.Missing =>
        let key := lit "fvtt_" ++ KeyStore.toString_hex (KeyStore.keyBytes fresh) in
        let apiKey := mkApiKey (KeyStore.uuid fresh) key (lit "default-server")
                        now None true in
        KeyStore.mk [(key, apiKey)] true
          (if w then KeyStore.Missing else KeyStore.Stored [apiKey]) w 0
    | KeyStore.Unreadable => KeyStore.mk [] true KeyStore.Unreadable w 0
    | KeyStore.Stored keys =>
        KeyStore.mk (KeyStore.loaded keys) true (KeyStore.Stored keys) w 0
    end.
Proof.
  unfold KeyStore.new, KeyStore.initializeSync, try_catch.
  rewrite (bind_Ok _ _ _ _ _ (load_eq now fresh _)). unfold modify.
  cbn [snd KeyStore.apiKeysFile].
  destruct file as [| |keys]; [|reflexivity|reflexivity].
  rewrite generate_eq. cbn zeta. cbn [KeyStore.writeFails]. now destruct w.
Qed.

Lemma loaded_app acc (m : JsMap.t ApiKey) :
  JsMap.wf (acc ++ m) -> KeyStore.self_keyed m ->
  fold_left (fun m key => JsMap.set (ak_key key) key m) (map snd m) acc = acc ++ m.
Proof.
  revert acc. induction m as [|[k v] m IH]; intros acc Hwf Hself;
    cbn [map fold_left fst snd].
  - now rewrite app_nil_r.
  - apply Forall_cons in Hself as [Hk Hself]. cbn [fst snd] in Hk. rewrite Hk.
    assert (Hnone : JsMap.get k acc = None).
    { apply get_None_keys. intros Hin. unfold JsMap.wf, JsMap.keys in Hwf.
      rewrite map_app in Hwf. apply NoDup_app in Hwf as (_ & Hdis & _).
      apply (Hdis k); [now apply list_elem_of_In|]. cbn. left. }
    rewrite (set_absent acc k v Hnone).
    rewrite IH.
    + now rewrite <- app_assoc.
    + now rewrite <- app_assoc.
    + exact Hself.
Qed.

(** Loading what a save has written gives back the table, in its order. *)
Lemma loaded_values (m : JsMap.t ApiKey) :
  JsMap.wf m -> KeyStore.self_keyed m -> KeyStore.loaded (map snd m) = m.
Proof. intros Hwf Hself. now apply (loaded_app [] m). Qed.

Lemma rotate_eq now fresh oldKey s :
  KeyStore.rotateApiKey now fresh oldKey s
  = match JsMap.get oldKey (KeyStore.apiKeys s) with
    | None => (Ok None, s)
    | Some existingKey =>
        let key := lit "fvtt_" ++ KeyStore.toString_hex (KeyStore.keyBytes fresh) in
        let apiKey := mkApiKey (KeyStore.uuid fresh) key (ak_name existingKey)
                        now None true in
        let s0 := snd (KeyStore.generateApiKeySync now fresh (ak_name existingKey) s) in
        let s1 := if bool_decide (key = oldKey) then s0
                  else KeyStore.with_apiKeys
                         (JsMap.set oldKey (KeyStore.deactivate existingKey)) s0 in
        if KeyStore.writeFails s then (Throw IOError, s1)
        else (Ok (Some apiKey),
              KeyStore.with_apiKeysFile (KeyStore.Stored (KeyStore.values s1)) s1)
    end.
Proof.
  unfold KeyStore.rotateApiKey. rewrite bind_gets.
  destruct (JsMap.get oldKey (KeyStore.apiKeys s)) as [existingKey|]; [|reflexivity].
  unfold KeyStore.generateApiKey. cbn zeta.
  rewrite (bind_Ok _ _ _ _ _ (generate_eq now fresh (ak_name existingKey) s)).
  rewrite generate_eq. cbn [snd ak_key].
  destruct (KeyStore.writeFails s) eqn:Hw;
    destruct (bool_decide _) eqn:Hsame;
    first [rewrite bind_ret | rewrite bind_modify];
    unfold bind; rewrite save_async_eq;
    cbn [KeyStore.writeFails KeyStore.with_apiKeys KeyStore.with_apiKeysFile];
    rewrite Hw; reflexivity.
Qed.

(** ** The table stays tidy *)

Lemma self_keyed_set m k (v : ApiKey) :
  KeyStore.self_keyed m -> ak_key v = k -> KeyStore.self_keyed (JsMap.set k v m).
Proof.
  intros Hself Hk. induction m as [|[k' v'] m IH]; cbn.
  - now repeat constructor.
  - apply Forall_cons in Hself as [Hk' Hself].
    destruct (decide (k' = k)).
    + constructor; [exact Hk|exact Hself].
    + constructor; [exact Hk'|now apply IH].
Qed.

Lemma self_keyed_delete m k :
  KeyStore.self_keyed m -> KeyStore.self_keyed (JsMap.delete k m).
Proof.
  intros Hself. induction m as [|[k' v'] m IH]; cbn; [constructor|].
  apply Forall_cons in Hself as [Hk' Hself].
  destruct (decide (k' = k)); [now apply IH|].
  constructor; [exact Hk'|now apply IH].
Qed.

Lemma self_keyed_get m k (v : ApiKey) :
  KeyStore.self_keyed m -> JsMap.get k m = Some v -> ak_key v = k.
Proof.
  intros Hself Hget. apply get_Some_In in Hget.
  unfold KeyStore.self_keyed in Hself. rewrite Forall_forall in Hself.
  apply list_elem_of_In in Hget. exact (Hself (k, v) Hget).
Qed.

Lemma tidy_set s k v :
  KeyStore.tidy s -> ak_key v = k ->
  KeyStore.tidy (KeyStore.with_apiKeys (JsMap.set k v) s).
Proof.
  intros [Hwf Hself] Hk. split; cbn; [now apply wf_set|now apply self_keyed_set].
Qed.

Lemma tidy_delete s k :
  KeyStore.tidy s -> KeyStore.tidy (KeyStore.with_apiKeys (JsMap.delete k) s).
Proof.
  intros [Hwf Hself]. split; cbn; [now apply wf_delete|now apply self_keyed_delete].
Qed.

Lemma tidy_ext s s' :
  KeyStore.apiKeys s' = KeyStore.apiKeys s -> KeyStore.tidy s -> KeyStore.tidy s'.
Proof. unfold KeyStore.tidy. now intros ->. Qed.

Lemma tidy_loaded keys :
  JsMap.wf (KeyStore.loaded keys) /\ KeyStore.self_keyed (KeyStore.loaded keys).
Proof.
  unfold KeyStore.loaded.
  assert (H : forall acc,
    JsMap.wf acc /\ KeyStore.self_keyed acc ->
    JsMap.wf (fold_left (fun m key => JsMap.set (ak_key key) key m) keys acc)
    /\ KeyStore.self_keyed
         (fold_left (fun m key => JsMap.set (ak_key key) key m) keys acc)).
  { induction keys as [|key keys IH]; intros acc [Hwf Hself]; cbn [fold_left];
      [auto|].
    apply IH. split; [now apply wf_set|now apply self_keyed_set]. }
  apply H. split; [apply wf_nil|constructor].
Qed.

Lemma tidy_new file w now fresh : KeyStore.tidy (KeyStore.new file w now fresh).
Proof.
  rewrite new_eq. destruct file as [| |keys]; cbn zeta; unfold KeyStore.tidy;
    cbn [KeyStore.apiKeys].
  - split; [apply (wf_set [] _), wf_nil|now repeat constructor].
  - split; [apply wf_nil|constructor].
  - apply tidy_loaded.
Qed.

Lemma tidy_generate now fresh name s :
  KeyStore.tidy s -> KeyStore.tidy (snd (KeyStore.generateApiKeySync now fresh name s)).
Proof.
  intros Ht. rewrite generate_eq. cbn zeta. cbn [snd].
  pose proof (tidy_set s _ (mkApiKey (KeyStore.uuid fresh)
                (lit "fvtt_" ++ KeyStore.toString_hex (KeyStore.keyBytes fresh))
                name now None true) Ht eq_refl) as Ht0.
  destruct (KeyStore.writeFails s); exact Ht0.
Qed.

Lemma tidy_call s c : KeyStore.tidy s -> KeyStore.tidy (KeyStore.call s c).
Proof.
  intros Ht. pose proof Ht as [Hwf Hself].
  destruct c as [now fresh name|now key|now key|key|key|now fresh oldKey| | |w];
    cbn [KeyStore.call].
  - now apply tidy_generate.
  - rewrite validate_eq.
    destruct (JsMap.get key (KeyStore.apiKeys s)) as [k|] eqn:Hget; [|exact Ht].
    destruct (KeyStore.initialized s && ak_active k); [|exact Ht].
    cbn [snd]. apply (tidy_set s key (touch now k) Ht).
    cbn. now apply (self_keyed_get (KeyStore.apiKeys s)).
  - rewrite isValidKey_eq, validate_eq.
    destruct (JsMap.get key (KeyStore.apiKeys s)) as [k|] eqn:Hget; [|exact Ht].
    destruct (KeyStore.initialized s && ak_active k); [|exact Ht].
    cbn [snd]. apply (tidy_set s key (touch now k) Ht).
    cbn. now apply (self_keyed_get (KeyStore.apiKeys s)).
  - rewrite revoke_eq.
    destruct (JsMap.get key (KeyStore.apiKeys s)) as [k|] eqn:Hget; [|exact Ht].
    assert (Ht0 : KeyStore.tidy
      (KeyStore.with_apiKeys (JsMap.set key (KeyStore.deactivate k)) s)).
    { apply tidy_set; [exact Ht|]. cbn.
      now apply (self_keyed_get (KeyStore.apiKeys s)). }
    cbn zeta. destruct (KeyStore.writeFails s); exact Ht0.
  - rewrite delete_eq. cbn zeta.
    pose proof (tidy_delete s key Ht) as Ht0.
    destruct (JsMap.has key (KeyStore.apiKeys s)); [|exact Ht0].
    destruct (KeyStore.writeFails s); exact Ht0.
  - rewrite rotate_eq.
    destruct (JsMap.get oldKey (KeyStore.apiKeys s)) as [existingKey|] eqn:Hget;
      [|exact Ht].
    cbn zeta.
    pose proof (tidy_generate now fresh (ak_name existingKey) s Ht) as Ht0.
    set (s0 := snd (KeyStore.generateApiKeySync now fresh (ak_name existingKey) s))
      in *.
    assert (Ht1 : KeyStore.tidy
      (if bool_decide (lit "fvtt_" ++ KeyStore.toString_hex (KeyStore.keyBytes fresh)
                       = oldKey)
       then s0
       else KeyStore.with_apiKeys
              (JsMap.set oldKey (KeyStore.deactivate existingKey)) s0)).
    { destruct (bool_decide _); [exact Ht0|].
      apply tidy_set; [exact Ht0|]. cbn.
      now apply (self_keyed_get (KeyStore.apiKeys s)). }
    destruct (KeyStore.writeFails s); exact Ht1.
  - split; cbn; [apply wf_nil|constructor].
  - rewrite runImmediate_eq. cbn [snd].
    destruct (KeyStore.immediates s) as [|n]; [exact Ht|]. cbn zeta.
    destruct (KeyStore.writeFails s); exact Ht.
  - exact Ht.
Qed.

Lemma tidy_calls cs s : KeyStore.tidy s -> KeyStore.tidy (KeyStore.calls s cs).
Proof.
  revert s. induction cs as [|c cs IH]; intros s Ht; cbn; [exact Ht|].
  apply IH. now apply tidy_call.
Qed.

(** X15.  The table stays tidy.  In every state a manager can reach from
    its constructor, whatever was at the path of its file and whatever calls
    were made on it, no key string is in the table twice and every key is
    stored under its own string. *)
Theorem X15_the_table_stays_tidy file w now fresh cs :
  KeyStore.tidy (KeyStore.calls (KeyStore.new file w now fresh) cs).
Proof. apply tidy_calls, tidy_new. Qed.

(** A call that ends with a save leaves in the file what is in the table,
    when the file can be written. *)
Lemma saved_in_sync s c :
  KeyStore.saves s c = true -> KeyStore.writeFails s = false ->
  KeyStore.apiKeysFile (KeyStore.call s c)
  = KeyStore.Stored (KeyStore.values (KeyStore.call s c)).
Proof.
  intros Hsaves Hw.
  destruct c as [now fresh name|now key|now key|key|key|now fresh oldKey| | |w];
    cbn [KeyStore.saves] in Hsaves; try discriminate; cbn [KeyStore.call].
  - rewrite generate_eq, Hw. reflexivity.
  - rewrite revoke_eq. unfold JsMap.has in Hsaves.
    destruct (JsMap.get key (KeyStore.apiKeys s)); [|discriminate].
    cbn zeta. rewrite Hw. reflexivity.
  - rewrite delete_eq. cbn zeta. rewrite Hsaves, Hw. reflexivity.
  - rewrite rotate_eq. unfold JsMap.has in Hsaves.
    destruct (JsMap.get oldKey (KeyStore.apiKeys s)); [|discriminate].
    cbn zeta. rewrite Hw. reflexivity.
  - rewrite runImmediate_eq.
    destruct (KeyStore.immediates s); [discriminate|].
    cbn zeta. rewrite Hw. reflexivity.
Qed.

(** X16.  What is saved is what is loaded.  After a call that ends with a
    save ([generateApiKey], and [revokeApiKey], [deleteApiKey] and
    [rotateApiKey] of a key that is in the table, and a deferred save of
    [validateApiKey]) made while the file can be written, a manager
    constructed on the file holds the same keys as the one that saved, in
    the same order, and is initialized. *)
Theorem X16_what_is_saved_is_what_is_loaded
    file w now fresh cs c w' now' fresh' :
  let s := KeyStore.calls (KeyStore.new file w now fresh) cs in
  KeyStore.saves s c = true -> KeyStore.writeFails s = false ->
  let restarted :=
    KeyStore.new (KeyStore.apiKeysFile (KeyStore.call s c)) w' now' fresh' in
  KeyStore.apiKeys restarted = KeyStore.apiKeys (KeyStore.call s c)
  /\ KeyStore.initialized restarted = true.
Proof.
  intros s Hsaves Hw restarted. subst restarted.
  rewrite (saved_in_sync s c Hsaves Hw), new_eq. cbn [KeyStore.apiKeys
    KeyStore.initialized]. split; [|reflexivity].
  destruct (tidy_call s c (tidy_calls cs _ (tidy_new file w now fresh)))
    as [Hwf Hself].
  now apply loaded_values.
Qed.

Lemma X16_what_is_saved_is_what_is_loaded_witness :
  let s := KeyStore.calls Scenario.store
             [KeyStore.GenerateApiKey 10 Scenario.fresh2 (lit "second");
              KeyStore.RevokeApiKey Scenario.key1] in
  KeyStore.apiKeys
    (KeyStore.new (KeyStore.apiKeysFile s) false 99 Scenario.fresh1)
  = KeyStore.apiKeys s.
Proof.
  exact (proj1 (X16_what_is_saved_is_what_is_loaded KeyStore.Missing false 0
                  Scenario.fresh1
                  [KeyStore.GenerateApiKey 10 Scenario.fresh2 (lit "second")]
                  (KeyStore.RevokeApiKey Scenario.key1) false 99 Scenario.fresh1
                  eq_refl eq_refl)).
Defined.

(** X17.  A revocation that cannot be saved.  When the file cannot be
    written, [revokeApiKey] of an active key throws, but only after it has
    marked the key inactive in the table: [validateApiKey] rejects the key
    from then on.  The file still shows the key active, and a manager
    constructed on it accepts the key again. *)
Theorem X17_a_revocation_that_cannot_be_saved now now' fresh w key k s :
  KeyStore.tidy s ->
  KeyStore.apiKeysFile s = KeyStore.Stored (KeyStore.values s) ->
  KeyStore.writeFails s = true ->
  JsMap.get key (KeyStore.apiKeys s) = Some k -> ak_active k = true ->
  exists s1,
    KeyStore.revokeApiKey key s = (Throw IOError, s1)
    /\ fst (KeyStore.validateApiKey now key s1) = Ok false
    /\ fst (KeyStore.validateApiKey now' key
              (KeyStore.new (KeyStore.apiKeysFile s1) w now fresh)) = Ok true.
Proof.
  intros [Hwf Hself] Hfile Hw Hget Hact.
  rewrite revoke_eq, Hget. cbn zeta. rewrite Hw.
  eexists. split; [reflexivity|]. split.
  - rewrite validate_eq. cbn [KeyStore.apiKeys KeyStore.with_apiKeys].
    rewrite get_set_eq. cbn. now rewrite andb_false_r.
  - cbn [KeyStore.apiKeysFile KeyStore.with_apiKeys]. rewrite Hfile, new_eq.
    rewrite validate_eq. cbn [KeyStore.apiKeys KeyStore.initialized].
    unfold KeyStore.values. rewrite (loaded_values _ Hwf Hself), Hget, Hact.
    reflexivity.
Qed.

Lemma X17_a_revocation_that_cannot_be_saved_witness :
  let s := KeyStore.call Scenario.store (KeyStore.DiskChanges true) in
  exists s1,
    KeyStore.revokeApiKey Scenario.key1 s = (Throw IOError, s1)
    /\ fst (KeyStore.validateApiKey 50 Scenario.key1 s1) = Ok false
    /\ fst (KeyStore.validateApiKey 60 Scenario.key1
              (KeyStore.new (KeyStore.apiKeysFile s1) false 50 Scenario.fresh2))
       = Ok true.
Proof.
  intros s.
  refine (X17_a_revocation_that_cannot_be_saved 50 60 Scenario.fresh2 false
            Scenario.key1
            (mkApiKey (lit "uuid-1") Scenario.key1 (lit "default-server") 0 None true)
            s _ eq_refl eq_refl eq_refl eq_refl).
  exact (tidy_calls [KeyStore.DiskChanges true] _
           (tidy_new KeyStore.Missing false 0 Scenario.fresh1)).
Defined.

(** ** Generation and rotation *)

(** X18.  A generated key is valid at once.  [generateApiKeySync] returns an
    active key of the given name whose string is [fvtt_] followed by the
    sixty-four hexadecimal digits of the random bytes; the key is in the
    table, so that [validateApiKey] accepts it, whether or not the file could
    be written: a failed write is only logged, and the file is then left as
    it was. *)
Theorem X18_a_generated_key_is_valid_at_once now now' fresh name s :
  KeyStore.initialized s = true ->
  KeyStore.bytes32 (KeyStore.keyBytes fresh) ->
  exists apiKey s1,
    KeyStore.generateApiKeySync now fresh name s = (Ok apiKey, s1)
    /\ ak_key apiKey = lit "fvtt_" ++ KeyStore.toString_hex (KeyStore.keyBytes fresh)
    /\ length (ak_key apiKey) = 69%nat
    /\ ak_name apiKey = name /\ ak_active apiKey = true
    /\ fst (KeyStore.validateApiKey now' (ak_key apiKey) s1) = Ok true
    /\ (KeyStore.writeFails s = true ->
        KeyStore.apiKeysFile s1 = KeyStore.apiKeysFile s).
Proof.
  intros Hinit Hbytes. rewrite generate_eq. cbn zeta.
  eexists _, _. split; [reflexivity|]. cbn [ak_key ak_name ak_active].
  split; [reflexivity|]. split; [apply (generated_key_pattern _ Hbytes)|].
  split; [reflexivity|]. split; [reflexivity|]. split.
  - rewrite validate_eq.
    destruct (KeyStore.writeFails s);
      cbn [KeyStore.apiKeys KeyStore.with_apiKeys KeyStore.with_apiKeysFile
           KeyStore.initialized];
      rewrite get_set_eq, Hinit; reflexivity.
  - intros ->. reflexivity.
Qed.

Lemma X18_a_generated_key_is_valid_at_once_witness :
  exists apiKey s1,
    KeyStore.generateApiKeySync 10 Scenario.fresh2 (lit "second") Scenario.store
    = (Ok apiKey, s1)
    /\ ak_key apiKey = Scenario.key2
    /\ fst (KeyStore.validateApiKey 20 Scenario.key2 s1) = Ok true.
Proof.
  destruct (X18_a_generated_key_is_valid_at_once 10 20 Scenario.fresh2
              (lit "second") Scenario.store eq_refl)
    as (apiKey & s1 & Hrun & Hkey & _ & _ & _ & Hvalid & _).
  - split; [reflexivity|]. repeat constructor.
  - exists apiKey, s1. rewrite Hkey in Hvalid. auto.
Defined.

(** X19.  Rotation.  [rotateApiKey] of a key that is not in the table
    returns [null] and changes nothing.  For a key that is, it generates a
    key of the same name and marks the old one inactive: afterwards
    [validateApiKey] rejects the old key and accepts the new one.  The new
    key is returned unless the last save fails; then the call throws, with
    both changes made in the table. *)
Theorem X19_rotation_replaces_a_key now now' fresh oldKey s :
  let key := lit "fvtt_" ++ KeyStore.toString_hex (KeyStore.keyBytes fresh) in
  (JsMap.get oldKey (KeyStore.apiKeys s) = None ->
   KeyStore.rotateApiKey now fresh oldKey s = (Ok None, s))
  /\ (forall existingKey,
        JsMap.get oldKey (KeyStore.apiKeys s) = Some existingKey ->
        KeyStore.initialized s = true -> key <> oldKey ->
        exists s1,
          KeyStore.rotateApiKey now fresh oldKey s
          = (if KeyStore.writeFails s then Throw IOError
             else Ok (Some (mkApiKey (KeyStore.uuid fresh) key (ak_name existingKey)
                              now None true)),
             s1)
          /\ fst (KeyStore.validateApiKey now' oldKey s1) = Ok false
          /\ fst (KeyStore.validateApiKey now' key s1) = Ok true).
Proof.
  intros key. split.
  - intros Hnone. now rewrite rotate_eq, Hnone.
  - intros existingKey Hget Hinit Hne. rewrite rotate_eq, Hget. cbn zeta.
    rewrite generate_eq. cbn zeta. fold key.
    rewrite bool_decide_eq_false_2 by exact Hne.
    destruct (KeyStore.writeFails s); cbn [snd];
      (eexists; split; [reflexivity|]);
      rewrite !validate_eq;
      cbn [KeyStore.apiKeys KeyStore.with_apiKeys KeyStore.with_apiKeysFile
           KeyStore.initialized];
      rewrite get_set_eq, get_set_ne, get_set_eq, Hinit by congruence;
      cbn [KeyStore.deactivate ak_active andb]; split; reflexivity.
Qed.

Lemma X19_rotation_replaces_a_key_witness :
  exists s1,
    KeyStore.rotateApiKey 10 Scenario.fresh2 Scenario.key1 Scenario.store
    = (Ok (Some (mkApiKey (lit "uuid-2") Scenario.key2 (lit "default-server")
                   10 None true)), s1)
    /\ fst (KeyStore.validateApiKey 20 Scenario.key1 s1) = Ok false
    /\ fst (KeyStore.validateApiKey 20 Scenario.key2 s1) = Ok true.
Proof.
  refine (proj2 (X19_rotation_replaces_a_key 10 20 Scenario.fresh2 Scenario.key1
                   Scenario.store)
            (mkApiKey (lit "uuid-1") Scenario.key1 (lit "default-server") 0 None true)
            eq_refl eq_refl _).
  discriminate.
Defined.

(** ** The constructor *)



(** ** The listing *)

Lemma firstn_min {A} n (l : list A) :
  firstn n l = firstn (length (firstn n l)) l.
Proof.
  rewrite length_firstn. destruct (Nat.le_gt_cases n (length l)) as [Hle|Hgt].
  - now rewrite Nat.min_l.
  - rewrite Nat.min_r by lia. now rewrite !firstn_all2 by lia.
Qed.

Lemma maskApiKey_prefix key :
  exists p,
    KeyStore.maskApiKey key = p ++ lit "..."
    /\ p = firstn (length p) key
    /\ (length p <= 12)%nat
    /\ ((4 < length key)%nat -> (length p < length key)%nat).
Proof.
  unfold KeyStore.maskApiKey.
  destruct (Nat.leb (length key) 12) eqn:Hlen.
  - apply Nat.leb_le in Hlen. exists (firstn 4 key).
    split; [reflexivity|]. split; [apply firstn_min|].
    rewrite length_firstn. split; lia.
  - apply Nat.leb_gt in Hlen. exists (firstn 12 key).
    split; [reflexivity|]. split; [apply firstn_min|].
    rewrite length_firstn. split; lia.
Qed.

(** X21.  The listing shows no key whole.  [listApiKeys] lists the keys of
    the table in their order, each with its id, name, dates and state, and
    with its key string cut to a prefix followed by ['...']: the prefix has
    at most twelve code units, and it is shorter than the key string
    whenever that has more than four. *)
Theorem X21_the_listing_shows_no_key_whole s :
  Forall2 (fun shown key =>
    ak_id shown = ak_id key /\ ak_name shown = ak_name key
    /\ ak_createdAt shown = ak_createdAt key /\ ak_lastUsed shown = ak_lastUsed key
    /\ ak_active shown = ak_active key
    /\ exists p,
         ak_key shown = p ++ lit "..."
         /\ p = firstn (length p) (ak_key key)
         /\ (length p <= 12)%nat
         /\ ((4 < length (ak_key key))%nat -> (length p < length (ak_key key))%nat))
    (KeyStore.listApiKeys s) (KeyStore.values s).
Proof.
  unfold KeyStore.listApiKeys. induction (KeyStore.values s) as [|key keys IH];
    cbn [map]; constructor; [|exact IH].
  cbn [ak_id ak_name ak_createdAt ak_lastUsed ak_active ak_key].
  repeat split. apply maskApiKey_prefix.
Qed.

(** ** A destroyed manager *)

Lemma call_initialized s c :
  KeyStore.initialized s = false -> KeyStore.initialized (KeyStore.call s c) = false.
Proof.
  intros Hinit.
  destruct c as [now fresh name|now key|now key|key|key|now fresh oldKey| | |w];
    cbn [KeyStore.call].
  - rewrite generate_eq. cbn zeta. now destruct (KeyStore.writeFails s).
  - rewrite validate_eq.
    destruct (JsMap.get key (KeyStore.apiKeys s)) as [k|]; [|exact Hinit].
    now rewrite Hinit.
  - rewrite isValidKey_eq, validate_eq.
    destruct (JsMap.get key (KeyStore.apiKeys s)) as [k|]; [|exact Hinit].
    now rewrite Hinit.
  - rewrite revoke_eq.
    destruct (JsMap.get key (KeyStore.apiKeys s)) as [k|]; [|exact Hinit].
    cbn zeta. now destruct (KeyStore.writeFails s).
  - rewrite delete_eq. cbn zeta.
    destruct (JsMap.has key (KeyStore.apiKeys s)); [|exact Hinit].
    now destruct (KeyStore.writeFails s).
  - rewrite rotate_eq.
    destruct (JsMap.get oldKey (KeyStore.apiKeys s)) as [existingKey|]; [|exact Hinit].
    cbn zeta. rewrite generate_eq. cbn zeta.
    destruct (bool_decide _); now destruct (KeyStore.writeFails s).
  - reflexivity.
  - rewrite runImmediate_eq. cbn [snd].
    destruct (KeyStore.immediates s); [exact Hinit|].
    cbn zeta. now destruct (KeyStore.writeFails s).
  - exact Hinit.
Qed.

Lemma calls_initialized cs s :
  KeyStore.initialized s = false -> KeyStore.initialized (KeyStore.calls s cs) = false.
Proof.
  revert s. induction cs as [|c cs IH]; intros s Hinit; cbn; [exact Hinit|].
  apply IH. now apply call_initialized.
Qed.

(** X22.  A destroyed manager validates no managed key again.  [destroy]
    empties the table and clears [initialized], and no method sets it again:
    whatever is called afterwards, [validateApiKey] rejects every key, those
    generated after the [destroy] included, and [isValidKey] is the test of
    the world-id format alone. *)
Theorem X22_a_destroyed_manager_validates_no_managed_key s cs now key :
  let s' := KeyStore.calls (snd (KeyStore.destroy s)) cs in
  KeyStore.validateApiKey now key s' = (Ok false, s')
  /\ KeyStore.isValidKey now key s' = (Ok (validPattern_test key), s').
Proof.
  intros s'.
  assert (Hinit : KeyStore.initialized s' = false)
    by (apply calls_initialized; reflexivity).
  assert (Hvalidate : KeyStore.validateApiKey now key s' = (Ok false, s')).
  { rewrite validate_eq, Hinit.
    now destruct (JsMap.get key (KeyStore.apiKeys s')). }
  split; [exact Hvalidate|]. now rewrite isValidKey_eq, Hvalidate.
Qed.

(** ** The time a key was last used *)

(** X23.  [validateApiKey] answers before it saves.  On an active key of an
    initialized manager it returns [true], writes the time into the
    [lastUsed] of that key and of no other, and leaves the file as it is:
    the save is queued.  When the queued callback runs, the file receives
    the table if it can be written; if it cannot, the failure is logged and
    nothing is thrown. *)
Theorem X23_validateApiKey_answers_before_it_saves now key k s :
  KeyStore.initialized s = true ->
  JsMap.get key (KeyStore.apiKeys s) = Some k -> ak_active k = true ->
  exists s1 s2,
    KeyStore.validateApiKey now key s = (Ok true, s1)
    /\ JsMap.get key (KeyStore.apiKeys s1) = Some (touch now k)
    /\ (forall key', key <> key' ->
          JsMap.get key' (KeyStore.apiKeys s1) = JsMap.get key' (KeyStore.apiKeys s))
    /\ KeyStore.apiKeysFile s1 = KeyStore.apiKeysFile s
    /\ KeyStore.runImmediate s1 = (Ok tt, s2)
    /\ KeyStore.apiKeys s2 = KeyStore.apiKeys s1
    /\ KeyStore.apiKeysFile s2
       = if KeyStore.writeFails s then KeyStore.apiKeysFile s
         else KeyStore.Stored (KeyStore.values s1).
Proof.
  intros Hinit Hget Hact. rewrite validate_eq, Hget, Hinit, Hact. cbn [andb].
  eexists _, _. split; [reflexivity|].
  cbn [KeyStore.apiKeys KeyStore.with_apiKeys KeyStore.with_immediates
       KeyStore.apiKeysFile].
  split; [apply get_set_eq|]. split; [intros key' Hne; now apply get_set_ne|].
  split; [reflexivity|].
  rewrite runImmediate_eq.
  cbn [KeyStore.immediates KeyStore.with_apiKeys KeyStore.with_immediates
       KeyStore.writeFails].
  split; [reflexivity|]. cbn zeta.
  destruct (KeyStore.writeFails s); split; reflexivity.
Qed.

Lemma X23_validateApiKey_answers_before_it_saves_witness :
  exists s1 s2,
    KeyStore.validateApiKey 50 Scenario.key1 Scenario.store = (Ok true, s1)
    /\ KeyStore.apiKeysFile s1 = KeyStore.apiKeysFile Scenario.store
    /\ KeyStore.runImmediate s1 = (Ok tt, s2)
    /\ KeyStore.apiKeysFile s2 = KeyStore.Stored (KeyStore.values s1).
Proof.
  destruct (X23_validateApiKey_answers_before_it_saves 50 Scenario.key1
              (mkApiKey (lit "uuid-1") Scenario.key1 (lit "default-server") 0 None true)
              Scenario.store eq_refl eq_refl eq_refl)
    as (s1 & s2 & Hrun & _ & _ & Hfile & Himm & _ & Hsaved).
  exists s1, s2. auto.
Defined.

(** * The secure manager and its storage *)

(** X24.  The secure gate fails with its storage.  While the key file of a
    [SecureApiKeyManager] cannot be read or decrypted, the manager is not
    initialized, and every call of [validateApiKey] and of [isValidKey]
    throws the error of the loader, for a credential of the world-id format
    too; nothing is changed, so that the next call tries to load again. *)
Theorem X24_the_secure_gate_fails_with_its_storage e now key m :
  SecureApiKeyManager.isInitialized m = false ->
  SecureApiKeyManager.validateApiKey (Throw e) now key m = (Throw e, m)
  /\ SecureApiKeyManager.isValidKey (Throw e) now key m = (Throw e, m).
Proof.
  intros Hinit.
  assert (Hvalidate :
    SecureApiKeyManager.validateApiKey (Throw e) now key m = (Throw e, m)).
  { unfold SecureApiKeyManager.validateApiKey. rewrite bind_gets.
    unfold Datatypes.id. rewrite Hinit. cbn [negb].
    unfold SecureApiKeyManager.initializeAsync, SecureApiKeyManager.loadApiKeys.
    reflexivity. }
  split; [exact Hvalidate|].
  unfold SecureApiKeyManager.isValidKey, bind. now rewrite Hvalidate.
Qed.

Lemma X24_the_secure_gate_fails_with_its_storage_witness :
  SecureApiKeyManager.isValidKey (Throw IOError) 0 (lit "abcdefgh12")
    (SecureApiKeyManager.mk ∅ false)
  = (Throw IOError, SecureApiKeyManager.mk ∅ false).
Proof.
  exact (proj2 (X24_the_secure_gate_fails_with_its_storage IOError 0
                  (lit "abcdefgh12") (SecureApiKeyManager.mk ∅ false) eq_refl)).
Defined.

(** * The counts of the key table *)

Lemma active_set (m : JsMap.t ApiKey) key k k' :
  JsMap.get key m = Some k ->
  length (JsMap.set key k' m) = length m
  /\ (length (filter (fun k => ak_active k = true) (map snd (JsMap.set key k' m)))
      + (if ak_active k then 1 else 0)
      = length (filter (fun k => ak_active k = true) (map snd m))
        + (if ak_active k' then 1 else 0))%nat.
Proof.
  induction m as [|[key0 k0] m IH]; cbn [JsMap.get JsMap.set]; [discriminate|].
  destruct (decide (key0 = key)) as [->|Hne].
  - intros [= ->]. split; [reflexivity|].
    cbn [map snd]. rewrite !filter_cons.
    destruct (ak_active k) eqn:Hk, (ak_active k') eqn:Hk'; cbn [length];
      repeat first [rewrite decide_True by congruence
                   | rewrite decide_False by congruence];
      cbn [length]; lia.
  - intros Hget. destruct (IH Hget) as [Hlen Hact]. split; [cbn; now rewrite Hlen|].
    cbn [map snd]. rewrite !filter_cons.
    destruct (decide (ak_active k0 = true)); cbn [length]; lia.
Qed.

Lemma active_delete (m : JsMap.t ApiKey) key k :
  JsMap.wf m -> JsMap.get key m = Some k ->
  S (length (JsMap.delete key m)) = length m
  /\ (length (filter (fun k => ak_active k = true) (map snd (JsMap.delete key m)))
      + (if ak_active k then 1 else 0)
      = length (filter (fun k => ak_active k = true) (map snd m)))%nat.
Proof.
  induction m as [|[key0 k0] m IH]; cbn [JsMap.get JsMap.delete]; [discriminate|].
  intros Hwf. unfold JsMap.wf, JsMap.keys in Hwf. cbn [map fst] in Hwf.
  apply NoDup_cons in Hwf as [Hnotin Hwf].
  destruct (decide (key0 = key)) as [->|Hne].
  - intros [= ->].
    rewrite delete_absent
      by (apply get_None_keys; intros Hin; now apply Hnotin, list_elem_of_In).
    split; [reflexivity|]. cbn [map snd]. rewrite filter_cons.
    destruct (ak_active k) eqn:Hk;
      [rewrite decide_True by congruence|rewrite decide_False by congruence];
      cbn [length]; lia.
  - intros Hget. destruct (IH Hwf Hget) as [Hlen Hact]. split; [cbn; now rewrite Hlen|].
    cbn [map snd]. rewrite !filter_cons.
    destruct (decide (ak_active k0 = true)); cbn [length]; lia.
Qed.

(** X28.  The counts of [getSecurityInfo].  Revoking a key of the table
    keeps it in the table: [totalKeys] is as before, and [activeKeys] is one
    less if the key was active.  Deleting it takes it out: [totalKeys] is one
    less, and [activeKeys] one less if the key was active.  This holds
    whether or not the save at the end of the call succeeds. *)
Theorem X28_the_counts_of_getSecurityInfo key k s :
  KeyStore.tidy s ->
  JsMap.get key (KeyStore.apiKeys s) = Some k ->
  let gone := if ak_active k then 1%nat else 0%nat in
  let info := KeyStore.getSecurityInfo s in
  let revoked := KeyStore.getSecurityInfo (snd (KeyStore.revokeApiKey key s)) in
  let deleted := KeyStore.getSecurityInfo (snd (KeyStore.deleteApiKey key s)) in
  KeyStore.totalKeys revoked = KeyStore.totalKeys info
  /\ (KeyStore.activeKeys revoked + gone = KeyStore.activeKeys info)%nat
  /\ S (KeyStore.totalKeys deleted) = KeyStore.totalKeys info
  /\ (KeyStore.activeKeys deleted + gone = KeyStore.activeKeys info)%nat.
Proof.
  intros [Hwf _] Hget gone info revoked deleted.
  destruct (active_set _ key k (KeyStore.deactivate k) Hget) as [Hlen Hact].
  destruct (active_delete _ key k Hwf Hget) as [Hlen' Hact'].
  cbn [KeyStore.deactivate ak_active] in Hact. rewrite Nat.add_0_r in Hact.
  subst revoked deleted info gone.
  rewrite revoke_eq, delete_eq, Hget. cbn zeta.
  unfold JsMap.has. rewrite Hget.
  unfold KeyStore.getSecurityInfo, KeyStore.values, JsMap.size.
  destruct (KeyStore.writeFails s);
    cbn [snd KeyStore.apiKeys KeyStore.with_apiKeys KeyStore.with_apiKeysFile
         KeyStore.totalKeys KeyStore.activeKeys];
    auto.
Qed.

Lemma X28_the_counts_of_getSecurityInfo_witness :
  let info := KeyStore.getSecurityInfo Scenario.store in
  let revoked :=
    KeyStore.getSecurityInfo (snd (KeyStore.revokeApiKey Scenario.key1 Scenario.store)) in
  let deleted :=
    KeyStore.getSecurityInfo (snd (KeyStore.deleteApiKey Scenario.key1 Scenario.store)) in
  KeyStore.totalKeys revoked = KeyStore.totalKeys info
  /\ (KeyStore.activeKeys revoked + 1 = KeyStore.activeKeys info)%nat
  /\ S (KeyStore.totalKeys deleted) = KeyStore.totalKeys info
  /\ (KeyStore.activeKeys deleted + 1 = KeyStore.activeKeys info)%nat.
Proof.
  exact (X28_the_counts_of_getSecurityInfo Scenario.key1
           (mkApiKey (lit "uuid-1") Scenario.key1 (lit "default-server") 0 None true)
           Scenario.store (tidy_new KeyStore.Missing false 0 Scenario.fresh1)
           eq_refl).
Defined.
